(** * Orchestration and retry core of the agentic test framework

    A shallow embedding of the source files:

    - [src/orchestrator/orchestrator.ts]: placeholder interpolation,
      [runScenario], the chunked scheduling loop of [main] and
      [parseArgs];
    - [src/utils/rerunHandler.ts]: [runWithRetries];
    - [src/utils/safeActions.ts]: [withRetry] and the actions built on it
      ([clickSafe], [fillSafe], [expectSafe], [waitForRequestSafe],
      [executeSafe]);
    - [src/config.ts]: the construction of [CONFIG] from the environment;
    - [src/agents/aiClient.ts]: [AIClient.ask] and [askAI];
    - [src/agents/testGenerator.ts]: [generateTest] and its steps.

    Conventions.  JavaScript numbers that the code uses as counters or
    millisecond amounts are non-negative integers here ([nat]).  A string is
    a sequence of code units, each below 256 ([string] of the Standard
    Library).  Asynchronous functions are run to completion: what the outside
    world answers (a generation that fails, a timer that fires first, a
    signal that was raised) is an input of the model, and what the code does
    to the outside world is an explicit list of events.  Wall-clock fields
    ([startTime], [endTime], [duration]) are left out. *)

From Stdlib Require Import String Ascii DecimalString.
From Stdlib Require Import Arith Lia Bool List.
From Equations Require Import Equations.
Import ListNotations.

Local Open Scope string_scope.
Local Open Scope nat_scope.
Local Open Scope list_scope.

(* ===================================================================== *)
(** * Part I. Definitions                                                *)
(* ===================================================================== *)

(** ** JavaScript values shared by the files *)

Module Js.

(** [`${n}`] for a non-negative integer [n]. *)
Definition num_to_string (n : nat) : string :=
  NilEmpty.string_of_uint (Nat.to_uint n).

(** [Array.prototype.slice(a, b)] for integers [0 <= a <= b]. *)
Definition slice {A : Type} (a b : nat) (l : list A) : list A :=
  firstn (b - a) (skipn a l).

(** [String.prototype.slice(0, n)]. *)
Fixpoint str_take (n : nat) (s : string) : string :=
  match n, s with
  | S k, String c r => String c (str_take k r)
  | _, _ => ""
  end.

Arguments str_take : simpl never.
Arguments num_to_string : simpl never.

(** [Array.prototype.join(sep)] on strings. *)
Definition join (sep : string) (l : list string) : string :=
  String.concat sep l.

(** [s.includes(t)]. *)
Definition includes (t s : string) : bool :=
  match index 0 t s with
  | Some _ => true
  | None => false
  end.

(** White space as [String.prototype.trim] sees it, among the code units
    below 256: TAB, LF, VT, FF, CR, SPACE and NBSP. *)
Definition is_white_space (c : ascii) : bool :=
  let n := nat_of_ascii c in
  ((9 <=? n) && (n <=? 13)) || (n =? 32) || (n =? 160).

Fixpoint trim_start (s : string) : string :=
  match s with
  | String c r => if is_white_space c then trim_start r else s
  | "" => ""
  end.

(** Removes the trailing white space: a character is dropped when it is
    white space and nothing but white space follows it. *)
Fixpoint trim_end (s : string) : string :=
  match s with
  | String c r =>
      match trim_end r with
      | "" => if is_white_space c then "" else String c ""
      | r' => String c r'
      end
  | "" => ""
  end.

Definition trim (s : string) : string := trim_end (trim_start s).

(** Truthiness of a string: [!s] holds for the empty string only. *)
Definition str_falsy (s : string) : bool :=
  match s with
  | "" => true
  | _ => false
  end.

(** A JavaScript [Error] object, with the [details] field that
    [OrchestrationError] adds (absent on other errors). *)
Record error : Type := mk_error {
  err_name : string;
  err_message : string;
  err_details : option string
}.

(** A thrown value: an [Error] instance, or anything else, of which the
    code only ever takes [String(value)]. *)
Inductive thrown : Type :=
| ThrownError (e : error)
| ThrownOther (text : string).

(** [err instanceof Error ? err.message : String(err)]. *)
Definition message_of (t : thrown) : string :=
  match t with
  | ThrownError e => err_message e
  | ThrownOther text => text
  end.

(** How a call ends: it returns a value or it throws. *)
Inductive completion (A : Type) : Type :=
| Normal (a : A)
| Throws (t : thrown).
Arguments Normal {A} a.
Arguments Throws {A} t.

Definition bind {A B : Type} (m : completion A) (k : A -> completion B)
  : completion B :=
  match m with
  | Normal a => k a
  | Throws t => Throws t
  end.

(** Keeps the equation [x = y] when a definition matches on [x]. *)
Definition inspect {A : Type} (x : A) : {y : A | x = y} :=
  exist _ x eq_refl.

(** [new Error(message)]. *)
Definition Error (message : string) : error := mk_error "Error" message None.

(** The [ReferenceError] that the engine throws for an identifier without
    binding. *)
Definition ReferenceError (message : string) : error :=
  mk_error "ReferenceError" message None.

End Js.

(** ** rerunHandler.ts *)

Module RerunHandler.

Import Js.

Record RunOptions : Type := mk_options {
  reporter : string;
  timeout : nat;
  workers : nat;
  retries : nat
}.

(** The defaults of the destructuring at the top of [runWithRetries]. *)
Definition default_options : RunOptions := mk_options "list" (30 * 1000) 1 0.

(** The free identifier [__dirname] of the module.  rerunHandler.ts is an
    ES module: it is written with [import] and [export], and it is loaded
    under the name rerunHandler.js by orchestrator.ts, which reads
    [import.meta.url].  Node defines [__dirname] in CommonJS modules only,
    so evaluating it throws a [ReferenceError]. *)
Definition dirname : completion string :=
  Throws (ThrownError (ReferenceError "__dirname is not defined")).

(** Calls to the collaborators and log entries, in program order. *)
Inductive event : Type :=
| LogAttempt (i attempts : nat) (tag prompt100 : string)
| Generate (prompt tag : string)
| Execute (command : string)
| LogPassed (tag : string) (attempt : nat)
| LogAttemptFailed (i : nat) (tag error300 : string) (totalAttempts : nat)
| LogExhausted (tag : string) (attempts : nat) (lastError : string)
| LogRegenerating (tag : string) (nextAttempt : nat).

Section RunWithRetries.

(** [path.resolve(dir, "../tests", file)]. *)
Variable resolve_test_path : string -> string -> string.

Variables (prompt tag : string) (attempts : nat) (options : RunOptions).

(** What [generateTest] answers at attempt [i] (counted from 1): its
    rejection, or [None] when it resolves. *)
Variable generate : nat -> option thrown.

(** What [execSync] answers at attempt [i]: its exception, or [None]
    when it returns. *)
Variable exec : nat -> option thrown.

Definition command (testPath : string) : string :=
  join " "
    [ "npx playwright test";
      testPath;
      ("--reporter=" ++ reporter options)%string;
      ("--workers=" ++ num_to_string (workers options))%string;
      ("--retries=" ++ num_to_string (retries options))%string ].

(** The body of [for (let i = 1; i <= attempts; i++)]; [n] counts the
    iterations that are left, [n = attempts + 1 - i].  The statements of
    the [try] block are run in order: the generation, the evaluation of
    [__dirname] for the path of the test, the command. *)
Fixpoint attempt_loop (n i : nat) : completion unit * list event :=
  match n with
  | 0 => (Normal tt, [])
  | S n' =>
      let started :=
        [LogAttempt i attempts tag (str_take 100 prompt);
         Generate prompt tag] in
      let on_failure (done : list event) (err : thrown) :=
        let errorMessage := message_of err in
        let logged :=
          done ++
          [LogAttemptFailed i tag (str_take 300 errorMessage) attempts] in
        if i =? attempts then
          (Throws (ThrownError (Error
             ("Test failed after " ++ num_to_string attempts ++
              " attempts: " ++ errorMessage)%string)),
           logged ++ [LogExhausted tag attempts errorMessage])
        else
          let (r, rest) := attempt_loop n' (S i) in
          (r, logged ++ LogRegenerating tag (i + 1) :: rest) in
      match generate i with
      | Some err => on_failure started err
      | None =>
          match dirname with
          | Throws err => on_failure started err
          | Normal dir =>
              let testPath :=
                resolve_test_path dir (tag ++ ".spec.ts")%string in
              let ran := started ++ [Execute (command testPath)] in
              match exec i with
              | Some err => on_failure ran err
              | None => (Normal tt, ran ++ [LogPassed tag i])
              end
          end
      end
  end.

Definition runWithRetries : completion unit * list event :=
  attempt_loop attempts 1.

End RunWithRetries.

(** The exception that ends an attempt whose generation answered [g]:
    the rejection of the generator, or what the evaluation of
    [__dirname] throws. *)
Definition attempt_failure (g : option thrown) : thrown :=
  match g with
  | Some t => t
  | None => ThrownError (ReferenceError "__dirname is not defined")
  end.

(** Every attempt starts with one call of the generator. *)
Definition is_generate (e : event) : bool :=
  match e with
  | Generate _ _ => true
  | _ => false
  end.

Definition is_execute (e : event) : bool :=
  match e with
  | Execute _ => true
  | _ => false
  end.

Definition is_passed (e : event) : bool :=
  match e with
  | LogPassed _ _ => true
  | _ => false
  end.

End RerunHandler.

(** ** orchestrator.ts *)

Module Orchestrator.

Import Js.

(** [new OrchestrationError(message, details)]. *)
Definition OrchestrationError (message : string) (details : option string)
  : error :=
  mk_error "OrchestrationError" message details.

Record TestPrompt : Type := mk_prompt {
  tag : string;
  description : string;
  prompt : string
}.

Record RunStats : Type := mk_stats {
  total : nat;
  passed : nat;
  failed : list string
}.

Record OrchestratorConfig : Type := mk_config {
  concurrency : nat;
  scenarioTimeout : nat;
  retryAttempts : nat;
  continueOnFailure : bool;
  verbose : bool
}.

Definition DEFAULT_CONFIG : OrchestratorConfig :=
  mk_config 1 (5 * 60 * 1000) 2 true false.

(** *** The chunking loop of [main]

    [for (let i = 0; i < scenariosToRun.length; i += concurrency)
       chunks.push(scenariosToRun.slice(i, i + concurrency));]

    The loop does not terminate when [concurrency] is 0, so the model
    counts iterations with [fuel] and answers [None] when it runs out. *)
Fixpoint chunk_loop {A : Type} (fuel i c : nat) (l : list A)
  : option (list (list A)) :=
  if i <? length l then
    match fuel with
    | 0 => None
    | S f =>
        match chunk_loop f (i + c) c l with
        | Some chunks => Some (slice i (i + c) l :: chunks)
        | None => None
        end
    end
  else Some [].

(** One unit of fuel per element is enough as soon as [c >= 1]. *)
Definition make_chunks {A : Type} (c : nat) (l : list A)
  : option (list (list A)) :=
  chunk_loop (length l) 0 c l.

(** Every chunk but the last holds exactly [c] elements; the last one
    holds between 1 and [c]. *)
Fixpoint well_chunked {A : Type} (c : nat) (chunks : list (list A))
  : Prop :=
  match chunks with
  | [] => True
  | [ch] => 1 <= length ch <= c
  | ch :: rest => length ch = c /\ well_chunked c rest
  end.

(** *** The configuration object of config.ts

    [CONFIG] is an object literal with five own string properties, in this
    order.  [config.js] refuses to load when one of the values is empty. *)
Record Config : Type := mk_CONFIG {
  ENV : string;
  BASE_URL : string;
  USERNAME : string;
  PASSWORD : string;
  OPENAI_API_KEY : string
}.

Definition config_entries (C : Config) : list (string * string) :=
  [ ("ENV", ENV C);
    ("BASE_URL", BASE_URL C);
    ("USERNAME", USERNAME C);
    ("PASSWORD", PASSWORD C);
    ("OPENAI_API_KEY", OPENAI_API_KEY C) ].

(** [Object.keys(CONFIG)]. *)
Definition config_keys (C : Config) : list string :=
  map fst (config_entries C).

(** [CONFIG[key]], [None] standing for [undefined]. *)
Fixpoint lookup (key : string) (entries : list (string * string))
  : option string :=
  match entries with
  | [] => None
  | (k, v) :: rest => if (k =? key)%string then Some v else lookup key rest
  end.

(** [key in CONFIG].  The operator also sees inherited properties, but
    every property name of [Object.prototype] holds a lower-case letter
    and the keys that reach this test are made of [A-Z0-9_] only. *)
Definition has_key (C : Config) (key : string) : bool :=
  existsb (String.eqb key) (config_keys C).

(** *** [interpolateConfigPlaceholders] *)

(** The character class [[A-Z0-9_]]. *)
Definition is_key_char (c : ascii) : bool :=
  let n := nat_of_ascii c in
  ((65 <=? n) && (n <=? 90)) || ((48 <=? n) && (n <=? 57)) || (n =? 95).

(** Matches the literal [p] at the start of [s] and gives what follows. *)
Fixpoint strip_prefix (p s : string) : option string :=
  match p, s with
  | "", _ => Some s
  | String a p', String b s' =>
      if Ascii.eqb a b then strip_prefix p' s' else None
  | String _ _, "" => None
  end.

(** The longest run of key characters at the start of [s], and the rest. *)
Fixpoint span_key (s : string) : string * string :=
  match s with
  | String c r =>
      if is_key_char c then
        let (k, rest) := span_key r in (String c k, rest)
      else ("", s)
  | "" => ("", "")
  end.

Definition opener : string := "${CONFIG.".

(** One match of [/\$\{CONFIG\.([A-Z0-9_]+)\}/] anchored at the start
    of [s]: the captured key and the text after the closing brace.  The
    greedy [+] takes the whole run of key characters; a shorter run would
    be followed by a key character, never by the brace, so backtracking
    finds nothing more. *)
Definition match_placeholder (s : string) : option (string * string) :=
  match strip_prefix opener s with
  | Some after =>
      match span_key after with
      | (String k ks, String "}" rest) => Some (String k ks, rest)
      | _ => None
      end
  | None => None
  end.

Fixpoint all_key_chars (s : string) : bool :=
  match s with
  | "" => true
  | String c r => is_key_char c && all_key_chars r
  end.

(** Whether the character [d] occurs in [s]. *)
Fixpoint has_char (d : ascii) (s : string) : bool :=
  match s with
  | "" => false
  | String c r => Ascii.eqb d c || has_char d r
  end.

(** Whether the text [p] occurs somewhere in [s]. *)
Fixpoint occurs (p s : string) : bool :=
  match strip_prefix p s with
  | Some _ => true
  | None =>
      match s with
      | "" => false
      | String _ r => occurs p r
      end
  end.

(** The replacer function given to [String.prototype.replace]. *)
Definition replacer (C : Config) (key : string) : completion string :=
  if negb (has_key C key) then
    Throws (ThrownError (OrchestrationError
      ("Unknown configuration key: " ++ key)%string
      (Some ("Available keys: " ++ join ", " (config_keys C))%string)))
  else
    match lookup key (config_entries C) with
    | Some v => Normal (if str_falsy v then "" else v)
    | None => Normal ""
    end.

Lemma strip_prefix_length (p s r : string) :
  strip_prefix p s = Some r ->
  String.length s = String.length p + String.length r.
Proof.
  revert s; induction p as [|a p IH]; intros [|b s]; simpl; intros H;
    try discriminate; try (injection H as <-; reflexivity).
  destruct (Ascii.eqb a b); [|discriminate].
  rewrite (IH _ H). reflexivity.
Qed.

Lemma span_key_length (s : string) :
  String.length s =
  String.length (fst (span_key s)) + String.length (snd (span_key s)).
Proof.
  induction s as [|c r IH]; simpl; [reflexivity|].
  destruct (is_key_char c); [|reflexivity].
  destruct (span_key r) as [k rest]; simpl in *. lia.
Qed.

Lemma match_placeholder_shorter (s key rest : string) :
  match_placeholder s = Some (key, rest) ->
  String.length rest < String.length s.
Proof.
  unfold match_placeholder.
  destruct (strip_prefix opener s) as [after|] eqn:Hp; [|discriminate].
  apply strip_prefix_length in Hp.
  pose proof (span_key_length after) as Hs.
  destruct (span_key after) as [[|k ks] [|c r]]; try discriminate.
  destruct c as [[] [] [] [] [] [] [] []]; try discriminate.
  intros H; injection H as <- <-. simpl in *. lia.
Qed.

(** [template.replace(/.../g, replacer)]: the text is scanned from left
    to right; where the pattern matches, the replacer's answer is put in
    and the scan goes on after the match; elsewhere one character is
    copied.  An exception of the replacer ends the whole call. *)
Equations? replace_all (C : Config) (s : string) : completion string
  by wf (String.length s) lt :=
  replace_all C "" := Normal "";
  replace_all C (String c r)
    with inspect (match_placeholder (String c r)) := {
    | exist _ (Some (key, rest)) Hm :=
        bind (replacer C key) (fun v =>
        bind (replace_all C rest) (fun out =>
        Normal (v ++ out)%string));
    | exist _ None _ :=
        bind (replace_all C r) (fun out => Normal (String c out)) }.
Proof.
  apply match_placeholder_shorter in Hm. exact Hm.
Qed.

Definition interpolateConfigPlaceholders (C : Config) (template : string)
  : completion string :=
  replace_all C template.

(** The error of [interpolateConfigPlaceholders] for the key [key]. *)
Definition unknown_key_error (C : Config) (key : string) : error :=
  OrchestrationError
    ("Unknown configuration key: " ++ key)%string
    (Some ("Available keys: " ++ join ", " (config_keys C))%string).

(** *** [runScenario] *)

(** Which of the two promises given to [Promise.race] settles first. *)
Inductive race_winner : Type :=
| RunnerSettlesFirst
| TimerSettlesFirst.

(** What the outside world does while one scenario runs: the answers of
    the generator and of the executor at each attempt, the winner of the
    race, and the moment at which the race settles, on a clock that the
    scenarios of one chunk share. *)
Record ScenarioWorld : Type := mk_world {
  generate : nat -> option thrown;
  exec : nat -> option thrown;
  winner : race_winner;
  settles_at : nat
}.

Inductive event : Type :=
| ScenarioStarted (tag : string)
| TimerSet (ms : nat)
| RunnerCalled (expandedPrompt tag : string) (attempts : nat)
| ScenarioPassed (tag : string)
| ScenarioFailed (tag errorMessage : string).

(** One call of [runScenario]: what its promise resolves with, the
    entries made before its [await], in the turn of the caller, and the
    entries made once the race has settled. *)
Record ScenarioRun : Type := mk_run {
  passes : bool;
  at_call : list event;
  at_settle : list event
}.

Section RunScenario.

Variable resolve_test_path : string -> string -> string.
Variable C : Config.
Variable config : OrchestratorConfig.

(** The [try] block of [runScenario] up to its [await]: the two checks
    and the resolution of the placeholders.  [aborted] is
    [signal.aborted]. *)
Definition enter_scenario (aborted : bool) (p : TestPrompt)
  : completion string :=
  if aborted then
    Throws (ThrownError (OrchestrationError "Scenario aborted by user" None))
  else if str_falsy (trim (prompt p)) then
    Throws (ThrownError (OrchestrationError "Empty prompt" None))
  else interpolateConfigPlaceholders C (prompt p).

(** [await Promise.race([runWithRetries(...), timeoutPromise])]. *)
Definition race (p : TestPrompt) (expandedPrompt : string)
    (w : ScenarioWorld) : completion unit :=
  match winner w with
  | TimerSettlesFirst =>
      Throws (ThrownError (OrchestrationError
        ("Scenario timed out after " ++
         num_to_string (scenarioTimeout config) ++ "ms")%string
        None))
  | RunnerSettlesFirst =>
      fst (RerunHandler.runWithRetries resolve_test_path
             expandedPrompt (tag p) (retryAttempts config)
             RerunHandler.default_options (generate w) (exec w))
  end.

(** [runScenario]: the [catch] turns every exception into [false].  An
    exception of the checks or of the resolution is caught before
    anything is awaited, so the failure is logged in the turn of the
    call; otherwise the timer is set and the runner called in that turn,
    and the outcome is logged when the race has settled. *)
Definition runScenario (aborted : bool) (p : TestPrompt) (w : ScenarioWorld)
  : ScenarioRun :=
  match enter_scenario aborted p with
  | Throws t =>
      mk_run false
        [ScenarioStarted (tag p); ScenarioFailed (tag p) (message_of t)]
        []
  | Normal expandedPrompt =>
      let called :=
        [ScenarioStarted (tag p);
         TimerSet (scenarioTimeout config);
         RunnerCalled expandedPrompt (tag p) (retryAttempts config)] in
      match race p expandedPrompt w with
      | Normal _ => mk_run true called [ScenarioPassed (tag p)]
      | Throws t =>
          mk_run false called [ScenarioFailed (tag p) (message_of t)]
      end
  end.

(** *** [main] *)

(** Puts an entry among entries sorted by time, after those that are
    not later: entries of equal time keep the order in which they are
    put in. *)
Fixpoint insert_by_time (x : nat * list event)
    (l : list (nat * list event)) : list (nat * list event) :=
  match l with
  | [] => [x]
  | y :: rest =>
      if fst x <? fst y then x :: l else y :: insert_by_time x rest
  end.

(** The entries in the order of their times. *)
Definition by_time (l : list (nat * list event))
  : list (nat * list event) :=
  fold_left (fun sorted x => insert_by_time x sorted) l [].

(** The calls that [chunk.map(async scenario => ...)] makes, one after
    the other and all in one turn: each scenario with the moment at
    which its race settles and its run.  Every call finds the signal in
    the same state, [aborted].  [world] answers for the scenario at a
    given position of the selection; [base] is the position of the first
    scenario of the chunk. *)
Fixpoint start_chunk (aborted : bool) (world : nat -> ScenarioWorld)
    (base : nat) (chunk : list TestPrompt)
  : list (TestPrompt * (nat * ScenarioRun)) :=
  match chunk with
  | [] => []
  | scenario :: rest =>
      (scenario,
       (settles_at (world base), runScenario aborted scenario (world base)))
      :: start_chunk aborted world (S base) rest
  end.

(** [chunk.map(...)] followed by [await Promise.all(...)]: the entries
    of the calls come first, in the order of the chunk; those of the
    settled races follow, in the order in which the races settle; the
    results come back in the order of the chunk. *)
Definition run_chunk (aborted : bool) (world : nat -> ScenarioWorld)
    (base : nat) (chunk : list TestPrompt)
  : list (TestPrompt * bool) * list event :=
  let runs := start_chunk aborted world base chunk in
  (map (fun r => (fst r, passes (snd (snd r)))) runs,
   flat_map (fun r => at_call (snd (snd r))) runs ++
   flat_map snd
     (by_time (map (fun r => (fst (snd r), at_settle (snd (snd r)))) runs))).

(** [for (const { scenario, passed } of chunkResults)]: the statistics
    after the loop and, when it threw, the error. *)
Fixpoint aggregate (chunkResults : list (TestPrompt * bool))
    (stats : RunStats) : RunStats * option error :=
  match chunkResults with
  | [] => (stats, None)
  | (scenario, true) :: rest =>
      aggregate rest
        (mk_stats (total stats) (passed stats + 1) (failed stats))
  | (scenario, false) :: rest =>
      let stats' :=
        mk_stats (total stats) (passed stats)
          (failed stats ++ [tag scenario]) in
      if negb (continueOnFailure config) then
        (stats',
         Some (OrchestrationError "Test run aborted due to failure"
                 (Some ("Failed scenario: " ++ tag scenario)%string)))
      else aggregate rest stats'
  end.

(** [controller.signal.aborted] when the chunk of index [k] is started.
    The signal is raised by the handlers of SIGINT and SIGTERM, which run
    between two turns, and it stays raised: [signal] is the index of the
    first chunk that is started after it was raised, [None] when it is
    not raised during the run. *)
Definition aborted_at (signal : option nat) (k : nat) : bool :=
  match signal with
  | Some first => first <=? k
  | None => false
  end.

(** [for (const chunk of chunks)]; [k] is the index of the first chunk
    of [chunks] and [base] the position of its first scenario. *)
Fixpoint run_chunks (signal : option nat) (world : nat -> ScenarioWorld)
    (k base : nat) (chunks : list (list TestPrompt)) (stats : RunStats)
  : (RunStats * option error) * list event :=
  match chunks with
  | [] => ((stats, None), [])
  | chunk :: rest =>
      let (chunkResults, evs) :=
        run_chunk (aborted_at signal k) world base chunk in
      match aggregate chunkResults stats with
      | (stats', Some e) => ((stats', Some e), evs)
      | (stats', None) =>
          let (r, evs') :=
            run_chunks signal world (S k) (base + length chunk) rest
              stats' in
          (r, evs ++ evs')
      end
  end.

(** How [main] ends once the arguments are parsed: it returns early, it
    reaches the summary with the statistics, or its [catch] block gets
    an error.  The statistics are a local of the [try] block: nothing of
    them reaches the [catch] block. *)
Inductive main_result : Type :=
| NoScenarios
| Completed (stats : RunStats)
| Aborted (e : error).

(** [tagToRun ? prompts.filter(p => p.tag === tagToRun) : prompts]. *)
Definition select (prompts : list TestPrompt) (tagToRun : option string)
  : list TestPrompt :=
  match tagToRun with
  | Some t =>
      if str_falsy t then prompts
      else filter (fun p => (tag p =? t)%string) prompts
  | None => prompts
  end.

(** The part of [main] that follows [parseArgs]; [None] when the
    chunking loop does not terminate. *)
Definition main (prompts : list TestPrompt) (tagToRun : option string)
    (signal : option nat) (world : nat -> ScenarioWorld)
  : option (main_result * list event) :=
  let scenariosToRun := select prompts tagToRun in
  if length scenariosToRun =? 0 then Some (NoScenarios, [])
  else
    let stats := mk_stats (length scenariosToRun) 0 [] in
    match make_chunks (concurrency config) scenariosToRun with
    | None => None
    | Some chunks =>
        match run_chunks signal world 0 0 chunks stats with
        | ((_, Some e), evs) => Some (Aborted e, evs)
        | ((stats', None), evs) => Some (Completed stats', evs)
        end
    end.

(** The argument of [process.exit] when [main] calls it: after the
    summary when some scenario failed, and in the [catch] block. *)
Definition process_exit (r : main_result) : option nat :=
  match r with
  | NoScenarios => None
  | Completed stats =>
      if 0 <? length (failed stats) then Some 1 else None
  | Aborted _ => Some 1
  end.

(** The state of the signal that the scenario at position [j] of the
    selection finds: that of its chunk. *)
Definition signal_seen (signal : option nat) (j : nat) : bool :=
  aborted_at signal (j / concurrency config).

(** The result of each scenario of [l], the first of which stands at
    position [base] of the selection. *)
Fixpoint results_from (signal : option nat) (world : nat -> ScenarioWorld)
    (base : nat) (l : list TestPrompt) : list (TestPrompt * bool) :=
  match l with
  | [] => []
  | p :: rest =>
      (p, passes (runScenario (signal_seen signal base) p (world base)))
      :: results_from signal world (S base) rest
  end.

End RunScenario.

(** What [main] logs after the loop over the chunks. *)
Inductive closing_entry : Type :=
| Summary (total passed failed : nat)
| FailedScenarios (tags : string)
| CompletedSuccessfully
| OrchestrationErrorLine (message : string)
| DetailsLine (details : string)
| UnexpectedErrorLine (message : string).

(** The summary of a run that reached it, and the lines of the [catch]
    block for an [OrchestrationError]. *)
Definition closing_log (r : main_result) : list closing_entry :=
  match r with
  | NoScenarios => []
  | Completed stats =>
      Summary (total stats) (passed stats) (length (failed stats)) ::
      (if 0 <? length (failed stats)
       then [FailedScenarios (join ", " (failed stats))]
       else [CompletedSuccessfully])
  | Aborted e =>
      if (err_name e =? "OrchestrationError")%string then
        OrchestrationErrorLine (err_message e) ::
        match err_details e with
        | Some d => if str_falsy d then [] else [DetailsLine d]
        | None => []
        end
      else [UnexpectedErrorLine (err_message e)]
  end.

Definition is_summary (e : closing_entry) : bool :=
  match e with
  | Summary _ _ _ => true
  | _ => false
  end.

(** The error that ends the run when [continueOnFailure] is off. *)
Definition abort_error (scenario : TestPrompt) : error :=
  OrchestrationError "Test run aborted due to failure"
    (Some ("Failed scenario: " ++ tag scenario)%string).

(** Counting over the results of the scenarios that were run. *)
Definition count_passed (results : list (TestPrompt * bool)) : nat :=
  length (filter (fun r => snd r) results).

Definition failed_tags (results : list (TestPrompt * bool)) : list string :=
  map (fun r => tag (fst r)) (filter (fun r => negb (snd r)) results).

Definition started_tags (evs : list event) : list string :=
  flat_map (fun e => match e with
                     | ScenarioStarted t => [t]
                     | _ => []
                     end) evs.

(** The tags for which [runWithRetries] was called. *)
Definition runner_tags (evs : list event) : list string :=
  flat_map (fun e => match e with
                     | RunnerCalled _ t _ => [t]
                     | _ => []
                     end) evs.

End Orchestrator.

(** ** safeActions.ts *)

Module SafeActions.

Import Js.

Record SafeActionOptions : Type := mk_options {
  retries : nat;
  timeout : nat;
  delay : nat;
  force : bool;
  scroll : bool;
  verbose : bool;
  (** [None] for the falsy default; a callback may itself throw. *)
  onError : option (error -> nat -> completion unit)
}.

Definition DEFAULT_OPTIONS : SafeActionOptions :=
  mk_options 3 5000 500 false true false None.

(** [new SafeActionError(message, selector, attempt, cause)]. *)
Record SafeActionError : Type := mk_safe_error {
  message : string;
  selector : option string;
  attempt : option nat;
  cause : option error
}.

Record ActionResult (T : Type) : Type := mk_result {
  success : bool;
  value : option T;
  error_of : option SafeActionError;
  attempts : nat
}.
Arguments mk_result {T}.
Arguments success {T}.
Arguments value {T}.
Arguments error_of {T}.
Arguments attempts {T}.

Inductive event : Type :=
| LogAttempt (actionName : string) (attempts retries : nat)
| CallAction (attempts : nat)
| LogSucceeded (actionName : string) (attempts : nat)
| LogFailed (actionName : string) (attempts : nat) (errorMessage : string)
    (isLastAttempt : bool)
| CallOnError (e : error) (attempts : nat)
| LogPermanent (actionName : string) (attempts : nat)
| Sleep (ms : nat).

Section WithRetry.

Context {T : Type}.

(** What the [attempts]-th call of [action] does. *)
Variable action : nat -> completion T.
Variable options : SafeActionOptions.
Variable actionName : string.
Variable target : option string.

(** [error instanceof Error ? error : new Error(String(error))]. *)
Definition as_error (t : thrown) : error :=
  match t with
  | ThrownError e => e
  | ThrownOther text => Error text
  end.

(** [error instanceof Error ? error : undefined]. *)
Definition cause_of (t : thrown) : option error :=
  match t with
  | ThrownError e => Some e
  | ThrownOther _ => None
  end.

(** The body of [for (let i = 0; i < options.retries; i++)]; [n] counts
    the iterations that are left, [n = retries - i], and [attempts] is
    the counter before its increment.  Leaving the loop reaches the
    [throw] that follows it. *)
Fixpoint retry_loop (n i attempts : nat)
  : completion (ActionResult T) * list event :=
  match n with
  | 0 => (Throws (ThrownError (Error "Unexpected retry loop exit")), [])
  | S n' =>
      let attempts := attempts + 1 in
      let started :=
        (if verbose options
         then [LogAttempt actionName attempts (retries options)]
         else []) ++ [CallAction attempts] in
      match action attempts with
      | Normal v =>
          (Normal (mk_result true (Some v) None attempts),
           started ++ [LogSucceeded actionName attempts])
      | Throws err =>
          let isLastAttempt := i =? retries options - 1 in
          let errorMessage := message_of err in
          let warned :=
            started ++
            [LogFailed actionName attempts errorMessage isLastAttempt] in
          let after_callback (evs : list event) :=
            if isLastAttempt then
              let finalError :=
                mk_safe_error
                  (actionName ++ " failed after " ++
                   num_to_string attempts ++ " attempts: " ++
                   errorMessage)%string
                  target (Some attempts) (cause_of err) in
              (Normal (mk_result false None (Some finalError) attempts),
               evs ++ [LogPermanent actionName attempts])
            else
              let (r, rest) := retry_loop n' (S i) attempts in
              (r, evs ++ Sleep (delay options * 2 ^ i) :: rest) in
          match onError options with
          | Some callback =>
              let called :=
                warned ++ [CallOnError (as_error err) attempts] in
              match callback (as_error err) attempts with
              | Throws t => (Throws t, called)
              | Normal _ => after_callback called
              end
          | None => after_callback warned
          end
      end
  end.

Definition withRetry : completion (ActionResult T) * list event :=
  retry_loop (retries options) 0 0.

End WithRetry.

(** The calls of the action and the sleeps, which make the time line of
    a run. *)
Definition on_time_line (e : event) : bool :=
  match e with
  | CallAction _ | Sleep _ => true
  | _ => false
  end.

Definition time_line (evs : list event) : list event :=
  filter on_time_line evs.

(** The time line of a run of [R] attempts that all fail: after attempt
    [k < R] comes a sleep of [delay * 2 ^ (k - 1)] milliseconds. *)
Definition backoff_time_line (delay R : nat) : list event :=
  flat_map (fun k => [CallAction k; Sleep (delay * 2 ^ (k - 1))])
    (seq 1 (R - 1)) ++ [CallAction R].

(** The callback, when there is one, returns normally. *)
Definition callback_returns (options : SafeActionOptions) : Prop :=
  forall callback e k,
    onError options = Some callback -> callback e k = Normal tt.

End SafeActions.

(** ** config.ts *)

Module ConfigTs.

Import Js Orchestrator.

Fixpoint str_map (f : ascii -> ascii) (s : string) : string :=
  match s with
  | "" => ""
  | String c r => String (f c) (str_map f r)
  end.

(** [String.prototype.toLowerCase] on code units below 256: the letters
    A-Z and the capital letters of Latin-1 (C0 to DE, the multiplication
    sign D7 apart) are moved up by 32; nothing else changes. *)
Definition lower_char (c : ascii) : ascii :=
  let n := nat_of_ascii c in
  if ((65 <=? n) && (n <=? 90)) ||
     ((192 <=? n) && (n <=? 222) && negb (n =? 215))
  then ascii_of_nat (n + 32) else c.

Definition toLowerCase (s : string) : string := str_map lower_char s.

(** [String.prototype.toUpperCase] on ASCII text: the letters a-z are
    moved down by 32.  The code applies it to a validated environment
    name only ([qa], [uat] or [prod]). *)
Definition upper_char (c : ascii) : ascii :=
  let n := nat_of_ascii c in
  if (97 <=? n) && (n <=? 122) then ascii_of_nat (n - 32) else c.

Definition toUpperCase (s : string) : string := str_map upper_char s.

(** [process.env]: the value of a variable, when it is set. *)
Definition process_env : Type := string -> option string.

(** [process.env[name] = value]. *)
Definition set_env (name value : string) (penv : process_env)
  : process_env :=
  fun k => if (k =? name)%string then Some value else penv k.

(** [value || fallback] for a string that may be undefined. *)
Definition or_default (value : option string) (fallback : string) : string :=
  match value with
  | Some v => if str_falsy v then fallback else v
  | None => fallback
  end.

Definition validEnvironments : list string := ["qa"; "uat"; "prod"].

(** [list.includes(s)]. *)
Definition includes_string (l : list string) (s : string) : bool :=
  existsb (String.eqb s) l.

Definition getEnvVariable (penv : process_env) (name environment : string)
  : completion string :=
  let key := (name ++ "_" ++ toUpperCase environment)%string in
  match penv key with
  | Some value =>
      if str_falsy value then
        Throws (ThrownError (Error
          ("Missing required environment variable: " ++ key)%string))
      else Normal value
  | None =>
      Throws (ThrownError (Error
        ("Missing required environment variable: " ++ key)%string))
  end.

(** The body of the module, run once when it is first imported: it
    throws or gives the exported [CONFIG]. *)
Definition load (penv : process_env) : completion Config :=
  let env := toLowerCase (or_default (penv "ENV") "qa") in
  if negb (includes_string validEnvironments env) then
    Throws (ThrownError (Error
      ("Invalid environment: " ++ env ++ ". Must be one of: " ++
       join ", " validEnvironments)%string))
  else
    match penv "OPENAI_API_KEY" with
    | Some key =>
        if str_falsy key then
          Throws (ThrownError (Error
            "OPENAI_API_KEY environment variable is required"))
        else
          bind (getEnvVariable penv "BASE_URL" env) (fun base_url =>
          bind (getEnvVariable penv "USERNAME" env) (fun username =>
          bind (getEnvVariable penv "PASSWORD" env) (fun password =>
          Normal (mk_CONFIG env base_url username password key))))
    | None =>
        Throws (ThrownError (Error
          "OPENAI_API_KEY environment variable is required"))
    end.

End ConfigTs.

(** ** orchestrator.ts: the command line *)

Module Cli.

Import Js Orchestrator ConfigTs.

(** [parseArgs]: [argv2] and [argv3] are [process.argv[2]] and
    [process.argv[3]], absent when the command line is shorter.  The
    second component is [process.env] after the call. *)
Definition parseArgs (penv : process_env) (argv2 argv3 : option string)
  : completion (option string * string) * process_env :=
  let tagToRun := argv2 in
  let envArg := option_map toLowerCase argv3 in
  match envArg with
  | Some e =>
      if negb (str_falsy e) && negb (includes_string ["qa"; "uat"; "prod"] e)
      then
        (Throws (ThrownError (OrchestrationError
           ("Invalid environment: " ++ e)%string
           (Some "Must be one of: qa, uat, prod"))), penv)
      else
        let penv' := if str_falsy e then penv else set_env "ENV" e penv in
        (Normal (tagToRun, or_default (penv' "ENV") "qa"), penv')
  | None => (Normal (tagToRun, or_default (penv "ENV") "qa"), penv)
  end.

(** How the process ends. *)
Inductive process_result : Type :=
| ConfigFailed (t : thrown)
| ArgumentsRejected (t : thrown)
| Ran (r : option (main_result * list event)).

(** The whole of orchestrator.ts: the import of config.ts builds [CONFIG]
    before anything else runs; [main] then parses the arguments inside its
    [try] block, so that a rejected argument reaches its [catch] (and
    [process.exit(1)]) with no scenario selected.  The run configuration
    that the last lines of the file read from the environment is taken as
    given. *)
Definition orchestrator_process
    (resolve_test_path : string -> string -> string)
    (config : OrchestratorConfig) (prompts : list TestPrompt)
    (penv : process_env) (argv2 argv3 : option string)
    (signal : option nat) (world : nat -> ScenarioWorld)
  : process_result * process_env :=
  match load penv with
  | Throws t => (ConfigFailed t, penv)
  | Normal C =>
      match parseArgs penv argv2 argv3 with
      | (Throws t, penv') => (ArgumentsRejected t, penv')
      | (Normal (tagToRun, env), penv') =>
          (Ran (main resolve_test_path C config prompts tagToRun signal
                  world),
           penv')
      end
  end.

End Cli.

(** ** safeActions.ts: the exported actions *)

Module SafeWrappers.

Import Js SafeActions.

(** The [options] argument of the exported functions, where any property
    may be absent ([None]).  A property that is present but set to
    [undefined] is not modelled. *)
Record PartialOptions : Type := mk_partial {
  opt_retries : option nat;
  opt_timeout : option nat;
  opt_delay : option nat;
  opt_force : option bool;
  opt_scroll : option bool;
  opt_verbose : option bool;
  opt_onError : option (error -> nat -> completion unit)
}.

Definition no_options : PartialOptions :=
  mk_partial None None None None None None None.

Definition pick {A : Type} (given : option A) (default : A) : A :=
  match given with
  | Some a => a
  | None => default
  end.

(** [{ ...DEFAULT_OPTIONS, ...options }]. *)
Definition merge (o : PartialOptions) : SafeActionOptions :=
  mk_options
    (pick (opt_retries o) (retries DEFAULT_OPTIONS))
    (pick (opt_timeout o) (timeout DEFAULT_OPTIONS))
    (pick (opt_delay o) (delay DEFAULT_OPTIONS))
    (pick (opt_force o) (force DEFAULT_OPTIONS))
    (pick (opt_scroll o) (scroll DEFAULT_OPTIONS))
    (pick (opt_verbose o) (verbose DEFAULT_OPTIONS))
    (match opt_onError o with
     | Some callback => Some callback
     | None => onError DEFAULT_OPTIONS
     end).

(** The calls made to Playwright. *)
Inductive page_call : Type :=
| ExpectVisible (selector : string) (timeout : nat)
| ExpectEnabled (selector : string) (timeout : nat)
| ScrollIntoView (selector : string)
| Click (selector : string) (timeout : nat) (force : bool)
| Fill (selector text : string) (timeout : nat)
| InputValue (selector : string)
| Assertion (locator : string)
| WaitForResponse (urlPattern : string) (timeout : nat).

(** What the page answers to each call during one attempt. *)
Record PageWorld : Type := mk_page {
  visible : completion unit;
  enabled : completion unit;
  scrolled : completion unit;
  clicked : completion unit;
  filled : completion unit;
  input_value : completion string
}.

(** A sequence of awaited calls: it stops at the first that throws and
    lists the calls made. *)
Definition steps (A : Type) : Type := completion A * list page_call.

Definition done {A : Type} (a : A) : steps A := (Normal a, []).

Definition fail {A : Type} (t : thrown) : steps A := (Throws t, []).

Definition call {A : Type} (c : page_call) (answer : completion A)
  : steps A :=
  (answer, [c]).

Definition and_then {A B : Type} (m : steps A) (k : A -> steps B)
  : steps B :=
  match m with
  | (Normal a, calls) => let (r, calls') := k a in (r, calls ++ calls')
  | (Throws t, calls) => (Throws t, calls)
  end.

Notation "x <- m ;; k" := (and_then m (fun x => k))
  (at level 61, m at next level, right associativity).
Notation "m ;;; k" := (and_then m (fun _ => k))
  (at level 61, right associativity).

(** The double quote, as a text. *)
Definition dquote : string := String (ascii_of_nat 34) "".

(** [new SafeActionError(message, selector)] as a thrown value; the
    [selector] property of the error object is not kept, [withRetry] reads
    its message only. *)
Definition verification_error (text actualText : string) : thrown :=
  ThrownError (mk_error "SafeActionError"
    ("Text verification failed. Expected: " ++ dquote ++ text ++ dquote ++
     ", Got: " ++ dquote ++ actualText ++ dquote)%string None).

Section Actions.

Variable opts : SafeActionOptions.
Variable selector : string.

(** The checks made before a click or a fill, and the scroll. *)
Definition approach (w : PageWorld) : steps unit :=
  (if negb (force opts) then
     call (ExpectVisible selector (timeout opts)) (visible w) ;;;
     call (ExpectEnabled selector (timeout opts)) (enabled w)
   else done tt) ;;;
  (if scroll opts then call (ScrollIntoView selector) (scrolled w)
   else done tt).

(** The action that [clickSafe] gives to [withRetry]. *)
Definition click_action (w : PageWorld) : steps unit :=
  approach w ;;;
  call (Click selector (timeout opts) (force opts)) (clicked w).

(** The action that [fillSafe] gives to [withRetry]. *)
Definition fill_action (text : string) (w : PageWorld) : steps unit :=
  approach w ;;;
  call (Fill selector text (timeout opts)) (filled w) ;;;
  actualText <- call (InputValue selector) (input_value w) ;;
  if negb (actualText =? text)%string
  then fail (verification_error text actualText)
  else done tt.

End Actions.

(** [clickSafe(page, selector, options)]; [world k] is the page during
    attempt [k]. *)
Definition clickSafe (world : nat -> PageWorld) (selector : string)
    (options : PartialOptions)
  : completion (ActionResult unit) * list event :=
  let opts := merge options in
  withRetry (fun k => fst (click_action opts selector (world k)))
    opts "Click" (Some selector).

(** [fillSafe(page, selector, text, options)]. *)
Definition fillSafe (world : nat -> PageWorld) (selector text : string)
    (options : PartialOptions)
  : completion (ActionResult unit) * list event :=
  let opts := merge options in
  withRetry (fun k => fst (fill_action opts selector text (world k)))
    opts "Fill" (Some selector).

(** [expectSafe(locator, assertion, options)]: [locator] is
    [locator.toString()], [scrolls k] and [assertion k] are the answers of
    the scroll and of the assertion at attempt [k]. *)
Definition expectSafe {T : Type} (scrolls : nat -> completion unit)
    (assertion : nat -> completion T) (locator : string)
    (options : PartialOptions)
  : completion (ActionResult T) * list event :=
  let opts := merge options in
  withRetry
    (fun k =>
       fst ((if scroll opts then call (ScrollIntoView locator) (scrolls k)
             else done tt) ;;;
            call (Assertion locator) (assertion k)))
    opts "Expect" (Some locator).

(** [waitForRequestSafe(page, urlPattern, options)]. *)
Definition waitForRequestSafe {R : Type} (responses : nat -> completion R)
    (urlPattern : string) (options : PartialOptions)
  : completion (ActionResult R) * list event :=
  let opts := merge options in
  withRetry
    (fun k =>
       fst (call (WaitForResponse urlPattern (timeout opts)) (responses k)))
    opts "WaitForRequest" (Some urlPattern).

(** [executeSafe(action, options)]. *)
Definition executeSafe {T : Type} (action : nat -> completion T)
    (options : PartialOptions)
  : completion (ActionResult T) * list event :=
  withRetry action (merge options) "CustomAction" None.

Definition is_check (c : page_call) : bool :=
  match c with
  | ExpectVisible _ _ | ExpectEnabled _ _ => true
  | _ => false
  end.

End SafeWrappers.

(** ** aiClient.ts *)

Module AiClient.

Import Js.

(** The line feed, as a text. *)
Definition nl : string := String (ascii_of_nat 10) "".

(** A template literal that spans several lines. *)
Definition lines (l : list string) : string := join nl l.

(** [Required<AIClientConfig>]; the temperature, a floating-point number
    that is only handed to the API, is left out. *)
Record AIClientConfig : Type := mk_ai_config {
  model : string;
  maxRetries : nat;
  retryDelay : nat;
  systemPrompt : string;
  timeout : nat
}.

(** [getDefaultSystemPrompt()]. *)
Definition getDefaultSystemPrompt : string :=
  lines [
    "You are an expert AI assistant specialized in software testing and automation.";
    "Generate high-quality, maintainable test code following these best practices:";
    "";
    "Test Design:";
    "- Follow Arrange-Act-Assert pattern";
    "- Keep tests focused and single-purpose";
    "- Use meaningful, descriptive test names";
    "- Include proper setup/teardown";
    "- Ensure test isolation";
    "";
    "Code Quality:";
    "- Implement proper error handling";
    "- Add descriptive assertion messages";
    "- Follow TypeScript best practices";
    "- Keep code DRY and maintainable";
    "- Add JSDoc documentation";
    "";
    "Test Stability:";
    "- Handle timeouts and retries";
    "- Add proper waits and assertions";
    "- Avoid flaky selectors";
    "- Consider edge cases";
    "- Implement proper logging";
    "";
    "Performance:";
    "- Optimize test execution";
    "- Avoid unnecessary waits";
    "- Reuse browser contexts when possible";
    "- Implement parallel execution";
    "- Consider resource cleanup" ].

(** The configuration that the constructor builds from an empty
    [config]. *)
Definition default_config : AIClientConfig :=
  mk_ai_config "gpt-3.5-turbo" 3 1000 getDefaultSystemPrompt (30 * 1000).

(** What one request does: the API resolves with a completion, of which
    the code reads [choices[0]?.message?.content] ([None] when it is
    undefined or null) and the total of tokens; or it rejects; or the timer
    of [Promise.race] settles first. *)
Inductive api_outcome : Type :=
| ApiResolves (content : option string) (total_tokens : option nat)
| ApiRejects (t : thrown)
| ApiTimesOut.

Inductive event : Type :=
| Create (model systemPrompt prompt : string)
| TimerSet (ms : nat)
| Warn (attempt : nat) (error : string) (retryCount : nat)
| Sleep (ms : nat).

(** What [ask] resolves with (time stamps left out). *)
Record AIResponse : Type := mk_response {
  content : string;
  totalTokens : option nat;
  used_model : string;
  retries : nat
}.

(** How [ask] ends: with a response, or with
    [new AIError(message, { duration, retries })]. *)
Inductive ask_result : Type :=
| Responds (r : AIResponse)
| Fails (message : string) (retries : nat).

Section Ask.

Variable config : AIClientConfig.

(** The answer of the API at attempt [k] (counted from 1). *)
Variable api : nat -> api_outcome.

Variable prompt : string.

(** The body of [for (let attempt = 1; attempt <= maxRetries; attempt++)];
    [n] counts the iterations that are left.  After the loop the code
    throws [AIError(`Failed after N attempts`, lastError?.message)], which
    the outer [catch] turns into an [AIError] with the same message and
    the details [{ duration, retries }]. *)
Fixpoint ask_loop (n attempt retryCount : nat) : ask_result * list event :=
  match n with
  | 0 =>
      (Fails ("Failed after " ++ num_to_string (maxRetries config) ++
              " attempts")%string retryCount, [])
  | S n' =>
      let started :=
        [Create (model config) (systemPrompt config) prompt;
         TimerSet (timeout config)] in
      let on_failure (message : string) :=
        let retryCount := retryCount + 1 in
        let warned := started ++ [Warn attempt message retryCount] in
        let (r, rest) := ask_loop n' (attempt + 1) retryCount in
        if attempt <? maxRetries config then
          (r, warned ++
              Sleep (retryDelay config * 2 ^ (attempt - 1)) :: rest)
        else (r, warned ++ rest) in
      match api attempt with
      | ApiResolves (Some text) tokens =>
          if str_falsy (trim text)
          then on_failure "Empty response from OpenAI"
          else
            (Responds (mk_response text tokens (model config) retryCount),
             started)
      | ApiResolves None _ => on_failure "Empty response from OpenAI"
      | ApiRejects t => on_failure (message_of t)
      | ApiTimesOut => on_failure "Request timeout"
      end
  end.

(** [AIClient.ask(prompt)] with the effective configuration [config]. *)
Definition ask : ask_result * list event :=
  if str_falsy (trim prompt) then (Fails "Prompt cannot be empty" 0, [])
  else ask_loop (maxRetries config) 1 0.

End Ask.

(** How [askAI] ends: with the content, or with an [AIError]; the details
    hold the number of retries when the error comes from [ask], nothing
    when the constructor refused the key. *)
Inductive askAI_result : Type :=
| Content (text : string)
| AIError (message : string) (retries : option nat).

(** [askAI(prompt, temperature)]: a new client for the key of the
    configuration, then [ask]. *)
Definition askAI (apiKey : string) (api : nat -> api_outcome)
    (prompt : string) : askAI_result * list event :=
  if str_falsy (trim apiKey) then
    (AIError "OpenAI API key is required" None, [])
  else
    match ask default_config api prompt with
    | (Responds r, evs) => (Content (content r), evs)
    | (Fails message k, evs) => (AIError message (Some k), evs)
    end.

Definition is_create (e : event) : bool :=
  match e with
  | Create _ _ _ => true
  | _ => false
  end.

(** The requests and the sleeps, which make the time line of a call. *)
Definition on_time_line (e : event) : bool :=
  match e with
  | Create _ _ _ | Sleep _ => true
  | _ => false
  end.

(** The delays of the sleeps, in program order. *)
Definition sleeps (evs : list event) : list nat :=
  flat_map (fun e => match e with Sleep ms => [ms] | _ => [] end) evs.

(** The delays that [ask] sleeps after the failed attempts [1 .. k]. *)
Definition backoff (config : AIClientConfig) (k : nat) : list nat :=
  map (fun attempt => retryDelay config * 2 ^ (attempt - 1)) (seq 1 k).

(** Whether the request of an attempt fails in the eyes of [ask]. *)
Definition attempt_fails (o : api_outcome) : bool :=
  match o with
  | ApiResolves (Some text) _ => str_falsy (trim text)
  | _ => true
  end.

End AiClient.

(** ** testGenerator.ts *)

Module TestGenerator.

Import Js.

(** [new TestGenerationError(message, details)]. *)
Definition TestGenerationError (message : string) (details : option string)
  : error :=
  mk_error "TestGenerationError" message details.

(** [error instanceof TestGenerationError], read off the name that the
    constructor sets. *)
Definition is_TestGenerationError (t : thrown) : bool :=
  match t with
  | ThrownError e => String.eqb (err_name e) "TestGenerationError"
  | ThrownOther _ => false
  end.

(** [Required<TestGeneratorOptions>]; the temperature, a floating-point
    number that is only handed to the API, is left out. *)
Record TestGeneratorOptions : Type := mk_gen_options {
  template : string;
  fileExtension : string;
  outputDir : string;
  validateSyntax : bool;
  formatCode : bool
}.

Definition DEFAULT_OPTIONS : TestGeneratorOptions :=
  mk_gen_options "" ".spec.ts" "tests/generated" true true.

(** The class [[a-zA-Z0-9_-]]. *)
Definition is_name_char (c : ascii) : bool :=
  let n := nat_of_ascii c in
  ((97 <=? n) && (n <=? 122)) || ((65 <=? n) && (n <=? 90)) ||
  ((48 <=? n) && (n <=? 57)) || (n =? 95) || (n =? 45).

Fixpoint all_name_chars (s : string) : bool :=
  match s with
  | String c r => is_name_char c && all_name_chars r
  | "" => true
  end.

(** [/^[a-zA-Z0-9_-]+$/.test(s)]. *)
Definition name_matches (s : string) : bool :=
  negb (str_falsy s) && all_name_chars s.

(** [validateInputs(prompt, testName)]. *)
Definition validateInputs (prompt testName : string) : completion unit :=
  if str_falsy (trim prompt) then
    Throws (ThrownError (TestGenerationError "Prompt cannot be empty" None))
  else if str_falsy (trim testName) then
    Throws (ThrownError
      (TestGenerationError "Test name cannot be empty" None))
  else if negb (name_matches testName) then
    Throws (ThrownError
      (TestGenerationError "Test name contains invalid characters"
         (Some "Use only letters, numbers, underscores, and hyphens")))
  else Normal tt.

Definition is_nl (c : ascii) : bool := nat_of_ascii c =? 10.

(** [s.split('\n')]. *)
Fixpoint split_lines (s : string) : list string :=
  match s with
  | "" => [""]
  | String c r =>
      if is_nl c then "" :: split_lines r
      else
        match split_lines r with
        | l :: ls => String c l :: ls
        | [] => [String c ""]
        end
  end.

(** [s.replace(/\n{3,}/g, '\n\n')]: of every maximal run of line feeds
    the first two are kept.  [run] counts the line feeds kept since the
    last other character. *)
Fixpoint collapse_from (run : nat) (s : string) : string :=
  match s with
  | "" => ""
  | String c r =>
      if is_nl c then
        if run <? 2 then String c (collapse_from (S run) r)
        else collapse_from run r
      else String c (collapse_from 0 r)
  end.

Definition collapse_blank_lines (s : string) : string := collapse_from 0 s.

(** The header that [formatTestCode] puts in front. *)
Definition header : string :=
  (trim (AiClient.lines [
     "";
     "    // @ts-check";
     "    import { test, expect } from '@playwright/test';";
     "    import { chromium, Browser, BrowserContext, Page } from '@playwright/test';";
     "  " ]) ++ AiClient.nl ++ AiClient.nl)%string.

(** [formatTestCode(content)]. *)
Definition formatTestCode (content : string) : string :=
  let formatted :=
    trim (collapse_blank_lines
            (join AiClient.nl (map trim_end (split_lines content)))) in
  (header ++ formatted ++ AiClient.nl)%string.

(** [GetSubstitution] for a pattern that is a string: in the replacement
    [$$] stands for a dollar, [$&] for the match, [$`] for what precedes
    it and [$'] for what follows it; there are no captures. *)
Fixpoint get_substitution (matched before after replacement : string)
  : string :=
  match replacement with
  | "" => ""
  | String d t =>
      if Ascii.eqb d "$" then
        match t with
        | String c r =>
            if Ascii.eqb c "$" then
              String "$" (get_substitution matched before after r)
            else if Ascii.eqb c "&" then
              (matched ++ get_substitution matched before after r)%string
            else if Ascii.eqb c "`" then
              (before ++ get_substitution matched before after r)%string
            else if Ascii.eqb c "'" then
              (after ++ get_substitution matched before after r)%string
            else String d (get_substitution matched before after t)
        | "" => String d ""
        end
      else String d (get_substitution matched before after t)
  end.

(** [s.replace(pattern, replacement)] for a pattern that is a string:
    the first occurrence only. *)
Definition replace (pattern replacement s : string) : string :=
  match index 0 pattern s with
  | None => s
  | Some i =>
      let before := substring 0 i s in
      let after :=
        substring (i + String.length pattern)
          (String.length s - (i + String.length pattern)) s in
      (before ++ get_substitution pattern before after replacement ++
       after)%string
  end.

(** The prompt that [generateTestContent] sends. *)
Definition enhancedPrompt (prompt : string) : string :=
  AiClient.lines [
    "";
    "      Generate a Playwright test for the following scenario:";
    ("      " ++ prompt)%string;
    "      ";
    "      Requirements:";
    "      - Use TypeScript";
    "      - Include proper imports";
    "      - Add meaningful assertions";
    "      - Handle timeouts and errors";
    "      - Add JSDoc documentation";
    "      - Use page object patterns";
    "      - Include test metadata (title, tags)";
    "    " ].

(** [Buffer.from(s).length]: the length of the UTF-8 encoding. *)
Fixpoint utf8_length (s : string) : nat :=
  match s with
  | "" => 0
  | String c r => (if nat_of_ascii c <? 128 then 1 else 2) + utf8_length r
  end.

(** What the outside world answers during one call of [generateTest]: the
    key of the configuration and the answers of the API, and whether
    [mkdir] and the two [writeFile] reject. *)
Record World : Type := mk_world {
  apiKey : string;
  api : nat -> AiClient.api_outcome;
  mkdir_rejects : option thrown;
  write_test_rejects : option thrown;
  write_meta_rejects : option thrown
}.

Inductive event : Type :=
| Mkdir (dir : string)
| Ai (e : AiClient.event)
| WriteFile (path content : string)
| WriteMetadata (path : string) (lines size : nat).

Record GeneratedTest : Type := mk_generated {
  filePath : string;
  content : string;
  warnings : option (list string);
  meta_prompt : string;
  meta_options : TestGeneratorOptions
}.

(** A computation that ends normally or throws, with the events it
    caused. *)
Definition run (A : Type) : Type := completion A * list event.

Definition and_then {A B : Type} (m : run A) (k : A -> run B) : run B :=
  match m with
  | (Normal a, evs) => let (r, evs') := k a in (r, evs ++ evs')
  | (Throws t, evs) => (Throws t, evs)
  end.

(** [error instanceof Error ? error.message : String(error)] as the
    details of a new [TestGenerationError]. *)
Definition wrap (message : string) (t : thrown) : thrown :=
  ThrownError (TestGenerationError message (Some (message_of t))).

Section GenerateTest.

(** [process.cwd()] and [path.join]. *)
Variable cwd : string.
Variable path_join : string -> string -> string.

(** [validateTestSyntax]: ten regular expressions tested against the
    content, each giving one warning. *)
Variable validateTestSyntax : string -> list string.

Variable w : World.

(** [ensureOutputDirectory(outputDir)]. *)
Definition ensureOutputDirectory (outputDir : string) : run string :=
  let testDir := path_join cwd outputDir in
  match mkdir_rejects w with
  | None => (Normal testDir, [Mkdir testDir])
  | Some t =>
      (Throws (wrap "Failed to create output directory" t), [Mkdir testDir])
  end.

(** [generateTestContent(prompt, options)]. *)
Definition generateTestContent (prompt : string)
    (options : TestGeneratorOptions) : run string :=
  match AiClient.askAI (apiKey w) (api w) (enhancedPrompt prompt) with
  | (AiClient.Content baseContent, evs) =>
      (Normal (if str_falsy (template options) then baseContent
               else replace "${TEST_CONTENT}" baseContent (template options)),
       map Ai evs)
  | (AiClient.AIError message _, evs) =>
      (Throws (ThrownError
         (TestGenerationError "Failed to generate test content"
            (Some message))),
       map Ai evs)
  end.

(** [writeTestFile(testDir, testName, content, options)]. *)
Definition writeTestFile (testDir testName content : string)
    (options : TestGeneratorOptions) : run string :=
  let testFilePath :=
    path_join testDir (testName ++ fileExtension options)%string in
  let first := WriteFile testFilePath content in
  match write_test_rejects w with
  | Some t => (Throws (wrap "Failed to write test file" t), [first])
  | None =>
      let second :=
        WriteMetadata (testFilePath ++ ".meta.json")%string
          (length (split_lines content)) (utf8_length content) in
      match write_meta_rejects w with
      | Some t =>
          (Throws (wrap "Failed to write test file" t), [first; second])
      | None => (Normal testFilePath, [first; second])
      end
  end.

(** The [try] block of [generateTest]. *)
Definition try_generate (prompt testName : string)
    (opts : TestGeneratorOptions) : run GeneratedTest :=
  and_then (validateInputs prompt testName, []) (fun _ =>
  and_then (ensureOutputDirectory (outputDir opts)) (fun testDir =>
  and_then (generateTestContent prompt opts) (fun content =>
    let warnings :=
      if validateSyntax opts then validateTestSyntax content else [] in
    let content :=
      if formatCode opts then formatTestCode content else content in
    and_then (writeTestFile testDir testName content opts)
      (fun testFilePath =>
         (Normal (mk_generated testFilePath content
                    (match warnings with
                     | [] => None
                     | _ => Some warnings
                     end)
                    prompt opts), []))))).

(** [generateTest(prompt, testName, options)], with [opts] the options
    merged into the defaults. *)
Definition generateTest (prompt testName : string)
    (opts : TestGeneratorOptions) : run GeneratedTest :=
  match try_generate prompt testName opts with
  | (Throws t, evs) =>
      (Throws (if is_TestGenerationError t then t
               else wrap "Failed to generate test" t), evs)
  | r => r
  end.

End GenerateTest.

(** The content that [generateTest] hands to [writeTestFile] for an
    answer [baseContent] of the AI. *)
Definition written_content (opts : TestGeneratorOptions)
    (baseContent : string) : string :=
  let content :=
    if str_falsy (template opts) then baseContent
    else replace "${TEST_CONTENT}" baseContent (template opts) in
  if formatCode opts then formatTestCode content else content.

(** No three line feeds in a row, when [run] line feeds come just
    before. *)
Fixpoint short_runs (run : nat) (s : string) : bool :=
  match s with
  | "" => true
  | String c r =>
      if is_nl c then (run <? 2) && short_runs (S run) r
      else short_runs 0 r
  end.

Fixpoint all_white (s : string) : bool :=
  match s with
  | "" => true
  | String c r => is_white_space c && all_white r
  end.

Definition is_ai (e : event) : bool :=
  match e with
  | Ai _ => true
  | _ => false
  end.

End TestGenerator.

(** ** The generator inside the retry runner *)

Module Pipeline.

Import Js.

Section Attempts.

Variable cwd : string.
Variable path_join : string -> string -> string.
Variable validateTestSyntax : string -> list string.

(** The world that attempt [i] finds. *)
Variable worlds : nat -> TestGenerator.World.

Variables (prompt tag : string).

(** [generateTest(prompt, tag)] at attempt [i] of [runWithRetries], with
    the default options. *)
Definition generated (i : nat) : TestGenerator.run TestGenerator.GeneratedTest :=
  TestGenerator.generateTest cwd path_join validateTestSyntax (worlds i)
    prompt tag TestGenerator.DEFAULT_OPTIONS.

(** The answer of the generator that [runWithRetries] gets at attempt
    [i]. *)
Definition generate (i : nat) : option thrown :=
  match fst (generated i) with
  | Throws t => Some t
  | Normal _ => None
  end.

End Attempts.

End Pipeline.

(** ** Sample inputs *)

Module Sample.

Import Js Orchestrator.

Definition CONFIG : Config :=
  mk_CONFIG "qa" "https://x" "tester" "secret" "sk-test".

Definition resolve_test_path (dir file : string) : string :=
  (dir ++ "/../tests/" ++ file)%string.

Definition config (concurrency : nat) (continueOnFailure : bool)
  : OrchestratorConfig :=
  mk_config concurrency 50 2 continueOnFailure false.

(** A world where the generator answers at once and the runner settles
    before the timer, at the moment [t]. *)
Definition generating (t : nat) : ScenarioWorld :=
  mk_world (fun _ => None) (fun _ => None) RunnerSettlesFirst t.

(** A world where the generator rejects at every attempt. *)
Definition failing (t : nat) : ScenarioWorld :=
  mk_world (fun _ => Some (ThrownOther "boom")) (fun _ => None)
    RunnerSettlesFirst t.

(** A world where the runner never settles before the timer. *)
Definition hanging : ScenarioWorld :=
  mk_world (fun _ => None) (fun _ => None) TimerSettlesFirst 50.

Definition s1 : TestPrompt := mk_prompt "s1" "home" "open the home page".
Definition s2 : TestPrompt := mk_prompt "s2" "login" "log in as a tester".
Definition s3 : TestPrompt := mk_prompt "s3" "logout" "log out".

(** The first scenario is the slowest. *)
Definition first_is_slow (j : nat) : ScenarioWorld :=
  if j =? 0 then failing 30 else generating 10.

Definition blank : TestPrompt := mk_prompt "blank" "no prompt" "   ".

Definition missing : TestPrompt :=
  mk_prompt "missing" "unknown key" "open ${CONFIG.MISSING} now".

(** An action that is never able to find its element. *)
Definition detached (k : nat) : completion unit :=
  Throws (ThrownOther "element is detached").

Definition click_options : SafeActions.SafeActionOptions :=
  SafeActions.mk_options 3 1000 100 false true false None.

(** A failure text of 400 characters. *)
Definition long_text : string := String.concat "" (repeat "x" 400).

End Sample.

(** ** More sample inputs *)

Module Fixtures.

Import Js.

(** An action that finds its element at the third attempt. *)
Definition found_third (k : nat) : completion nat :=
  if k =? 3 then Normal 7 else Throws (ThrownOther "element is detached").

(** The environment of a run against QA. *)
Definition environment : ConfigTs.process_env :=
  fun name =>
    Orchestrator.lookup name
      [("ENV", "QA"); ("OPENAI_API_KEY", "sk-test");
       ("BASE_URL_QA", "https://x"); ("USERNAME_QA", "tester");
       ("PASSWORD_QA", "secret")].

(** A page where every call succeeds and the input holds [text]. *)
Definition typed (text : string) : SafeWrappers.PageWorld :=
  SafeWrappers.mk_page (Normal tt) (Normal tt) (Normal tt) (Normal tt)
    (Normal tt) (Normal text).

(** An API that times out twice and then answers. *)
Definition answers_third (k : nat) : AiClient.api_outcome :=
  if k =? 3
  then AiClient.ApiResolves (Some "test('home', async () => {});") (Some 42)
  else AiClient.ApiTimesOut.

Definition unreachable (k : nat) : AiClient.api_outcome :=
  AiClient.ApiRejects (ThrownOther "503").

Definition join_path (a b : string) : string := (a ++ "/" ++ b)%string.

Definition no_checks (content : string) : list string := [].

Definition online : TestGenerator.World :=
  TestGenerator.mk_world "sk-test" answers_third None None None.

Definition offline : TestGenerator.World :=
  TestGenerator.mk_world "sk-test" unreachable None None None.

(** A disk that refuses the directory of the tests. *)
Definition read_only : TestGenerator.World :=
  TestGenerator.mk_world "sk-test" answers_third
    (Some (ThrownError (Error "EROFS: read-only file system")))
    None None.

(** A generated test with trailing spaces and too many blank lines. *)
Definition draft : string :=
  AiClient.lines
    ["import { helper } from './helper';  "; ""; ""; ""; "";
     "test('home', async () => {});"; ""].

End Fixtures.

(* ===================================================================== *)
(** * Part II. Theorems                                                  *)
(* ===================================================================== *)

(** ** Chunking *)

Section Chunking.

Import Js Orchestrator.

Context {A : Type}.

Lemma well_chunked_nth (c : nat) (chunks : list (list A)) :
  well_chunked c chunks ->
  forall k, S k < length chunks -> length (nth k chunks []) = c.
Proof.
  induction chunks as [|ch rest IH]; simpl; intros Hw k Hk; [lia|].
  destruct rest as [|ch' rest']; [simpl in Hk; lia|].
  destruct Hw as [Hlen Hw].
  destruct k as [|k]; [exact Hlen|].
  apply IH; [exact Hw | simpl in *; lia].
Qed.

Lemma well_chunked_bounds (c : nat) (chunks : list (list A)) :
  1 <= c -> well_chunked c chunks ->
  Forall (fun ch => 1 <= length ch <= c) chunks.
Proof.
  intros Hc.
  induction chunks as [|ch rest IH]; simpl; intros Hw; [constructor|].
  destruct rest as [|ch' rest'].
  - constructor; [exact Hw | constructor].
  - destruct Hw as [Hlen Hw]. constructor; [lia | apply IH; exact Hw].
Qed.

Lemma slice_length (i c : nat) (l : list A) :
  length (slice i (i + c) l) = Nat.min c (length l - i).
Proof.
  unfold slice. rewrite length_firstn, length_skipn. lia.
Qed.

Lemma slice_skipn (i c : nat) (l : list A) :
  slice i (i + c) l ++ skipn (i + c) l = skipn i l.
Proof.
  unfold slice. replace (i + c - i) with c by lia.
  rewrite (Nat.add_comm i c), <- skipn_skipn.
  apply firstn_skipn.
Qed.

(** With [c >= 1] the loop entered at index [i] ends within
    [length l - i] iterations, and its chunks tile the rest of the list. *)
Lemma chunk_loop_spec (c : nat) (l : list A) :
  1 <= c ->
  forall fuel i,
    length l - i <= fuel ->
    exists chunks,
      chunk_loop fuel i c l = Some chunks /\
      concat chunks = skipn i l /\
      well_chunked c chunks.
Proof.
  intros Hc fuel.
  induction fuel as [|f IH]; intros i Hfuel; simpl.
  - destruct (Nat.ltb_spec i (length l)); [lia|].
    exists []. rewrite skipn_all2 by lia. repeat split.
  - destruct (Nat.ltb_spec i (length l)) as [Hlt|Hge].
    + destruct (IH (i + c)) as (chunks & Heq & Hcat & Hw); [lia|].
      rewrite Heq. exists (slice i (i + c) l :: chunks).
      pose proof (slice_length i c l) as Hlen.
      repeat split.
      * simpl. rewrite Hcat. apply slice_skipn.
      * destruct chunks as [|ch rest]; [simpl; lia|].
        split; [|exact Hw].
        assert (Hne : skipn (i + c) l <> []).
        { rewrite <- Hcat. simpl.
          assert (1 <= length ch).
          { destruct rest; simpl in Hw; lia. }
          destruct ch; simpl in *; [lia | discriminate]. }
        destruct (Nat.lt_ge_cases (i + c) (length l)); [lia|].
        exfalso. apply Hne, skipn_all2. lia.
    + exists []. rewrite skipn_all2 by lia. repeat split.
Qed.

(** With [c = 0] the index never moves: no amount of fuel is enough. *)
Lemma chunk_loop_zero (l : list A) (fuel i : nat) :
  i < length l -> chunk_loop fuel i 0 l = None.
Proof.
  intros Hi. induction fuel as [|f IH]; simpl;
    destruct (Nat.ltb_spec i (length l)); try lia; [reflexivity|].
  rewrite Nat.add_0_r, IH. reflexivity.
Qed.

Lemma make_chunks_spec (c : nat) (l : list A) :
  1 <= c ->
  exists chunks,
    make_chunks c l = Some chunks /\
    concat chunks = l /\
    well_chunked c chunks.
Proof.
  intros Hc. unfold make_chunks.
  destruct (chunk_loop_spec c l Hc (length l) 0) as (chunks & H1 & H2 & H3);
    [lia|].
  exists chunks. auto.
Qed.

(** A chunking that ended was made with [c >= 1], unless the list is
    empty. *)
Lemma make_chunks_inv (c : nat) (l : list A) (chunks : list (list A)) :
  l <> [] ->
  make_chunks c l = Some chunks ->
  1 <= c /\ concat chunks = l /\ well_chunked c chunks.
Proof.
  intros Hne Hsome.
  destruct c as [|c].
  - unfold make_chunks in Hsome. rewrite chunk_loop_zero in Hsome;
      [discriminate|].
    destruct l; [congruence | simpl; lia].
  - destruct (make_chunks_spec (S c) l) as (chunks' & H1 & H2 & H3); [lia|].
    rewrite H1 in Hsome. injection Hsome as <-.
    repeat split; [lia | assumption | assumption].
Qed.

(** C1. For every list of selected scenarios and every concurrency
    [c >= 1], the loop of [main] ends and yields consecutive chunks whose
    concatenation is the list itself (the order is kept); every chunk
    except the last has exactly [c] elements, the last has between 1 and
    [c]; with [c = 2] and five scenarios the sizes are [2; 2; 1]. *)
Theorem C1_chunks_partition (c : nat) (l : list A) :
  1 <= c ->
  exists chunks,
    make_chunks c l = Some chunks /\
    concat chunks = l /\
    (forall k, S k < length chunks -> length (nth k chunks []) = c) /\
    Forall (fun ch => 1 <= length ch <= c) chunks /\
    (c = 2 -> length l = 5 -> map (@length A) chunks = [2; 2; 1]).
Proof.
  intros Hc.
  destruct (make_chunks_spec c l Hc) as (chunks & Heq & Hcat & Hw).
  exists chunks. repeat split; auto.
  - apply well_chunked_nth; exact Hw.
  - apply well_chunked_bounds; assumption.
  - intros -> Hlen.
    destruct l as [|x1 [|x2 [|x3 [|x4 [|x5 [|x6 l]]]]]]; try discriminate.
    vm_compute in Heq. injection Heq as <-. reflexivity.
Qed.

End Chunking.

(** C1 at work: five scenarios, two at a time. *)
Lemma C1_chunks_partition_witness :
  1 <= 2 /\
  exists chunks,
    Orchestrator.make_chunks 2 ["s1"; "s2"; "s3"; "s4"; "s5"] = Some chunks /\
    concat chunks = ["s1"; "s2"; "s3"; "s4"; "s5"] /\
    (forall k, S k < length chunks -> length (nth k chunks []) = 2) /\
    Forall (fun ch => 1 <= length ch <= 2) chunks /\
    (2 = 2 -> length ["s1"; "s2"; "s3"; "s4"; "s5"] = 5 ->
     map (@length string) chunks = [2; 2; 1]).
Proof.
  split; [lia | apply (C1_chunks_partition 2 ["s1"; "s2"; "s3"; "s4"; "s5"]); lia].
Defined.

(** ** The scenario retry runner *)

Section RetryRunner.

Import Js RerunHandler.

Variable resolve_test_path : string -> string -> string.
Variables (prompt : string) (attempts : nat) (options : RunOptions).
Variable generate : nat -> option thrown.
Variable exec : nat -> option thrown.

Let loop (tag : string) :=
  attempt_loop resolve_test_path prompt tag attempts options generate exec.

(** The error thrown when the last attempt has failed. *)
Let exhausted_error : thrown :=
  ThrownError (Error
    ("Test failed after " ++ num_to_string attempts ++ " attempts: " ++
     message_of (attempt_failure (generate attempts)))%string).

(** One iteration of the loop: whatever the generator answers, the
    attempt ends in the [catch] block, and the executor is not
    reached. *)
Lemma attempt_loop_step (tag : string) (n i : nat) :
  loop tag (S n) i =
  let errorMessage := message_of (attempt_failure (generate i)) in
  let logged :=
    [LogAttempt i attempts tag (str_take 100 prompt);
     Generate prompt tag;
     LogAttemptFailed i tag (str_take 300 errorMessage) attempts] in
  if i =? attempts then
    (Throws (ThrownError (Error
       ("Test failed after " ++ num_to_string attempts ++
        " attempts: " ++ errorMessage)%string)),
     logged ++ [LogExhausted tag attempts errorMessage])
  else
    (fst (loop tag n (S i)),
     logged ++ LogRegenerating tag (i + 1) :: snd (loop tag n (S i))).
Proof.
  unfold loop. cbn [attempt_loop]. unfold dirname, attempt_failure.
  destruct (attempt_loop resolve_test_path prompt tag attempts options
              generate exec n (S i)) as [r rest].
  destruct (generate i) as [t|]; destruct (i =? attempts); reflexivity.
Qed.

(** The loop entered at attempt [i] with [n >= 1] iterations left. *)
Lemma attempt_loop_exhausts (tag : string) :
  forall n i,
    1 <= n -> i + n = attempts + 1 ->
    exists evs,
      loop tag n i = (Throws exhausted_error, evs) /\
      filter is_generate evs = repeat (Generate prompt tag) n /\
      filter is_execute evs = [] /\
      filter is_passed evs = [] /\
      (forall k, i <= k <= attempts ->
         In (LogAttemptFailed k tag
               (str_take 300 (message_of (attempt_failure (generate k))))
               attempts) evs).
Proof.
  induction n as [|n IH]; intros i Hn Hi; [lia|].
  rewrite attempt_loop_step. cbv zeta.
  destruct (Nat.eqb_spec i attempts) as [Heq|Hne].
  - (* last attempt *)
    unfold exhausted_error. rewrite <- Heq.
    assert (n = 0) by lia. subst n.
    eexists. split; [reflexivity|]. cbn.
    repeat split. intros k Hk. assert (k = i) as -> by lia. auto.
  - destruct (IH (S i)) as (evs & Hloop & Hgen & Hexe & Hpas & Hlog);
      [lia | lia |].
    rewrite Hloop. cbn [fst snd].
    eexists. split; [reflexivity|]. cbn.
    rewrite Hgen, Hexe, Hpas. repeat split.
    intros k Hk. destruct (Nat.eq_dec k i) as [->|Hki]; [auto|].
    do 4 right. apply Hlog. lia.
Qed.

(** The thrown value and the outcome do not depend on the tag. *)
Lemma attempt_loop_any_tag (tag tag' : string) :
  forall n i, fst (loop tag' n i) = fst (loop tag n i).
Proof.
  induction n as [|n IH]; intros i; [reflexivity|].
  rewrite !attempt_loop_step. cbv zeta.
  destruct (i =? attempts); cbn [fst]; [reflexivity | apply IH].
Qed.

(** C2 (amended). With [attempts = N >= 1] and a generator that fails at
    every attempt, [runWithRetries] calls the generator exactly [N] times,
    each time with the same prompt and tag, never gets as far as the
    executor, and then throws an [Error] whose message is exactly
    "Test failed after N attempts: " followed by the whole message of the
    last failure.  Neither the tag nor a truncation goes into the thrown
    error: the same value is thrown for every tag.  The tag and the
    first 300 characters of each failure go to the log entry of that
    attempt. *)
Theorem C2_retry_runner_exhausts (tag : string) (failure : nat -> thrown) :
  1 <= attempts ->
  (forall i, 1 <= i <= attempts -> generate i = Some (failure i)) ->
  exists evs,
    runWithRetries resolve_test_path prompt tag attempts options generate
      exec =
      (Throws (ThrownError (Error
         ("Test failed after " ++ num_to_string attempts ++ " attempts: " ++
          message_of (failure attempts))%string)), evs) /\
    filter is_generate evs = repeat (Generate prompt tag) attempts /\
    filter is_execute evs = [] /\
    (forall k, 1 <= k <= attempts ->
       In (LogAttemptFailed k tag (str_take 300 (message_of (failure k)))
             attempts) evs) /\
    (forall tag',
       fst (runWithRetries resolve_test_path prompt tag' attempts options
              generate exec) =
       Throws (ThrownError (Error
         ("Test failed after " ++ num_to_string attempts ++ " attempts: " ++
          message_of (failure attempts))%string))).
Proof.
  intros Hn Hfail.
  destruct (attempt_loop_exhausts tag attempts 1) as
    (evs & Hloop & Hgen & Hexe & _ & Hlog); [lia | lia |].
  unfold exhausted_error in Hloop.
  rewrite (Hfail attempts) in Hloop by lia. cbn [attempt_failure] in Hloop.
  exists evs. unfold runWithRetries. fold (loop tag).
  split; [exact Hloop|]. split; [exact Hgen|]. split; [exact Hexe|].
  split.
  - intros k Hk. specialize (Hlog k Hk).
    rewrite (Hfail k Hk) in Hlog. exact Hlog.
  - intros tag'. fold (loop tag').
    rewrite (attempt_loop_any_tag tag tag'), Hloop. reflexivity.
Qed.

End RetryRunner.

(** C2 at work: three attempts, the generator fails each time. *)
Lemma C2_retry_runner_exhausts_witness :
  1 <= 3 /\
  (forall i : nat, 1 <= i <= 3 ->
     (fun _ : nat => Some (Js.ThrownOther "boom")) i =
     Some ((fun _ : nat => Js.ThrownOther "boom") i)) /\
  exists evs,
    RerunHandler.runWithRetries Sample.resolve_test_path
      "open the login page" "login" 3 RerunHandler.default_options
      (fun _ => Some (Js.ThrownOther "boom")) (fun _ => None) =
      (Js.Throws (Js.ThrownError (Js.Error
         "Test failed after 3 attempts: boom")), evs) /\
    filter RerunHandler.is_generate evs =
      repeat (RerunHandler.Generate "open the login page" "login") 3 /\
    filter RerunHandler.is_execute evs = [] /\
    (forall k, 1 <= k <= 3 ->
       In (RerunHandler.LogAttemptFailed k "login" "boom" 3) evs).
Proof.
  split; [lia|]. split; [intros i Hi; reflexivity|].
  destruct (C2_retry_runner_exhausts Sample.resolve_test_path
              "open the login page" 3 RerunHandler.default_options
              (fun _ => Some (Js.ThrownOther "boom")) (fun _ => None)
              "login" (fun _ => Js.ThrownOther "boom"))
    as (evs & Hrun & Hgen & Hexe & Hlog & _).
  - lia.
  - intros i Hi. reflexivity.
  - exists evs. split; [exact Hrun|]. split; [exact Hgen|].
    split; [exact Hexe | exact Hlog].
Defined.

(** C2 as the specification words it fails: the error thrown after three
    failed attempts for the tag "login" reads
    "Test failed after 3 attempts: " followed by the text of the last
    failure; it does not hold the tag, and a text of 400 characters is
    in it whole, where its first 300 characters are a different text. *)
Lemma C2_error_omits_tag :
  (exists e evs,
     RerunHandler.runWithRetries Sample.resolve_test_path
       "open the login page" "login" 3 RerunHandler.default_options
       (fun _ => Some (Js.ThrownOther "boom")) (fun _ => None) =
       (Js.Throws (Js.ThrownError e), evs) /\
     Js.err_message e = "Test failed after 3 attempts: boom" /\
     Js.includes "login" (Js.err_message e) = false) /\
  (exists e evs,
     RerunHandler.runWithRetries Sample.resolve_test_path
       "open the login page" "login" 3 RerunHandler.default_options
       (fun _ => Some (Js.ThrownOther Sample.long_text)) (fun _ => None) =
       (Js.Throws (Js.ThrownError e), evs) /\
     Js.err_message e =
       ("Test failed after 3 attempts: " ++ Sample.long_text)%string /\
     String.length Sample.long_text = 400 /\
     Js.str_take 300 Sample.long_text <> Sample.long_text).
Proof.
  split.
  - eexists; eexists. split; [reflexivity|]. split; reflexivity.
  - eexists; eexists. split; [reflexivity|]. split; [reflexivity|].
    split; [reflexivity|].
    intros H. apply (f_equal String.length) in H. vm_compute in H.
    discriminate.
Qed.

(** ** The action retrier *)

Section ActionRetrier.

Import Js SafeActions.

Context {T : Type}.
Variable action : nat -> completion T.
Variable options : SafeActionOptions.
Variable actionName : string.
Variable target : option string.

Let loop := retry_loop action options actionName target.

(** [new SafeActionError(...)] as built on the last attempt. *)
Let final_error (attempts : nat) (err : thrown) : SafeActionError :=
  mk_safe_error
    (actionName ++ " failed after " ++ num_to_string attempts ++
     " attempts: " ++ message_of err)%string
    target (Some attempts) (cause_of err).

Lemma time_line_app (a b : list event) :
  time_line (a ++ b) = time_line a ++ time_line b.
Proof. apply filter_app. Qed.

(** Every way the loop can end, with [n >= 1] iterations left at index
    [i]: a success at some attempt, a failure outcome built at the last
    attempt, or an exception that the callback threw. *)
Lemma retry_loop_ends (n : nat) :
  forall i res evs,
    1 <= n -> i + n = retries options ->
    loop n i i = (res, evs) ->
    match res with
    | Normal r =>
        (success r = true /\ i < attempts r <= retries options /\
         error_of r = None /\
         exists v, action (attempts r) = Normal v /\ value r = Some v)
        \/
        (success r = false /\ attempts r = retries options /\
         value r = None /\
         exists err, action (retries options) = Throws err /\
                     error_of r = Some (final_error (retries options) err))
    | Throws t =>
        exists callback e k,
          onError options = Some callback /\
          callback e k = Throws t /\
          In (CallOnError e k) evs
    end.
Proof.
  induction n as [|n IH]; intros i res evs Hn Hi Hrun; [lia|].
  unfold loop in *. cbn [retry_loop] in Hrun.
  replace (i + 1) with (S i) in Hrun by lia.
  destruct (action (S i)) as [v|err] eqn:Ha.
  { injection Hrun as <- <-. left. cbn. repeat split; try lia.
    exists v. auto. }
  assert (Hrec : forall done res' evs',
    (if i =? retries options - 1
     then (Normal (mk_result false None
                     (Some (final_error (S i) err)) (S i)),
           done ++ [LogPermanent actionName (S i)])
     else let (r, rest) := retry_loop action options actionName target
                             n (S i) (S i) in
          (r, done ++ Sleep (delay options * 2 ^ i) :: rest)) =
    (res', evs') ->
    match res' with
    | Normal r =>
        (success r = true /\ i < attempts r <= retries options /\
         error_of r = None /\
         exists v, action (attempts r) = Normal v /\ value r = Some v)
        \/
        (success r = false /\ attempts r = retries options /\
         value r = None /\
         exists err, action (retries options) = Throws err /\
                     error_of r = Some (final_error (retries options) err))
    | Throws t =>
        exists callback e k,
          onError options = Some callback /\
          callback e k = Throws t /\
          In (CallOnError e k) evs'
    end).
  { intros done res' evs' H.
    destruct (Nat.eqb_spec i (retries options - 1)) as [Hlast|Hmore].
    - injection H as <- <-. right. cbn.
      replace (retries options) with (S i) by lia.
      repeat split. exists err. auto.
    - destruct (retry_loop action options actionName target n (S i) (S i))
        as [r rest] eqn:Hloop.
      injection H as <- <-.
      apply IH in Hloop; [|lia|lia].
      destruct r as [r|t].
      + destruct Hloop as [(H1 & H2 & H3)|H]; [left|right; exact H].
        split; [assumption|]. split; [lia | exact H3].
      + destruct Hloop as (cb & e & k & H1 & H2 & H3).
        exists cb, e, k. repeat split; try assumption.
        apply in_or_app. right. right. exact H3. }
  destruct (onError options) as [callback|] eqn:Hcb.
  - destruct (callback (as_error err) (S i)) as [u|t] eqn:Hcall.
    + apply Hrec in Hrun. exact Hrun.
    + injection Hrun as <- <-.
      exists callback, (as_error err), (S i). repeat split; auto.
      apply in_or_app. right. left. reflexivity.
  - apply Hrec in Hrun.
    destruct res as [r|t]; [exact Hrun|].
    destruct Hrun as (cb & _ & _ & Habs & _). discriminate.
Qed.

(** The time line of the loop entered at index [i] with [n] iterations
    left, when every attempt fails. *)
Let time_line_from (i n : nat) : list event :=
  flat_map (fun k => [CallAction k; Sleep (delay options * 2 ^ (k - 1))])
    (seq (S i) (n - 1)) ++ [CallAction (retries options)].

Lemma time_line_from_step (i n : nat) :
  1 <= n ->
  time_line_from i (S n) =
  CallAction (S i) :: Sleep (delay options * 2 ^ i) ::
  time_line_from (S i) n.
Proof.
  intros Hn. unfold time_line_from.
  replace (S n - 1) with (S (n - 1)) by lia.
  cbn [seq flat_map]. replace (S i - 1) with i by lia. reflexivity.
Qed.

(** The loop when every attempt fails: as long as the callback returns,
    the calls and the sleeps follow the time line; an outcome that is
    returned is a failure built at attempt [retries]. *)
Lemma retry_loop_all_fail :
  (forall k, exists err, action k = Throws err) ->
  forall n i res evs,
    1 <= n -> i + n = retries options ->
    loop n i i = (res, evs) ->
    (exists rest, time_line_from i n = time_line evs ++ rest) /\
    forall r, res = Normal r ->
      success r = false /\
      attempts r = retries options /\
      time_line evs = time_line_from i n.
Proof.
  intros Hfail n.
  induction n as [|n IH]; intros i res evs Hn Hi Hrun; [lia|].
  unfold loop in *. cbn [retry_loop] in Hrun.
  replace (i + 1) with (S i) in Hrun by lia.
  destruct (Hfail (S i)) as [err Ha]. rewrite Ha in Hrun.
  set (warned :=
    ((if verbose options
      then [LogAttempt actionName (S i) (retries options)] else []) ++
     [CallAction (S i)]) ++
    [LogFailed actionName (S i) (message_of err)
       (i =? retries options - 1)]) in *.
  assert (Hwarned : forall extra, time_line extra = [] ->
                    time_line (warned ++ extra) = [CallAction (S i)]).
  { intros extra Hextra. unfold warned.
    rewrite !time_line_app, Hextra.
    destruct (verbose options); reflexivity. }
  assert (Hhead : exists tl, time_line_from i (S n) = CallAction (S i) :: tl).
  { destruct n as [|n].
    - exists []. unfold time_line_from. cbn.
      replace (retries options) with (S i) by lia. reflexivity.
    - eexists. apply time_line_from_step. lia. }
  assert (Hrec : forall done res' evs',
    time_line done = [CallAction (S i)] ->
    (if i =? retries options - 1
     then (Normal (mk_result false None
                     (Some (final_error (S i) err)) (S i)),
           done ++ [LogPermanent actionName (S i)])
     else let (r, rest) := retry_loop action options actionName target
                             n (S i) (S i) in
          (r, done ++ Sleep (delay options * 2 ^ i) :: rest)) =
    (res', evs') ->
    (exists rest, time_line_from i (S n) = time_line evs' ++ rest) /\
    forall r, res' = Normal r ->
      success r = false /\
      attempts r = retries options /\
      time_line evs' = time_line_from i (S n)).
  { intros done res' evs' Hdone H.
    destruct (Nat.eqb_spec i (retries options - 1)) as [Hlast|Hmore].
    - injection H as <- <-.
      assert (n = 0) by lia. subst n.
      assert (Htl : time_line (done ++ [LogPermanent actionName (S i)]) =
                    time_line_from i 1).
      { rewrite time_line_app, Hdone. unfold time_line_from. cbn.
        replace (retries options) with (S i) by lia. reflexivity. }
      split.
      + exists []. rewrite Htl, app_nil_r. reflexivity.
      + intros r Hr. injection Hr as <-. cbn [success attempts].
        repeat split; [lia | exact Htl].
    - destruct (retry_loop action options actionName target n (S i) (S i))
        as [r0 rest0] eqn:Hloop.
      injection H as <- <-.
      destruct (IH (S i) r0 rest0) as [(rest & Hpre) Hret];
        [lia | lia | exact Hloop |].
      assert (Htl : time_line (done ++ Sleep (delay options * 2 ^ i) :: rest0)
                    = CallAction (S i) :: Sleep (delay options * 2 ^ i) ::
                      time_line rest0).
      { rewrite time_line_app, Hdone. reflexivity. }
      rewrite Htl, time_line_from_step by lia.
      split.
      + exists rest. rewrite Hpre. reflexivity.
      + intros r Hr. destruct (Hret r Hr) as (H1 & H2 & H3).
        repeat split; [exact H1 | exact H2 | rewrite H3; reflexivity]. }
  destruct (onError options) as [callback|].
  - destruct (callback (as_error err) (S i)) as [u|t].
    + apply Hrec in Hrun; [exact Hrun|].
      apply Hwarned. reflexivity.
    + injection Hrun as <- <-. split; [|discriminate].
      destruct Hhead as [tl Htl]. exists tl.
      rewrite Htl, Hwarned by reflexivity. reflexivity.
  - apply Hrec in Hrun; [exact Hrun|].
    rewrite <- (app_nil_r warned). apply Hwarned. reflexivity.
Qed.

(** Where attempt [k] sits on the time line of [R] failed attempts. *)
Lemma backoff_time_line_at (d R k : nat) :
  1 <= k < R ->
  exists before after,
    backoff_time_line d R =
    before ++
    [CallAction k; Sleep (d * 2 ^ (k - 1)); CallAction (k + 1)] ++ after.
Proof.
  intros Hk. unfold backoff_time_line.
  set (f := fun k => [CallAction k; Sleep (d * 2 ^ (k - 1))]).
  assert (Hsplit : seq 1 (R - 1) =
                   seq 1 (k - 1) ++ k :: seq (S k) (R - 1 - k)).
  { replace (R - 1) with ((k - 1) + S (R - 1 - k)) at 1 by lia.
    rewrite seq_app. replace (1 + (k - 1)) with k by lia. reflexivity. }
  rewrite Hsplit, flat_map_app. cbn [flat_map].
  exists (flat_map f (seq 1 (k - 1))).
  destruct (R - 1 - k) as [|m] eqn:Hm.
  - exists []. cbn. rewrite <- app_assoc. cbn.
    replace (k + 1) with R by lia. reflexivity.
  - exists (Sleep (d * 2 ^ (S k - 1)) ::
            flat_map f (seq (S (S k)) m) ++ [CallAction R]).
    rewrite <- app_assoc. cbn -[Nat.pow Nat.mul Nat.sub].
    replace (k + 1) with (S k) by lia. reflexivity.
Qed.

(** C3. With [retries = R >= 1] and [delay = d], when the action fails at
    every attempt, the outcome that [withRetry] returns has
    [success = false] and [attempts = R]; the action was called [R] times
    and between attempt [k] and attempt [k + 1], for [1 <= k < R], the
    code slept exactly [d * 2 ^ (k - 1)] milliseconds, with no other
    sleep.  An outcome is returned unless the error callback itself
    throws; even then the calls and sleeps made so far are the beginning
    of that same time line. *)
Theorem C3_backoff_doubles :
  1 <= retries options ->
  (forall k, exists err, action k = Throws err) ->
  exists res evs,
    withRetry action options actionName target = (res, evs) /\
    (forall r, res = Normal r ->
       success r = false /\
       attempts r = retries options /\
       time_line evs =
         backoff_time_line (delay options) (retries options) /\
       (forall k, 1 <= k < retries options ->
          exists before after,
            time_line evs =
            before ++
            [CallAction k; Sleep (delay options * 2 ^ (k - 1));
             CallAction (k + 1)] ++ after)) /\
    (exists rest,
       backoff_time_line (delay options) (retries options) =
       time_line evs ++ rest) /\
    (forall t, res = Throws t ->
       exists callback e k,
         onError options = Some callback /\ callback e k = Throws t) /\
    (callback_returns options -> exists r, res = Normal r).
Proof.
  intros HR Hfail.
  destruct (withRetry action options actionName target) as [res evs] eqn:Hrun.
  exists res, evs. split; [reflexivity|].
  destruct (retry_loop_all_fail Hfail (retries options) 0 res evs HR eq_refl
              Hrun) as [Hpre Hret].
  pose proof (retry_loop_ends (retries options) 0 res evs HR eq_refl Hrun)
    as Hends.
  split; [|split; [exact Hpre|split]].
  - intros r Hr. destruct (Hret r Hr) as (H1 & H2 & H3).
    repeat split; try assumption.
    intros k Hk. rewrite H3.
    apply (backoff_time_line_at (delay options) (retries options) k Hk).
  - intros t ->. destruct Hends as (cb & e & k & H1 & H2 & _).
    exists cb, e, k. auto.
  - intros Hquiet. destruct res as [r|t]; [exists r; reflexivity|].
    destruct Hends as (cb & e & k & H1 & H2 & _).
    rewrite (Hquiet cb e k H1) in H2. discriminate.
Qed.

(** C7. With [retries >= 1], [withRetry] never throws because the action
    failed: the only exception that can leave it is one thrown by the
    error callback, so the [throw] after the loop is never reached, and
    without a throwing callback an outcome object is returned.  A failure
    outcome is built at the last attempt: its error holds the message of
    the last failure of the action, the target given by the caller and
    the number of attempts. *)
Theorem C7_outcome_not_exception :
  1 <= retries options ->
  (forall t evs,
     withRetry action options actionName target = (Throws t, evs) ->
     exists callback e k,
       onError options = Some callback /\
       callback e k = Throws t /\
       In (CallOnError e k) evs) /\
  (callback_returns options ->
   exists r evs,
     withRetry action options actionName target = (Normal r, evs)) /\
  (forall r evs,
     withRetry action options actionName target = (Normal r, evs) ->
     success r = false ->
     attempts r = retries options /\
     exists err,
       action (retries options) = Throws err /\
       error_of r =
         Some (mk_safe_error
                 (actionName ++ " failed after " ++
                  num_to_string (retries options) ++ " attempts: " ++
                  message_of err)%string
                 target (Some (retries options)) (cause_of err))) /\
  (forall r evs,
     withRetry action options actionName target = (Normal r, evs) ->
     success r = true ->
     1 <= attempts r <= retries options /\
     exists v, action (attempts r) = Normal v /\ value r = Some v).
Proof.
  intros HR.
  assert (Hends := fun res evs =>
    retry_loop_ends (retries options) 0 res evs HR eq_refl).
  unfold loop in Hends. fold (withRetry action options actionName target)
    in Hends.
  repeat split.
  - intros t evs Hrun. exact (Hends _ _ Hrun).
  - intros Hquiet.
    destruct (withRetry action options actionName target) as [res evs]
      eqn:Hrun.
    destruct res as [r|t]; [exists r, evs; reflexivity|].
    destruct (Hends _ _ eq_refl) as (cb & e & k & H1 & H2 & _).
    rewrite (Hquiet cb e k H1) in H2. discriminate.
  - destruct (Hends _ _ H) as [(Hs & _)|(_ & Ha & _)]; [congruence|].
    exact Ha.
  - destruct (Hends _ _ H) as [(Hs & _)|(_ & _ & _ & Herr)];
      [congruence | exact Herr].
  - destruct (Hends _ _ H) as [(_ & Ha & _)|(Hs & _)]; [|congruence]. lia.
  - destruct (Hends _ _ H) as [(_ & Ha & _)|(Hs & _)]; [|congruence]. lia.
  - destruct (Hends _ _ H) as [(_ & _ & _ & Hv)|(Hs & _)];
      [exact Hv | congruence].
Qed.

End ActionRetrier.

(** ** Placeholder resolution *)

Section Placeholders.

Import Js Orchestrator.

Variable C : Config.

Lemma append_assoc (a b c : string) :
  ((a ++ b) ++ c = a ++ (b ++ c))%string.
Proof. induction a as [|x a IH]; simpl; [|rewrite IH]; reflexivity. Qed.

Lemma bind_normal {A : Type} (m : completion A) : bind m Normal = m.
Proof. destruct m; reflexivity. Qed.

(** The two equations of the scan at a non-empty text. *)
Lemma replace_all_copy (c : ascii) (r : string) :
  match_placeholder (String c r) = None ->
  replace_all C (String c r) =
  bind (replace_all C r) (fun out => Normal (String c out)).
Proof.
  intros H. rewrite replace_all_equation_2.
  destruct (inspect (match_placeholder (String c r))) as [m Hm]. cbn.
  destruct m as [[key rest]|]; [congruence | reflexivity].
Qed.

Lemma replace_all_match (c : ascii) (r key rest : string) :
  match_placeholder (String c r) = Some (key, rest) ->
  replace_all C (String c r) =
  bind (replacer C key) (fun v =>
  bind (replace_all C rest) (fun out => Normal (v ++ out)%string)).
Proof.
  intros H. rewrite replace_all_equation_2.
  destruct (inspect (match_placeholder (String c r))) as [m Hm]. cbn.
  destruct m as [[key' rest']|]; [|congruence].
  rewrite H in Hm. injection Hm as <- <-. reflexivity.
Qed.

(** *** The matcher under an extension of the text *)

Lemma strip_prefix_cons (a : ascii) (p : string) (b : ascii) (s : string) :
  strip_prefix (String a p) (String b s) =
  if Ascii.eqb a b then strip_prefix p s else None.
Proof. reflexivity. Qed.

Lemma strip_prefix_app (p s : string) :
  strip_prefix p (p ++ s) = Some s.
Proof.
  induction p as [|a p IH]; simpl; [reflexivity|].
  rewrite Ascii.eqb_refl. exact IH.
Qed.

Lemma strip_prefix_extend (p s after t : string) :
  strip_prefix p s = Some after ->
  strip_prefix p (s ++ t) = Some (after ++ t)%string.
Proof.
  revert s. induction p as [|a p IH]; intros [|b s]; simpl; intros H;
    try discriminate; try (injection H as <-; reflexivity).
  destruct (Ascii.eqb a b); [apply IH; exact H | discriminate].
Qed.

(** A literal that does not hold the character [d] cannot start to match
    because [d] was appended to the text. *)
Lemma strip_prefix_extend_none (d : ascii) (p s t : string) :
  has_char d p = false ->
  strip_prefix p s = None ->
  strip_prefix p (s ++ String d t) = None.
Proof.
  revert s. induction p as [|a p IH]; intros s Hd H; [discriminate|].
  simpl in Hd. apply orb_false_iff in Hd as [Hda Hdp].
  destruct s as [|b s]; simpl in *.
  - rewrite Ascii.eqb_sym, Hda. reflexivity.
  - destruct (Ascii.eqb a b); [apply IH; assumption | reflexivity].
Qed.

Lemma span_key_extend (d : ascii) (a t : string) :
  is_key_char d = false ->
  span_key (a ++ String d t) =
  (fst (span_key a), (snd (span_key a) ++ String d t)%string).
Proof.
  intros Hd. induction a as [|c a IH]; simpl.
  - rewrite Hd. reflexivity.
  - destruct (is_key_char c); [|reflexivity].
    rewrite IH. destruct (span_key a). reflexivity.
Qed.

Lemma span_key_all (k t : string) :
  all_key_chars k = true ->
  fst (span_key t) = "" ->
  span_key (k ++ t) = (k, snd (span_key t)).
Proof.
  intros Hk Ht. induction k as [|c k IH]; simpl in *.
  - destruct (span_key t); simpl in *; subst; reflexivity.
  - apply andb_true_iff in Hk as [Hc Hk]. rewrite Hc, (IH Hk). reflexivity.
Qed.

Lemma span_key_extend_rest (a t k : string) (c : ascii) (r : string) :
  span_key a = (k, String c r) ->
  span_key (a ++ t) = (k, String c (r ++ t)).
Proof.
  revert k. induction a as [|x a IH]; simpl; intros k H; [discriminate|].
  destruct (is_key_char x).
  - destruct (span_key a) as [k' r'].
    injection H as <- ->. rewrite (IH k' eq_refl). reflexivity.
  - injection H as <- <- <-. reflexivity.
Qed.

(** A match stays a match when text is appended. *)
Lemma match_placeholder_extend (s t key rest : string) :
  match_placeholder s = Some (key, rest) ->
  match_placeholder (s ++ t) = Some (key, (rest ++ t)%string).
Proof.
  unfold match_placeholder.
  destruct (strip_prefix opener s) as [after|] eqn:Hp; [|discriminate].
  rewrite (strip_prefix_extend _ _ _ t Hp).
  destruct (span_key after) as [[|k ks] [|c r]] eqn:Hs; try discriminate.
  rewrite (span_key_extend_rest _ t _ _ _ Hs).
  destruct c as [[] [] [] [] [] [] [] []]; try discriminate.
  intros H. injection H as <- <-. reflexivity.
Qed.

(** A text that does not match does not start to match because a text
    that begins with a dollar sign is appended. *)
Lemma match_placeholder_extend_none (b : ascii) (s t : string) :
  match_placeholder (String b s) = None ->
  match_placeholder (String b s ++ String "$" t) = None.
Proof.
  unfold match_placeholder.
  destruct (strip_prefix opener (String b s)) as [after|] eqn:Hp.
  - rewrite (strip_prefix_extend _ _ _ (String "$" t) Hp).
    rewrite span_key_extend by reflexivity.
    destruct (span_key after) as [[|k ks] [|c r]]; simpl; try reflexivity.
    destruct c as [[] [] [] [] [] [] [] []]; simpl; congruence.
  - intros _.
    assert (Hnone : strip_prefix opener (String b s ++ String "$" t) = None).
    { change (String b s ++ String "$" t)%string
        with (String b (s ++ String "$" t)).
      unfold opener in *. rewrite strip_prefix_cons in *.
      destruct (Ascii.eqb "$" b); [|reflexivity].
      apply strip_prefix_extend_none; [reflexivity | exact Hp]. }
    rewrite Hnone. reflexivity.
Qed.

(** *** The scan under an extension of the text *)

(** The scan of a text followed by a text that begins with a dollar sign
    is the scan of the first, then the scan of the second. *)
Lemma replace_all_app_dollar (t : string) :
  forall s,
    replace_all C (s ++ String "$" t) =
    bind (replace_all C s) (fun a =>
    bind (replace_all C (String "$" t)) (fun b =>
    Normal (a ++ b)%string)).
Proof.
  assert (H : forall n s, String.length s < n ->
    replace_all C (s ++ String "$" t) =
    bind (replace_all C s) (fun a =>
    bind (replace_all C (String "$" t)) (fun b =>
    Normal (a ++ b)%string))).
  { induction n as [|n IH]; intros s Hlen; [lia|].
    destruct s as [|c r].
    - rewrite replace_all_equation_1. simpl.
      symmetry. apply bind_normal.
    - destruct (match_placeholder (String c r)) as [[key rest]|] eqn:Hm.
      + pose proof (match_placeholder_shorter _ _ _ Hm) as Hshort.
        pose proof (match_placeholder_extend _ (String "$" t) _ _ Hm) as He.
        simpl in He. simpl append at 1.
        rewrite (replace_all_match _ _ _ _ He).
        rewrite (replace_all_match _ _ _ _ Hm).
        rewrite (IH rest) by lia.
        destruct (replacer C key) as [v|e]; simpl; [|reflexivity].
        destruct (replace_all C rest) as [a|e]; simpl; [|reflexivity].
        destruct (replace_all C (String "$" t)) as [b|e]; simpl;
          [|reflexivity].
        rewrite append_assoc. reflexivity.
      + pose proof (match_placeholder_extend_none _ _ t Hm) as He.
        simpl in He. simpl append at 1.
        rewrite (replace_all_copy _ _ He), (replace_all_copy _ _ Hm).
        rewrite (IH r) by (simpl in Hlen; lia).
        destruct (replace_all C r) as [a|e]; simpl; [|reflexivity].
        destruct (replace_all C (String "$" t)) as [b|e]; reflexivity. }
  intros s. apply (H (S (String.length s))). lia.
Qed.

(** The only exception of the scan is the one of the replacer. *)
Lemma replace_all_throws (s : string) (t : thrown) :
  replace_all C s = Throws t ->
  exists key, has_key C key = false /\
              t = ThrownError (unknown_key_error C key).
Proof.
  assert (H : forall n s, String.length s < n ->
    replace_all C s = Throws t ->
    exists key, has_key C key = false /\
                t = ThrownError (unknown_key_error C key)).
  { induction n as [|n IH]; intros u Hlen; [lia|].
    destruct u as [|c r].
    - rewrite replace_all_equation_1. discriminate.
    - destruct (match_placeholder (String c r)) as [[key rest]|] eqn:Hm.
      + pose proof (match_placeholder_shorter _ _ _ Hm) as Hshort.
        rewrite (replace_all_match _ _ _ _ Hm).
        unfold replacer.
        destruct (has_key C key) eqn:Hk; cbn [negb bind].
        * destruct (lookup key (config_entries C)); cbn [bind];
            (destruct (replace_all C rest) as [a|e] eqn:Hr; cbn [bind];
             [discriminate|]);
            intros E; apply (IH rest); [lia | congruence | lia | congruence].
        * intros E. exists key. split; [exact Hk|].
          unfold unknown_key_error. congruence.
      + rewrite (replace_all_copy _ _ Hm).
        destruct (replace_all C r) as [a|e] eqn:Hr; cbn [bind];
          [discriminate|].
        intros E.
        apply (IH r); [simpl in Hlen; lia | congruence]. }
  apply (H (S (String.length s))). lia.
Qed.

(** *** Recognised and unrecognised placeholders *)

Lemma match_placeholder_key (key post : string) :
  key <> "" -> all_key_chars key = true ->
  match_placeholder (opener ++ key ++ String "}" post) = Some (key, post).
Proof.
  intros Hne Hk. unfold match_placeholder.
  rewrite strip_prefix_app.
  rewrite (span_key_all key (String "}" post) Hk eq_refl).
  destruct key as [|k ks]; [congruence | reflexivity].
Qed.

Lemma span_key_bad (key tail : string) :
  all_key_chars key = false -> has_char "}" key = false ->
  exists k c r, span_key (key ++ tail) = (k, String c r) /\ c <> "}"%char.
Proof.
  induction key as [|x key IH]; cbn [all_key_chars has_char append];
    intros Hk Hb; [discriminate|].
  apply orb_false_iff in Hb as [Hx Hb].
  cbn [span_key]. destruct (is_key_char x) eqn:Hkx.
  - destruct (IH Hk Hb) as (k & c & r & Hs & Hc).
    rewrite Hs. exists (String x k), c, r. auto.
  - exists "", x, (key ++ tail)%string. split; [reflexivity|].
    intros ->. rewrite Ascii.eqb_refl in Hx. discriminate.
Qed.

Lemma match_placeholder_bad (key tail : string) :
  all_key_chars key = false -> has_char "}" key = false ->
  match_placeholder (opener ++ key ++ tail) = None.
Proof.
  intros Hk Hb. unfold match_placeholder.
  rewrite strip_prefix_app.
  destruct (span_key_bad key tail Hk Hb) as (k & c & r & -> & Hc).
  destruct k as [|k ks]; [reflexivity|].
  destruct c as [[] [] [] [] [] [] [] []]; try reflexivity.
  congruence.
Qed.

Lemma match_placeholder_first (c : ascii) (r : string) :
  Ascii.eqb "$" c = false -> match_placeholder (String c r) = None.
Proof.
  intros Hc. unfold match_placeholder, opener.
  rewrite strip_prefix_cons, Hc. reflexivity.
Qed.

(** A text without dollar sign is copied. *)
Lemma replace_all_plain (u rest : string) :
  has_char "$" u = false ->
  replace_all C (u ++ rest) =
  bind (replace_all C rest) (fun b => Normal (u ++ b)%string).
Proof.
  induction u as [|c u IH]; cbn [has_char append]; intros Hu.
  - symmetry. apply bind_normal.
  - apply orb_false_iff in Hu as [Hc Hu].
    rewrite (replace_all_copy _ _ (match_placeholder_first _ _ Hc)).
    rewrite (IH Hu).
    destruct (replace_all C rest); reflexivity.
Qed.

(** What stands between an unrecognised opener and its closing brace is
    copied, and so is the brace. *)
Lemma replace_all_key_tail (key post : string) :
  occurs opener key = false -> has_char "}" key = false ->
  replace_all C (key ++ String "}" post) =
  bind (replace_all C post) (fun b => Normal (key ++ String "}" b)%string).
Proof.
  induction key as [|c key IH]; intros Ho Hb.
  - cbn [append].
    rewrite (replace_all_copy _ _
               (match_placeholder_first "}" post eq_refl)).
    reflexivity.
  - cbn [occurs] in Ho.
    destruct (strip_prefix opener (String c key)) eqn:Hp; [discriminate|].
    cbn [has_char] in Hb. apply orb_false_iff in Hb as [_ Hb].
    assert (Hm : match_placeholder (String c (key ++ String "}" post))
                 = None).
    { unfold match_placeholder.
      change (String c (key ++ String "}" post))
        with (String c key ++ String "}" post)%string.
      rewrite (strip_prefix_extend_none "}" opener _ post eq_refl Hp).
      reflexivity. }
    cbn [append]. rewrite (replace_all_copy _ _ Hm), (IH Ho Hb).
    destruct (replace_all C post); reflexivity.
Qed.

(** A placeholder-like text with a key outside [[A-Z0-9_]+] is copied. *)
Lemma replace_all_unrecognised (key post : string) :
  has_char "}" key = false ->
  occurs opener key = false ->
  all_key_chars key = false ->
  replace_all C (opener ++ key ++ String "}" post) =
  bind (replace_all C post)
    (fun b => Normal (opener ++ key ++ String "}" b)%string).
Proof.
  intros Hb Ho Hk.
  pose proof (match_placeholder_bad key (String "}" post) Hk Hb) as Hm.
  change (opener ++ key ++ String "}" post)%string
    with (String "$" ("{CONFIG." ++ key ++ String "}" post)) in *.
  rewrite (replace_all_copy _ _ Hm).
  rewrite (replace_all_plain "{CONFIG." _ eq_refl).
  rewrite (replace_all_key_tail key post Ho Hb).
  destruct (replace_all C post); reflexivity.
Qed.

(** C10. Only the keys made of upper-case letters, digits and underscores
    are recognised.  A placeholder-like text whose key (the text up to the
    closing brace, with no opener nested in it) holds another character
    is copied to the resolved prompt as it stands and raises no error:
    the result is the resolution of what precedes, this text, and the
    resolution of what follows; whether the key belongs to the
    configuration plays no part. *)
Theorem C10_unrecognised_placeholder_verbatim (pre key post : string) :
  has_char "}" key = false ->
  occurs opener key = false ->
  all_key_chars key = false ->
  interpolateConfigPlaceholders C
    (pre ++ "${CONFIG." ++ key ++ "}" ++ post) =
  bind (interpolateConfigPlaceholders C pre) (fun a =>
  bind (interpolateConfigPlaceholders C post) (fun b =>
  Normal (a ++ "${CONFIG." ++ key ++ "}" ++ b)%string)).
Proof.
  intros Hb Ho Hk. unfold interpolateConfigPlaceholders.
  change ("${CONFIG." ++ key ++ "}" ++ post)%string
    with (String "$" ("{CONFIG." ++ key ++ String "}" post)).
  rewrite replace_all_app_dollar.
  change (String "$" ("{CONFIG." ++ key ++ String "}" post))
    with (opener ++ key ++ String "}" post)%string.
  rewrite (replace_all_unrecognised key post Hb Ho Hk).
  destruct (replace_all C pre) as [a|e]; [|reflexivity].
  destruct (replace_all C post) as [b|e]; reflexivity.
Qed.

End Placeholders.

(** ** The orchestrator *)

Section Orchestration.

Import Js Orchestrator.

Variable resolve_test_path : string -> string -> string.
Variable C : Config.
Variable config : OrchestratorConfig.

Let runScenario := runScenario resolve_test_path C config.
Let start_chunk := start_chunk resolve_test_path C config.
Let run_chunk := run_chunk resolve_test_path C config.
Let run_chunks := run_chunks resolve_test_path C config.
Let main := main resolve_test_path C config.
Let results_from := results_from resolve_test_path C config.
Let signal_seen := signal_seen config.

(** *** One scenario *)

Lemma started_tags_app (a b : list event) :
  started_tags (a ++ b) = started_tags a ++ started_tags b.
Proof. apply flat_map_app. Qed.

Lemma runner_tags_app (a b : list event) :
  runner_tags (a ++ b) = runner_tags a ++ runner_tags b.
Proof. apply flat_map_app. Qed.

(** The entry of the start is made in the turn of the call, and only
    there. *)
Lemma runScenario_started (aborted : bool) (p : TestPrompt)
    (w : ScenarioWorld) :
  started_tags (at_call (runScenario aborted p w)) = [tag p] /\
  started_tags (at_settle (runScenario aborted p w)) = [].
Proof.
  unfold runScenario, Orchestrator.runScenario.
  destruct (enter_scenario C aborted p) as [expanded|t];
    [|split; reflexivity].
  destruct (race resolve_test_path config p expanded w); split; reflexivity.
Qed.

(** A scenario that does not get past its checks fails in the turn of
    the call, and its runner is not called. *)
Lemma runScenario_refused (aborted : bool) (p : TestPrompt)
    (w : ScenarioWorld) (t : thrown) :
  enter_scenario C aborted p = Throws t ->
  runScenario aborted p w =
  mk_run false
    [ScenarioStarted (tag p); ScenarioFailed (tag p) (message_of t)] [].
Proof.
  intros H. unfold runScenario, Orchestrator.runScenario. now rewrite H.
Qed.

(** *** One chunk *)

Lemma results_from_cons (signal : option nat) (world : nat -> ScenarioWorld)
    (base : nat) (p : TestPrompt) (l : list TestPrompt) :
  results_from signal world base (p :: l) =
  (p, passes (runScenario (signal_seen signal base) p (world base))) ::
  results_from signal world (S base) l.
Proof. reflexivity. Qed.

Lemma results_from_app (signal : option nat) (world : nat -> ScenarioWorld)
    (a b : list TestPrompt) :
  forall base,
    results_from signal world base (a ++ b) =
    results_from signal world base a ++
    results_from signal world (base + length a) b.
Proof.
  induction a as [|p a IH]; intros base.
  - cbn [app length]. now rewrite Nat.add_0_r.
  - cbn [app length]. rewrite !results_from_cons, IH. cbn [app].
    now replace (S base + length a) with (base + S (length a)) by lia.
Qed.

Lemma results_from_scenarios (signal : option nat)
    (world : nat -> ScenarioWorld) (l : list TestPrompt) :
  forall base, map fst (results_from signal world base l) = l.
Proof.
  induction l as [|p l IH]; intros base; [reflexivity|].
  rewrite results_from_cons. cbn [map fst]. now rewrite IH.
Qed.

Lemma results_from_length (signal : option nat)
    (world : nat -> ScenarioWorld) (base : nat) (l : list TestPrompt) :
  length (results_from signal world base l) = length l.
Proof.
  rewrite <- (results_from_scenarios signal world l base) at 2.
  now rewrite length_map.
Qed.

(** The results of a chunk are those of its positions when every
    position of the chunk sees the signal as the chunk does. *)
Lemma run_chunk_results (signal : option nat) (aborted : bool)
    (world : nat -> ScenarioWorld) (l : list TestPrompt) :
  forall base,
    (forall j, base <= j < base + length l ->
               signal_seen signal j = aborted) ->
    fst (run_chunk aborted world base l) = results_from signal world base l.
Proof.
  unfold run_chunk, Orchestrator.run_chunk. cbn [fst].
  induction l as [|p l IH]; intros base H; [reflexivity|].
  cbn [Orchestrator.start_chunk map fst snd]. rewrite results_from_cons.
  rewrite (H base) by (cbn [length]; lia).
  f_equal. apply IH. intros j Hj. apply H. cbn [length]. lia.
Qed.

Lemma insert_by_time_quiet (x : nat * list event)
    (l : list (nat * list event)) :
  started_tags (snd x) = [] ->
  started_tags (flat_map snd l) = [] ->
  started_tags (flat_map snd (insert_by_time x l)) = [].
Proof.
  intros Hx. induction l as [|y l IH]; intros Hl.
  - cbn. now rewrite app_nil_r.
  - cbn [insert_by_time]. cbn [flat_map] in Hl.
    rewrite started_tags_app in Hl. apply app_eq_nil in Hl as [Hy Hl].
    destruct (fst x <? fst y); cbn [flat_map];
      rewrite !started_tags_app, ?Hx, ?Hy; cbn [app].
    + cbn [flat_map] in *. now rewrite Hl.
    + now apply IH.
Qed.

Lemma by_time_quiet (l : list (nat * list event)) :
  Forall (fun x => started_tags (snd x) = []) l ->
  started_tags (flat_map snd (by_time l)) = [].
Proof.
  unfold by_time.
  assert (H : forall acc,
    started_tags (flat_map snd acc) = [] ->
    Forall (fun x => started_tags (snd x) = []) l ->
    started_tags
      (flat_map snd
         (fold_left (fun sorted x => insert_by_time x sorted) l acc)) = []).
  { induction l as [|x l IH]; intros acc Hacc Hl; [exact Hacc|].
    inversion Hl as [|? ? Hx Hl']; subst. cbn [fold_left].
    apply IH; [|exact Hl']. now apply insert_by_time_quiet. }
  apply H. reflexivity.
Qed.

(** Every scenario of a chunk is started, in the order of the chunk,
    whatever the order in which the races settle. *)
Lemma run_chunk_started (aborted : bool) (world : nat -> ScenarioWorld)
    (l : list TestPrompt) :
  forall base,
    started_tags (snd (run_chunk aborted world base l)) = map tag l.
Proof.
  intros base. unfold run_chunk, Orchestrator.run_chunk. cbn [snd].
  rewrite started_tags_app, by_time_quiet, app_nil_r.
  - revert base. induction l as [|p l IH]; intros base; [reflexivity|].
    cbn [Orchestrator.start_chunk flat_map map snd].
    rewrite started_tags_app, IH.
    pose proof (proj1 (runScenario_started aborted p (world base))) as Hs.
    unfold runScenario in Hs. now rewrite Hs.
  - revert base. induction l as [|p l IH]; intros base; [constructor|].
    cbn [Orchestrator.start_chunk map snd fst]. constructor; [|apply IH].
    cbn [snd]. apply (runScenario_started aborted p (world base)).
Qed.

Lemma count_failed_length (results : list (TestPrompt * bool)) :
  count_passed results + length (failed_tags results) = length results.
Proof.
  unfold count_passed, failed_tags. rewrite length_map.
  induction results as [|[p []] results IH]; cbn in *; lia.
Qed.

(** *** The aggregation loop *)

Lemma aggregate_none (results : list (TestPrompt * bool)) :
  forall stats stats',
    aggregate config results stats = (stats', None) ->
    total stats' = total stats /\
    passed stats' = passed stats + count_passed results /\
    failed stats' = failed stats ++ failed_tags results.
Proof.
  unfold count_passed, failed_tags.
  induction results as [|[p b] results IH]; intros stats stats' H.
  - injection H as <-. cbn. rewrite Nat.add_0_r, app_nil_r. auto.
  - cbn [aggregate] in H. destruct b.
    + apply IH in H as (H1 & H2 & H3).
      cbn [total passed failed filter snd fst negb map length] in *.
      repeat split; [assumption | lia | assumption].
    + destruct (negb (continueOnFailure config)); [discriminate|].
      apply IH in H as (H1 & H2 & H3).
      cbn [total passed failed filter snd fst negb map length] in *.
      repeat split; [assumption | lia |].
      rewrite H3, <- app_assoc. reflexivity.
Qed.

Lemma aggregate_continue (results : list (TestPrompt * bool)) :
  continueOnFailure config = true ->
  forall stats, exists stats', aggregate config results stats = (stats', None).
Proof.
  intros Hc.
  induction results as [|[p b] results IH]; intros stats; cbn [aggregate].
  - eexists; reflexivity.
  - destruct b; [apply IH|]. rewrite Hc. cbn [negb]. apply IH.
Qed.

Lemma aggregate_all_passed (results : list (TestPrompt * bool)) :
  Forall (fun r => snd r = true) results ->
  forall stats,
    aggregate config results stats =
    (mk_stats (total stats) (passed stats + length results) (failed stats),
     None).
Proof.
  induction 1 as [|[p b] results Hb _ IH]; intros stats; cbn [aggregate].
  - cbn. rewrite Nat.add_0_r. destruct stats; reflexivity.
  - cbn in Hb. subst b. rewrite IH. cbn. do 2 f_equal. lia.
Qed.

Lemma aggregate_abort (before after : list (TestPrompt * bool))
    (p : TestPrompt) :
  continueOnFailure config = false ->
  Forall (fun r => snd r = true) before ->
  forall stats,
    aggregate config (before ++ (p, false) :: after) stats =
    (mk_stats (total stats) (passed stats + length before)
       (failed stats ++ [tag p]),
     Some (abort_error p)).
Proof.
  intros Hc.
  induction 1 as [|[q b] before Hb _ IH]; intros stats;
    cbn [app aggregate].
  - rewrite Hc. cbn. rewrite Nat.add_0_r. reflexivity.
  - cbn in Hb. subst b. rewrite IH. cbn. do 2 f_equal. lia.
Qed.

Lemma count_passed_app (a b : list (TestPrompt * bool)) :
  count_passed (a ++ b) = count_passed a + count_passed b.
Proof. unfold count_passed. rewrite filter_app, length_app. reflexivity. Qed.

Lemma failed_tags_app (a b : list (TestPrompt * bool)) :
  failed_tags (a ++ b) = failed_tags a ++ failed_tags b.
Proof. unfold failed_tags. rewrite filter_app, map_app. reflexivity. Qed.

(** *** Lists cut in two ways *)

Lemma firstn_app_le {A : Type} (n : nat) (a b : list A) :
  n <= length a -> firstn n (a ++ b) = firstn n a.
Proof.
  intros H. rewrite firstn_app.
  replace (n - length a) with 0 by lia.
  cbn. apply app_nil_r.
Qed.

Lemma app_eq_split_short {A : Type} (a b before : list A) (p : A)
    (after : list A) :
  a ++ b = before ++ p :: after ->
  length before < length a ->
  exists tl, a = before ++ p :: tl.
Proof.
  revert a. induction before as [|x before IH]; intros [|y a] H Hlen;
    cbn in *; try lia.
  - injection H as -> _. exists a. reflexivity.
  - injection H as -> H. destruct (IH a H ltac:(lia)) as [tl ->].
    exists tl. reflexivity.
Qed.

Lemma app_eq_split_long {A : Type} (a b before rest : list A) :
  a ++ b = before ++ rest ->
  length a <= length before ->
  exists before', before = a ++ before' /\ b = before' ++ rest.
Proof.
  revert before. induction a as [|y a IH]; intros before H Hlen.
  - exists before. auto.
  - destruct before as [|x before]; cbn in *; [lia|].
    injection H as -> H. destruct (IH before H ltac:(lia)) as (b' & -> & ->).
    exists b'. auto.
Qed.

(** *** The positions of a chunk *)

Lemma well_chunked_head {A : Type} (c : nat) (chunk : list A)
    (rest : list (list A)) :
  1 <= c ->
  well_chunked c (chunk :: rest) ->
  1 <= length chunk <= c /\
  (rest <> [] -> length chunk = c /\ well_chunked c rest).
Proof.
  intros Hc Hw. cbn [well_chunked] in Hw. destruct rest as [|ch rest'].
  - split; [exact Hw | congruence].
  - destruct Hw as [Hl Hw]. split; [lia | auto].
Qed.

(** The scenarios of the chunk of index [k] see the signal as the chunk
    does. *)
Lemma chunk_sees_signal (signal : option nat) (k len : nat) :
  1 <= concurrency config ->
  len <= concurrency config ->
  forall j,
    k * concurrency config <= j < k * concurrency config + len ->
    signal_seen signal j = aborted_at signal k.
Proof.
  intros Hc Hlen j Hj. unfold signal_seen, Orchestrator.signal_seen.
  f_equal. symmetry.
  apply (Nat.div_unique j (concurrency config) k
           (j - k * concurrency config)); lia.
Qed.

(** *** The loop over the chunks *)

Lemma run_chunks_cons (signal : option nat) (world : nat -> ScenarioWorld)
    (k base : nat) (chunk : list TestPrompt) (rest : list (list TestPrompt))
    (stats : RunStats) :
  run_chunks signal world k base (chunk :: rest) stats =
  match aggregate config
          (fst (run_chunk (aborted_at signal k) world base chunk)) stats with
  | (stats', Some e) =>
      ((stats', Some e),
       snd (run_chunk (aborted_at signal k) world base chunk))
  | (stats', None) =>
      (fst (run_chunks signal world (S k) (base + length chunk) rest stats'),
       snd (run_chunk (aborted_at signal k) world base chunk) ++
       snd (run_chunks signal world (S k) (base + length chunk) rest stats'))
  end.
Proof.
  unfold run_chunks, run_chunk. cbn [Orchestrator.run_chunks].
  destruct (Orchestrator.run_chunk _ _ _ (aborted_at signal k) world base
              chunk) as [res evs].
  cbn [fst snd].
  destruct (aggregate config res stats) as [stats' [e|]]; [reflexivity|].
  destruct (Orchestrator.run_chunks _ _ _ signal world (S k)
              (base + length chunk) rest stats').
  reflexivity.
Qed.

(** A loop that ends without exception has aggregated every scenario of
    every chunk, and started each of them. *)
Lemma run_chunks_none (signal : option nat) (world : nat -> ScenarioWorld)
    (chunks : list (list TestPrompt)) :
  1 <= concurrency config ->
  forall k stats stats' evs,
    well_chunked (concurrency config) chunks ->
    run_chunks signal world k (k * concurrency config) chunks stats =
      ((stats', None), evs) ->
    total stats' = total stats /\
    passed stats' =
      passed stats +
      count_passed
        (results_from signal world (k * concurrency config)
           (concat chunks)) /\
    failed stats' =
      failed stats ++
      failed_tags
        (results_from signal world (k * concurrency config)
           (concat chunks)) /\
    started_tags evs = map tag (concat chunks).
Proof.
  intros Hc.
  induction chunks as [|chunk rest IH]; intros k stats stats' evs Hw H.
  - injection H as <- <-. cbn. rewrite Nat.add_0_r, app_nil_r. auto.
  - rewrite run_chunks_cons in H.
    destruct (well_chunked_head _ _ _ Hc Hw) as [Hbound Hrest].
    rewrite (run_chunk_results signal) in H
      by (apply chunk_sees_signal; lia).
    pose proof (run_chunk_started (aborted_at signal k) world chunk
                  (k * concurrency config)) as Hst.
    set (evs0 := snd (run_chunk (aborted_at signal k) world
                        (k * concurrency config) chunk)) in *.
    clearbody evs0.
    destruct (aggregate config _ stats) as [stats1 [e|]] eqn:Hagg;
      [discriminate|].
    apply aggregate_none in Hagg as (A1 & A2 & A3).
    destruct rest as [|chunk' rest'].
    + change (run_chunks signal world (S k)
                (k * concurrency config + length chunk) [] stats1)
        with ((stats1, @None error), @nil event) in H.
      cbn [fst snd] in H. injection H as <- <-.
      cbn [concat]. rewrite !app_nil_r, Hst. auto.
    + destruct (Hrest ltac:(discriminate)) as [Hl Hw'].
      replace (k * concurrency config + length chunk)
        with (S k * concurrency config) in H by (rewrite Hl; lia).
      destruct (run_chunks signal world (S k) (S k * concurrency config)
                  (chunk' :: rest') stats1) as [[stats2 err] evs2] eqn:Hnext.
      cbn [fst snd] in H. injection H as -> -> <-.
      apply (IH _ _ _ _ Hw') in Hnext as (B1 & B2 & B3 & B4).
      change (concat (chunk :: chunk' :: rest'))
        with (chunk ++ concat (chunk' :: rest')).
      rewrite results_from_app, count_passed_app, failed_tags_app.
      replace (k * concurrency config + length chunk)
        with (S k * concurrency config) by (rewrite Hl; lia).
      rewrite started_tags_app, Hst, B4, map_app.
      repeat split.
      * congruence.
      * lia.
      * rewrite B3, A3, app_assoc. reflexivity.
Qed.

(** With [continueOnFailure] on, the loop never throws. *)
Lemma run_chunks_continue (signal : option nat)
    (world : nat -> ScenarioWorld) (chunks : list (list TestPrompt)) :
  continueOnFailure config = true ->
  forall k base stats,
    exists stats' evs,
      run_chunks signal world k base chunks stats = ((stats', None), evs).
Proof.
  intros Hc.
  induction chunks as [|chunk rest IH]; intros k base stats.
  - eexists; eexists; reflexivity.
  - rewrite run_chunks_cons.
    destruct (aggregate_continue
                (fst (run_chunk (aborted_at signal k) world base chunk))
                Hc stats) as [stats1 ->].
    destruct (IH (S k) (base + length chunk) stats1) as (stats2 & evs2 & ->).
    eexists; eexists; reflexivity.
Qed.

(** With [continueOnFailure] off, the loop stops after the chunk of the
    first scenario that fails, with the error that names it. *)
Lemma run_chunks_abort (signal : option nat) (world : nat -> ScenarioWorld)
    (chunks : list (list TestPrompt)) :
  1 <= concurrency config ->
  continueOnFailure config = false ->
  forall k stats before p after,
    well_chunked (concurrency config) chunks ->
    concat chunks = before ++ p :: after ->
    Forall (fun r => snd r = true)
      (results_from signal world (k * concurrency config) before) ->
    passes (runScenario
              (signal_seen signal (k * concurrency config + length before))
              p (world (k * concurrency config + length before))) = false ->
    exists evs,
      run_chunks signal world k (k * concurrency config) chunks stats =
      ((mk_stats (total stats) (passed stats + length before)
          (failed stats ++ [tag p]),
        Some (abort_error p)), evs) /\
      started_tags evs =
        map tag
          (firstn (concurrency config *
                   (length before / concurrency config + 1))
             (concat chunks)).
Proof.
  intros Hc Hstop.
  induction chunks as [|chunk rest IH];
    intros k stats before p after Hw Hcat Hpass Hfail.
  - destruct before; discriminate.
  - rewrite run_chunks_cons.
    destruct (well_chunked_head _ _ _ Hc Hw) as [Hbound Hrest].
    rewrite (run_chunk_results signal) by (apply chunk_sees_signal; lia).
    pose proof (run_chunk_started (aborted_at signal k) world chunk
                  (k * concurrency config)) as Hst.
    set (evs0 := snd (run_chunk (aborted_at signal k) world
                        (k * concurrency config) chunk)) in *.
    clearbody evs0.
    cbn [concat] in *.
    destruct (Nat.lt_ge_cases (length before) (length chunk)) as [Hin|Hout].
    + (* the failing scenario is in this chunk *)
      destruct (app_eq_split_short _ _ _ _ _ Hcat Hin) as [tl Hchunk].
      assert (Hfirst : firstn (concurrency config *
                               (length before / concurrency config + 1))
                         (chunk ++ concat rest) = chunk).
      { rewrite Nat.div_small, Nat.mul_1_r by lia.
        destruct rest as [|ch rest'].
        - cbn [concat]. rewrite app_nil_r. apply firstn_all2. lia.
        - destruct (Hrest ltac:(discriminate)) as [Hl _].
          rewrite <- Hl, firstn_app_le, firstn_all by lia. reflexivity. }
      rewrite Hfirst. clear Hfirst. subst chunk.
      rewrite results_from_app, results_from_cons.
      fold runScenario. rewrite Hfail.
      rewrite (aggregate_abort _ _ p Hstop Hpass).
      rewrite results_from_length.
      eexists. split; [reflexivity|]. exact Hst.
    + (* the whole chunk passes *)
      assert (Hne : rest <> []).
      { intros ->. cbn [concat] in Hcat. rewrite app_nil_r in Hcat.
        apply (f_equal (@length _)) in Hcat.
        rewrite length_app in Hcat. cbn in Hcat. lia. }
      destruct (Hrest Hne) as [Hl Hw'].
      destruct (app_eq_split_long _ _ _ _ Hcat Hout)
        as (before' & Hsplit & Hcat').
      assert (Hlb : length before = concurrency config + length before').
      { rewrite Hsplit, length_app. lia. }
      rewrite Hsplit, results_from_app in Hpass.
      apply Forall_app in Hpass as [Hpass1 Hpass2].
      rewrite (aggregate_all_passed _ Hpass1).
      rewrite results_from_length.
      replace (k * concurrency config + length chunk)
        with (S k * concurrency config) in * by (rewrite Hl; lia).
      replace (k * concurrency config + length before)
        with (S k * concurrency config + length before') in Hfail by lia.
      destruct (IH (S k)
                  (mk_stats (total stats) (passed stats + length chunk)
                     (failed stats))
                  before' p after Hw' Hcat' Hpass2 Hfail)
        as (evs & Hrun & Hstarted).
      rewrite Hrun. cbn [fst snd total passed failed].
      eexists. split; [f_equal; f_equal; f_equal; lia|].
      rewrite started_tags_app, Hst, Hstarted, <- map_app.
      f_equal.
      replace (concurrency config *
               (length before / concurrency config + 1))
        with (length chunk +
              concurrency config *
              (length before' / concurrency config + 1)).
      * rewrite firstn_app_2. reflexivity.
      * rewrite Hlb, Hl.
        replace (concurrency config + length before')
          with (1 * concurrency config + length before') by lia.
        rewrite Nat.div_add_l by lia. lia.
Qed.

Lemma results_from_all_pass (signal : option nat)
    (world : nat -> ScenarioWorld) (l : list TestPrompt) :
  forall base,
    (forall j q, nth_error l j = Some q ->
       passes (runScenario (signal_seen signal (base + j)) q
                 (world (base + j))) = true) ->
    Forall (fun r => snd r = true) (results_from signal world base l).
Proof.
  induction l as [|p l IH]; intros base H; [constructor|].
  rewrite results_from_cons. constructor.
  - cbn [snd]. specialize (H 0 p eq_refl).
    rewrite Nat.add_0_r in H. exact H.
  - apply IH. intros j q Hj. specialize (H (S j) q Hj).
    replace (S base + j) with (base + S j) by lia. exact H.
Qed.

Lemma results_from_failed (signal : option nat)
    (world : nat -> ScenarioWorld) (l : list TestPrompt) :
  forall base j p,
    nth_error l j = Some p ->
    passes (runScenario (signal_seen signal (base + j)) p
              (world (base + j))) = false ->
    In (tag p) (failed_tags (results_from signal world base l)).
Proof.
  induction l as [|q l IH]; intros base j p Hj Hf.
  - destruct j; discriminate.
  - rewrite results_from_cons.
    match goal with
    | |- In _ (failed_tags (?x :: ?r)) =>
        change (x :: r) with ([x] ++ r)
    end.
    rewrite failed_tags_app. apply in_or_app.
    destruct j as [|j].
    + injection Hj as ->. rewrite Nat.add_0_r in Hf.
      left. unfold failed_tags. cbn. rewrite Hf. cbn. auto.
    + right. apply (IH (S base) j p Hj).
      replace (S base + j) with (base + S j) by lia. exact Hf.
Qed.

(** Before a scenario that fails stands the first scenario that
    fails. *)
Lemma first_failure_from (signal : option nat)
    (world : nat -> ScenarioWorld) (l : list TestPrompt) :
  forall base j p,
    nth_error l j = Some p ->
    passes (runScenario (signal_seen signal (base + j)) p
              (world (base + j))) = false ->
    exists before q after,
      l = before ++ q :: after /\
      length before <= j /\
      (forall k r, nth_error before k = Some r ->
         passes (runScenario (signal_seen signal (base + k)) r
                   (world (base + k))) = true) /\
      passes (runScenario (signal_seen signal (base + length before)) q
                (world (base + length before))) = false.
Proof.
  induction l as [|x l IH]; intros base j p Hj Hf.
  - destruct j; discriminate.
  - destruct (passes (runScenario (signal_seen signal base) x (world base)))
      eqn:Hx.
    + destruct j as [|j].
      * injection Hj as ->. rewrite Nat.add_0_r in Hf. congruence.
      * cbn [nth_error] in Hj.
        replace (base + S j) with (S base + j) in Hf by lia.
        destruct (IH (S base) j p Hj Hf)
          as (before & q & after & -> & Hlen & Hp & Hq).
        exists (x :: before), q, after. split; [reflexivity|].
        cbn [length]. split; [lia|]. split.
        -- intros [|k] r Hk.
           ++ injection Hk as <-. now rewrite Nat.add_0_r.
           ++ replace (base + S k) with (S base + k) by lia.
              now apply Hp.
        -- now replace (base + S (length before))
             with (S base + length before) by lia.
    + exists [], x, l. split; [reflexivity|]. cbn [length].
      split; [lia|]. split.
      * intros [|k] r Hk; discriminate.
      * now rewrite Nat.add_0_r.
Qed.

Lemma first_failure (signal : option nat) (world : nat -> ScenarioWorld)
    (l : list TestPrompt) (j : nat) (p : TestPrompt) :
  nth_error l j = Some p ->
  passes (runScenario (signal_seen signal j) p (world j)) = false ->
  exists before q after,
    l = before ++ q :: after /\
    length before <= j /\
    (forall k r, nth_error before k = Some r ->
       passes (runScenario (signal_seen signal k) r (world k)) = true) /\
    passes (runScenario (signal_seen signal (length before)) q
              (world (length before))) = false.
Proof.
  intros Hj Hf. exact (first_failure_from signal world l 0 j p Hj Hf).
Qed.

(** *** [main] *)

Lemma main_unfold (prompts : list TestPrompt) (tagToRun : option string)
    (signal : option nat) (world : nat -> ScenarioWorld)
    (chunks : list (list TestPrompt)) :
  select prompts tagToRun <> [] ->
  make_chunks (concurrency config) (select prompts tagToRun) = Some chunks ->
  main prompts tagToRun signal world =
  Some
    match run_chunks signal world 0 0 chunks
            (mk_stats (length (select prompts tagToRun)) 0 []) with
    | ((_, Some e), evs) => (Aborted e, evs)
    | ((stats', None), evs) => (Completed stats', evs)
    end.
Proof.
  intros Hne Hch. unfold main, Orchestrator.main.
  destruct (select prompts tagToRun) as [|p l] eqn:Hsel; [congruence|].
  cbn [length Nat.eqb]. rewrite Hch.
  unfold run_chunks.
  destruct (Orchestrator.run_chunks _ _ _ signal world 0 0 chunks _)
    as [[stats' [e|]] evs]; reflexivity.
Qed.

Lemma main_some (prompts : list TestPrompt) (tagToRun : option string)
    (signal : option nat) (world : nat -> ScenarioWorld)
    (r : main_result) (evs : list event) :
  main prompts tagToRun signal world = Some (r, evs) ->
  r <> NoScenarios ->
  select prompts tagToRun <> [] /\
  exists chunks,
    make_chunks (concurrency config) (select prompts tagToRun)
      = Some chunks /\
    1 <= concurrency config /\
    concat chunks = select prompts tagToRun /\
    well_chunked (concurrency config) chunks.
Proof.
  intros H Hr.
  assert (Hne : select prompts tagToRun <> []).
  { intros Hnil. unfold main, Orchestrator.main in H.
    rewrite Hnil in H. cbn in H. injection H as <- _. congruence. }
  split; [exact Hne|].
  destruct (make_chunks (concurrency config) (select prompts tagToRun))
    as [chunks|] eqn:Hch.
  - exists chunks. split; [reflexivity|].
    apply (make_chunks_inv _ _ _ Hne Hch).
  - unfold main, Orchestrator.main in H.
    destruct (select prompts tagToRun); [congruence|].
    cbn [length Nat.eqb] in H. rewrite Hch in H. discriminate.
Qed.

(** With [continueOnFailure] on and a concurrency of 1 or more, a run
    with scenarios is completed: the statistics count the result of
    every selected scenario, and every one of them was started. *)
Lemma main_completes (prompts : list TestPrompt)
    (tagToRun : option string) (signal : option nat)
    (world : nat -> ScenarioWorld) :
  1 <= concurrency config ->
  continueOnFailure config = true ->
  select prompts tagToRun <> [] ->
  exists evs,
    main prompts tagToRun signal world =
      Some (Completed
              (mk_stats (length (select prompts tagToRun))
                 (count_passed
                    (results_from signal world 0 (select prompts tagToRun)))
                 (failed_tags
                    (results_from signal world 0 (select prompts tagToRun)))),
            evs) /\
    started_tags evs = map tag (select prompts tagToRun).
Proof.
  intros Hc Hcf Hne.
  destruct (make_chunks_spec (concurrency config) (select prompts tagToRun)
              Hc) as (chunks & Hch & Hcat & Hw).
  rewrite (main_unfold _ _ signal world _ Hne Hch).
  destruct (run_chunks_continue signal world chunks Hcf 0 0
              (mk_stats (length (select prompts tagToRun)) 0 []))
    as (stats' & evs & Hrun).
  rewrite Hrun. exists evs.
  apply (run_chunks_none signal world chunks Hc 0) in Hrun
    as (H1 & H2 & H3 & H4); [|exact Hw].
  cbn [Nat.mul total passed failed Nat.add app] in *. rewrite Hcat in *.
  split; [|exact H4].
  destruct stats' as [t p f]. cbn [total passed failed] in *.
  now subst.
Qed.

(** With [continueOnFailure] off, the run is aborted by the first
    scenario of the selection that fails, after the chunk of that
    scenario. *)
Lemma main_aborts (prompts : list TestPrompt) (tagToRun : option string)
    (signal : option nat) (world : nat -> ScenarioWorld)
    (before : list TestPrompt) (p : TestPrompt) (after : list TestPrompt) :
  1 <= concurrency config ->
  continueOnFailure config = false ->
  select prompts tagToRun = before ++ p :: after ->
  (forall j q, nth_error before j = Some q ->
     passes (runScenario (signal_seen signal j) q (world j)) = true) ->
  passes (runScenario (signal_seen signal (length before)) p
            (world (length before))) = false ->
  exists evs,
    main prompts tagToRun signal world =
      Some (Aborted (abort_error p), evs) /\
    started_tags evs =
      map tag (firstn (concurrency config *
                       (length before / concurrency config + 1))
                 (before ++ p :: after)).
Proof.
  intros Hc Hstop Hsel Hpass Hfail.
  assert (Hne : select prompts tagToRun <> []).
  { rewrite Hsel. destruct before; discriminate. }
  destruct (make_chunks_spec (concurrency config) (select prompts tagToRun)
              Hc) as (chunks & Hch & Hcat & Hw).
  rewrite (main_unfold _ _ signal world _ Hne Hch).
  rewrite Hsel in Hcat.
  destruct (run_chunks_abort signal world chunks Hc Hstop 0
              (mk_stats (length (select prompts tagToRun)) 0 [])
              before p after Hw Hcat
              (results_from_all_pass signal world before 0 Hpass) Hfail)
    as (evs & Hrun & Hstarted).
  cbn [Nat.mul] in Hrun. rewrite Hrun.
  exists evs. split; [reflexivity|]. rewrite Hstarted, Hcat. reflexivity.
Qed.

(** C8. When the run is completed (every chunk processed to the end),
    the final statistics satisfy [passed + failed.length = total], where
    [total] is the number of selected scenarios: there is one result for
    each selected scenario, in order, which either counts in [passed] or
    puts the tag of its scenario in [failed]. *)
Theorem C8_completed_run_accounts (prompts : list TestPrompt)
    (tagToRun : option string) (signal : option nat)
    (world : nat -> ScenarioWorld) (stats : RunStats) (evs : list event) :
  main prompts tagToRun signal world = Some (Completed stats, evs) ->
  passed stats + length (failed stats) = total stats /\
  total stats = length (select prompts tagToRun) /\
  exists results,
    map fst results = select prompts tagToRun /\
    passed stats = count_passed results /\
    failed stats = failed_tags results.
Proof.
  intros H.
  destruct (main_some _ _ _ _ _ _ H ltac:(discriminate))
    as (Hne & chunks & Hch & Hc & Hcat & Hw).
  rewrite (main_unfold _ _ signal world _ Hne Hch) in H.
  destruct (run_chunks signal world 0 0 chunks _)
    as [[stats' [e|]] evs'] eqn:Hrun; [discriminate|].
  injection H as -> ->.
  apply (run_chunks_none signal world chunks Hc 0) in Hrun
    as (H1 & H2 & H3 & H4); [|exact Hw].
  cbn [Nat.mul total passed failed Nat.add app] in *.
  rewrite Hcat in *.
  pose proof (count_failed_length
                (results_from signal world 0 (select prompts tagToRun)))
    as Hn.
  rewrite results_from_length in Hn.
  repeat split.
  - rewrite H1, H2, H3. exact Hn.
  - exact H1.
  - exists (results_from signal world 0 (select prompts tagToRun)).
    rewrite results_from_scenarios. auto.
Qed.

(** C5 (amended). With [continueOnFailure] off, when a scenario fails
    after all the scenarios before it have passed, the run ends in the
    [catch] block of [main] with an [OrchestrationError] whose details
    carry the tag of that scenario; the scenarios that were started are
    those of the chunks up to its own, so no scenario of a later chunk
    runs.  With concurrency 1 these are the scenarios up to the failing
    one: of three scenarios whose first failure is the second, the third
    is never started.  What is left of the run is the error: its message
    and its details are logged, no summary is, and the process exits with
    code 1. *)
Theorem C5_first_failure_aborts (prompts : list TestPrompt)
    (tagToRun : option string) (signal : option nat)
    (world : nat -> ScenarioWorld)
    (before : list TestPrompt) (p : TestPrompt) (after : list TestPrompt) :
  1 <= concurrency config ->
  continueOnFailure config = false ->
  select prompts tagToRun = before ++ p :: after ->
  (forall j q, nth_error before j = Some q ->
     passes (runScenario (signal_seen signal j) q (world j)) = true) ->
  passes (runScenario (signal_seen signal (length before)) p
            (world (length before))) = false ->
  exists r evs,
    main prompts tagToRun signal world = Some (r, evs) /\
    r = Aborted
          (OrchestrationError "Test run aborted due to failure"
             (Some ("Failed scenario: " ++ tag p)%string)) /\
    started_tags evs =
      map tag (firstn (concurrency config *
                       (length before / concurrency config + 1))
                 (before ++ p :: after)) /\
    (concurrency config = 1 -> started_tags evs = map tag (before ++ [p])) /\
    closing_log r =
      [OrchestrationErrorLine "Test run aborted due to failure";
       DetailsLine ("Failed scenario: " ++ tag p)%string] /\
    filter is_summary (closing_log r) = [] /\
    process_exit r = Some 1.
Proof.
  intros Hc Hstop Hsel Hpass Hfail.
  assert (Hne : select prompts tagToRun <> []).
  { rewrite Hsel. destruct before; discriminate. }
  destruct (make_chunks_spec (concurrency config) (select prompts tagToRun)
              Hc) as (chunks & Hch & Hcat & Hw).
  rewrite (main_unfold _ _ signal world _ Hne Hch).
  rewrite Hsel in Hcat.
  destruct (run_chunks_abort signal world chunks Hc Hstop 0
              (mk_stats (length (select prompts tagToRun)) 0 [])
              before p after Hw Hcat
              (results_from_all_pass signal world before 0 Hpass) Hfail)
    as (evs & Hrun & Hstarted).
  cbn [Nat.mul] in Hrun. rewrite Hrun. rewrite Hcat in Hstarted.
  exists (Aborted (abort_error p)), evs.
  split; [reflexivity|]. split; [reflexivity|].
  split; [exact Hstarted|]. split; [|repeat split].
  intros H1. rewrite Hstarted, H1, Nat.div_1_r, Nat.mul_1_l.
  replace (before ++ p :: after) with ((before ++ [p]) ++ after)
    by (rewrite <- app_assoc; reflexivity).
  rewrite firstn_app_le, firstn_all2;
    rewrite ?length_app; cbn [length]; try lia.
  reflexivity.
Qed.

(** A scenario that fails makes the run end with exit code 1: either
    the loop is completed with its tag among the failed ones, or the run
    is aborted by the first scenario that fails, which stands at its
    position or before. *)
Lemma main_with_failing_scenario (prompts : list TestPrompt)
    (tagToRun : option string) (signal : option nat)
    (world : nat -> ScenarioWorld) (j : nat) (p : TestPrompt) :
  1 <= concurrency config ->
  nth_error (select prompts tagToRun) j = Some p ->
  passes (runScenario (signal_seen signal j) p (world j)) = false ->
  exists r evs,
    main prompts tagToRun signal world = Some (r, evs) /\
    process_exit r = Some 1 /\
    match r with
    | NoScenarios => False
    | Completed stats =>
        continueOnFailure config = true /\
        In (tag p) (failed stats) /\
        started_tags evs = map tag (select prompts tagToRun)
    | Aborted e =>
        continueOnFailure config = false /\
        exists i q,
          i <= j /\
          nth_error (select prompts tagToRun) i = Some q /\
          passes (runScenario (signal_seen signal i) q (world i)) = false /\
          (forall k r', k < i ->
             nth_error (select prompts tagToRun) k = Some r' ->
             passes (runScenario (signal_seen signal k) r' (world k))
               = true) /\
          e = abort_error q /\
          started_tags evs =
            map tag (firstn (concurrency config *
                             (i / concurrency config + 1))
                       (select prompts tagToRun))
    end.
Proof.
  intros Hc Hj Hfail.
  assert (Hne : select prompts tagToRun <> []).
  { intros Hnil. rewrite Hnil in Hj. destruct j; discriminate. }
  destruct (continueOnFailure config) eqn:Hcf.
  - destruct (main_completes prompts tagToRun signal world Hc Hcf Hne)
      as (evs & Hmain & Hstarted).
    pose proof (results_from_failed signal world _ 0 j p Hj Hfail) as Hin.
    eexists. exists evs. split; [exact Hmain|].
    cbn [process_exit failed].
    split; [|auto].
    destruct (failed_tags _); [destruct Hin | reflexivity].
  - destruct (first_failure signal world _ j p Hj Hfail)
      as (before & q & after & Hl & Hlen & Hp & Hq).
    destruct (main_aborts prompts tagToRun signal world before q after
                Hc Hcf Hl Hp Hq) as (evs & Hmain & Hstarted).
    eexists. exists evs. split; [exact Hmain|].
    split; [reflexivity|]. split; [reflexivity|].
    exists (length before), q. split; [exact Hlen|]. rewrite Hl.
    split; [now rewrite nth_error_app2, Nat.sub_diag by lia|].
    split; [exact Hq|]. split; [|split; [reflexivity | exact Hstarted]].
    intros k r' Hk Hr'. apply Hp.
    now rewrite nth_error_app1 in Hr' by lia.
Qed.

(** *** The race of [runScenario]

    Which promise settles first is an input of the model; the two lemmas
    say what [runScenario] makes of it once the prompt is accepted. *)

Lemma runScenario_timer_first (p : TestPrompt) (w : ScenarioWorld)
    (expanded : string) :
  str_falsy (trim (prompt p)) = false ->
  interpolateConfigPlaceholders C (prompt p) = Normal expanded ->
  winner w = TimerSettlesFirst ->
  runScenario false p w =
  mk_run false
    [ScenarioStarted (tag p);
     TimerSet (scenarioTimeout config);
     RunnerCalled expanded (tag p) (retryAttempts config)]
    [ScenarioFailed (tag p)
       ("Scenario timed out after " ++
        num_to_string (scenarioTimeout config) ++ "ms")%string].
Proof.
  intros He Hi Hw.
  unfold runScenario, Orchestrator.runScenario, enter_scenario, race.
  rewrite He, Hi, Hw. reflexivity.
Qed.

Lemma runScenario_runner_first (p : TestPrompt) (w : ScenarioWorld)
    (expanded : string) :
  str_falsy (trim (prompt p)) = false ->
  interpolateConfigPlaceholders C (prompt p) = Normal expanded ->
  winner w = RunnerSettlesFirst ->
  passes (runScenario false p w) =
  match fst (RerunHandler.runWithRetries resolve_test_path expanded (tag p)
               (retryAttempts config) RerunHandler.default_options
               (generate w) (exec w)) with
  | Normal _ => true
  | Throws _ => false
  end.
Proof.
  intros He Hi Hw.
  unfold runScenario, Orchestrator.runScenario, enter_scenario, race.
  rewrite He, Hi, Hw.
  destruct (fst (RerunHandler.runWithRetries _ _ _ _ _ _ _)); reflexivity.
Qed.

(** The resolution of a template that holds a recognised placeholder
    with an unknown key throws the error that lists the valid keys. *)
Lemma interpolate_unknown_key (pre KEY post : string) :
  KEY <> "" -> all_key_chars KEY = true -> has_key C KEY = false ->
  exists key,
    has_key C key = false /\
    interpolateConfigPlaceholders C
      (pre ++ "${CONFIG." ++ KEY ++ "}" ++ post) =
    Throws (ThrownError (unknown_key_error C key)).
Proof.
  intros Hne Hk Hmiss. unfold interpolateConfigPlaceholders.
  change ("${CONFIG." ++ KEY ++ "}" ++ post)%string
    with (String "$" ("{CONFIG." ++ KEY ++ String "}" post)).
  rewrite replace_all_app_dollar.
  assert (Hhere : replace_all C
                    (String "$" ("{CONFIG." ++ KEY ++ String "}" post)) =
                  Throws (ThrownError (unknown_key_error C KEY))).
  { pose proof (match_placeholder_key KEY post Hne Hk) as Hm.
    change (opener ++ KEY ++ String "}" post)%string
      with (String "$" ("{CONFIG." ++ KEY ++ String "}" post)) in Hm.
    rewrite (replace_all_match C _ _ _ _ Hm).
    unfold replacer. rewrite Hmiss. reflexivity. }
  rewrite Hhere.
  destruct (replace_all C pre) as [a|t] eqn:Hpre.
  - exists KEY. auto.
  - destruct (replace_all_throws C pre t Hpre) as (key & Hkey & ->).
    exists key. auto.
Qed.

(** C4 (amended). When the template of a scenario holds a placeholder
    whose key, made of [[A-Z0-9_]], is not a key of the configuration,
    the resolution throws an [OrchestrationError] whose details list the
    valid keys.  [runScenario] catches it in the turn of the call: the
    scenario is reported as failed and its retry runner is never called.
    The run does not fail with that error.  With [continueOnFailure] on
    it is completed, with the tag of the scenario among the failed ones
    and every selected scenario started.  With [continueOnFailure] off it
    is aborted with the abort error, which names the first scenario of
    the selection that failed (this one or one before it), after the
    chunk of that scenario.  In both cases the process exits with
    code 1. *)
Theorem C4_unknown_key_fails_scenario (p : TestPrompt)
    (pre KEY post : string) :
  prompt p = (pre ++ "${CONFIG." ++ KEY ++ "}" ++ post)%string ->
  KEY <> "" -> all_key_chars KEY = true -> has_key C KEY = false ->
  (exists key,
     has_key C key = false /\
     interpolateConfigPlaceholders C (prompt p) =
     Throws (ThrownError (OrchestrationError
       ("Unknown configuration key: " ++ key)%string
       (Some ("Available keys: " ++ join ", " (config_keys C))%string)))) /\
  (forall aborted w,
     passes (runScenario aborted p w) = false /\
     runner_tags (at_call (runScenario aborted p w)) = [] /\
     at_settle (runScenario aborted p w) = []) /\
  (forall prompts tagToRun signal world j,
     1 <= concurrency config ->
     nth_error (select prompts tagToRun) j = Some p ->
     exists r evs,
       main prompts tagToRun signal world = Some (r, evs) /\
       process_exit r = Some 1 /\
       match r with
       | NoScenarios => False
       | Completed stats =>
           continueOnFailure config = true /\
           In (tag p) (failed stats) /\
           started_tags evs = map tag (select prompts tagToRun)
       | Aborted e =>
           continueOnFailure config = false /\
           exists i q,
             i <= j /\
             nth_error (select prompts tagToRun) i = Some q /\
             passes (runScenario (signal_seen signal i) q (world i))
               = false /\
             (forall k r', k < i ->
                nth_error (select prompts tagToRun) k = Some r' ->
                passes (runScenario (signal_seen signal k) r' (world k))
                  = true) /\
             e = OrchestrationError "Test run aborted due to failure"
                   (Some ("Failed scenario: " ++ tag q)%string) /\
             started_tags evs =
               map tag (firstn (concurrency config *
                                (i / concurrency config + 1))
                          (select prompts tagToRun))
       end).
Proof.
  intros Hprompt Hne Hk Hmiss.
  destruct (interpolate_unknown_key pre KEY post Hne Hk Hmiss)
    as (key & Hkey & Hthrow).
  rewrite <- Hprompt in Hthrow.
  assert (Hrun : forall aborted w,
    passes (runScenario aborted p w) = false /\
    runner_tags (at_call (runScenario aborted p w)) = [] /\
    at_settle (runScenario aborted p w) = []).
  { intros aborted w.
    assert (Hin : exists t, enter_scenario C aborted p = Throws t).
    { unfold enter_scenario. destruct aborted; [eauto|].
      destruct (str_falsy (trim (prompt p))); [eauto|].
      rewrite Hthrow. eauto. }
    destruct Hin as [t Ht].
    rewrite (runScenario_refused aborted p w t Ht). auto. }
  split; [exists key; split; [exact Hkey | exact Hthrow]|].
  split; [exact Hrun|].
  intros prompts tagToRun signal world j Hc Hj.
  apply (main_with_failing_scenario prompts tagToRun signal world j p Hc Hj).
  apply Hrun.
Qed.

(** C9 (amended). A scenario whose prompt is empty or white space only
    is reported as failed by [runScenario], with the error
    "Empty prompt" (which carries no details), before any placeholder is
    resolved and without its retry runner being called.  The run does
    not stop there.  With [continueOnFailure] on it is completed, with
    the tag among the failed ones and every selected scenario started.
    With [continueOnFailure] off it is aborted with the abort error,
    which names the first scenario of the selection that failed (this
    one or one before it); the scenarios of the chunks up to that one
    were started, those of the later chunks were not.  In both cases the
    process exits with code 1. *)
Theorem C9_empty_prompt_fails_scenario (p : TestPrompt) :
  trim (prompt p) = "" ->
  (forall aborted,
     enter_scenario C aborted p =
     Throws (ThrownError (OrchestrationError
        (if aborted then "Scenario aborted by user" else "Empty prompt")
        None))) /\
  (forall aborted w,
     runScenario aborted p w =
     mk_run false
       [ScenarioStarted (tag p);
        ScenarioFailed (tag p)
          (if aborted then "Scenario aborted by user" else "Empty prompt")]
       []) /\
  (forall prompts tagToRun signal world j,
     1 <= concurrency config ->
     nth_error (select prompts tagToRun) j = Some p ->
     exists r evs,
       main prompts tagToRun signal world = Some (r, evs) /\
       process_exit r = Some 1 /\
       match r with
       | NoScenarios => False
       | Completed stats =>
           continueOnFailure config = true /\
           In (tag p) (failed stats) /\
           started_tags evs = map tag (select prompts tagToRun)
       | Aborted e =>
           continueOnFailure config = false /\
           exists i q,
             i <= j /\
             nth_error (select prompts tagToRun) i = Some q /\
             passes (runScenario (signal_seen signal i) q (world i))
               = false /\
             (forall k r', k < i ->
                nth_error (select prompts tagToRun) k = Some r' ->
                passes (runScenario (signal_seen signal k) r' (world k))
                  = true) /\
             e = OrchestrationError "Test run aborted due to failure"
                   (Some ("Failed scenario: " ++ tag q)%string) /\
             started_tags evs =
               map tag (firstn (concurrency config *
                                (i / concurrency config + 1))
                          (select prompts tagToRun))
       end).
Proof.
  intros Hempty.
  assert (Htry : forall aborted,
    enter_scenario C aborted p =
    Throws (ThrownError (OrchestrationError
       (if aborted then "Scenario aborted by user" else "Empty prompt")
       None))).
  { intros aborted. unfold enter_scenario.
    destruct aborted; [reflexivity|].
    rewrite Hempty. reflexivity. }
  assert (Hrun : forall aborted w,
    runScenario aborted p w =
    mk_run false
      [ScenarioStarted (tag p);
       ScenarioFailed (tag p)
         (if aborted then "Scenario aborted by user" else "Empty prompt")]
      []).
  { intros aborted w.
    rewrite (runScenario_refused aborted p w _ (Htry aborted)).
    destruct aborted; reflexivity. }
  split; [exact Htry|]. split; [exact Hrun|].
  intros prompts tagToRun signal world j Hc Hj.
  apply (main_with_failing_scenario prompts tagToRun signal world j p Hc Hj).
  rewrite Hrun. reflexivity.
Qed.

End Orchestration.

(** ** The theorems at work on sample inputs *)

Section Samples.

Import Js Orchestrator Sample.

(** C3 at work: three attempts, 100 ms: the sleeps are 100 and 200. *)
Lemma C3_backoff_doubles_witness :
  1 <= SafeActions.retries click_options /\
  (forall k, exists err, detached k = Throws err) /\
  exists r evs,
    SafeActions.withRetry detached click_options "Click" (Some "#submit") =
      (Normal r, evs) /\
    SafeActions.success r = false /\
    SafeActions.attempts r = 3 /\
    SafeActions.time_line evs =
      [SafeActions.CallAction 1; SafeActions.Sleep 100;
       SafeActions.CallAction 2; SafeActions.Sleep 200;
       SafeActions.CallAction 3].
Proof.
  split; [cbn; lia|].
  split; [intros k; eexists; reflexivity|].
  destruct (C3_backoff_doubles detached click_options "Click"
              (Some "#submit"))
    as (res & evs & Hrun & Hret & _ & _ & Hquiet).
  - cbn. lia.
  - intros k. eexists. reflexivity.
  - destruct Hquiet as [r ->].
    + intros callback e k H. discriminate.
    + destruct (Hret r eq_refl) as (Hs & Ha & Htl & _).
      exists r, evs. repeat split; assumption.
Defined.

(** C7 at work: the outcome of three failed clicks. *)
Lemma C7_outcome_not_exception_witness :
  1 <= SafeActions.retries click_options /\
  exists r evs,
    SafeActions.withRetry detached click_options "Click" (Some "#submit") =
      (Normal r, evs) /\
    (SafeActions.success r = false ->
     SafeActions.attempts r = 3 /\
     exists err,
       detached 3 = Throws err /\
       SafeActions.error_of r =
         Some (SafeActions.mk_safe_error
                 ("Click" ++ " failed after " ++ num_to_string 3 ++
                  " attempts: " ++ message_of err)%string
                 (Some "#submit") (Some 3) (SafeActions.cause_of err))).
Proof.
  split; [cbn; lia|].
  destruct (C7_outcome_not_exception detached click_options "Click"
              (Some "#submit"))
    as (_ & Hret & Hfail & _).
  - cbn. lia.
  - destruct Hret as (r & evs & Hrun).
    + intros callback e k H. discriminate.
    + exists r, evs. split; [exact Hrun|]. exact (Hfail r evs Hrun).
Defined.

(** C10 at work: a lower-case key is left as it is. *)
Lemma C10_unrecognised_placeholder_verbatim_witness :
  has_char "}" "baseUrl" = false /\
  occurs opener "baseUrl" = false /\
  all_key_chars "baseUrl" = false /\
  has_key CONFIG "baseUrl" = false /\
  interpolateConfigPlaceholders CONFIG "open ${CONFIG.baseUrl} now" =
  Normal "open ${CONFIG.baseUrl} now".
Proof.
  do 4 (split; [reflexivity|]).
  exact (C10_unrecognised_placeholder_verbatim CONFIG "open " "baseUrl"
           " now" eq_refl eq_refl eq_refl).
Defined.

(** C5 at work: three scenarios, two at a time; the first fails, the
    second is of its chunk, the third is never started. *)
Lemma C5_first_failure_aborts_witness :
  exists evs,
    main resolve_test_path CONFIG (config 2 false) [s1; s2; s3] None None
      first_is_slow =
      Some (Aborted
              (OrchestrationError "Test run aborted due to failure"
                 (Some "Failed scenario: s1")),
            evs) /\
    started_tags evs = ["s1"; "s2"] /\
    closing_log
      (Aborted
         (OrchestrationError "Test run aborted due to failure"
            (Some "Failed scenario: s1"))) =
      [OrchestrationErrorLine "Test run aborted due to failure";
       DetailsLine "Failed scenario: s1"].
Proof.
  destruct (C5_first_failure_aborts resolve_test_path CONFIG
              (config 2 false) [s1; s2; s3] None None first_is_slow
              [] s1 [s2; s3])
    as (r & evs & Hmain & -> & Hstarted & _ & Hlog & _).
  - cbn. lia.
  - reflexivity.
  - reflexivity.
  - intros [|j] q H; discriminate.
  - reflexivity.
  - exists evs. split; [exact Hmain|]. split; [exact Hstarted | exact Hlog].
Defined.

(** C5 as the specification words it fails: when the run is aborted,
    [main] logs the message and the details of the error and exits; the
    summary, with the count of the passed scenarios, is logged by a run
    that is completed only. *)
Lemma C5_abort_reports_no_statistics :
  main resolve_test_path CONFIG (config 1 false) [s1; s2; s3] None None
    (fun _ => failing 10) =
    Some (Aborted
            (OrchestrationError "Test run aborted due to failure"
               (Some "Failed scenario: s1")),
          [ScenarioStarted "s1"; TimerSet 50;
           RunnerCalled "open the home page" "s1" 2;
           ScenarioFailed "s1" "Test failed after 2 attempts: boom"]) /\
  closing_log
    (Aborted
       (OrchestrationError "Test run aborted due to failure"
          (Some "Failed scenario: s1"))) =
    [OrchestrationErrorLine "Test run aborted due to failure";
     DetailsLine "Failed scenario: s1"] /\
  (forall total passed failed,
     ~ In (Summary total passed failed)
          (closing_log
             (Aborted
                (OrchestrationError "Test run aborted due to failure"
                   (Some "Failed scenario: s1"))))).
Proof.
  split; [reflexivity|]. split; [reflexivity|].
  intros t p f [H|[H|[]]]; discriminate.
Qed.

(** C8 at work: the same three scenarios with [continueOnFailure] on.
    The first chunk starts its two scenarios in one turn; the second
    scenario settles before the first. *)
Lemma C8_completed_run_accounts_witness :
  main resolve_test_path CONFIG (config 2 true) [s1; s2; s3] None None
    first_is_slow =
    Some (Completed (mk_stats 3 0 ["s1"; "s2"; "s3"]),
          [ScenarioStarted "s1"; TimerSet 50;
           RunnerCalled "open the home page" "s1" 2;
           ScenarioStarted "s2"; TimerSet 50;
           RunnerCalled "log in as a tester" "s2" 2;
           ScenarioFailed "s2"
             "Test failed after 2 attempts: __dirname is not defined";
           ScenarioFailed "s1" "Test failed after 2 attempts: boom";
           ScenarioStarted "s3"; TimerSet 50;
           RunnerCalled "log out" "s3" 2;
           ScenarioFailed "s3"
             "Test failed after 2 attempts: __dirname is not defined"]) /\
  0 + length ["s1"; "s2"; "s3"] = 3.
Proof.
  assert (H : main resolve_test_path CONFIG (config 2 true) [s1; s2; s3]
                None None first_is_slow =
              Some (Completed (mk_stats 3 0 ["s1"; "s2"; "s3"]),
                [ScenarioStarted "s1"; TimerSet 50;
                 RunnerCalled "open the home page" "s1" 2;
                 ScenarioStarted "s2"; TimerSet 50;
                 RunnerCalled "log in as a tester" "s2" 2;
                 ScenarioFailed "s2"
                   "Test failed after 2 attempts: __dirname is not defined";
                 ScenarioFailed "s1" "Test failed after 2 attempts: boom";
                 ScenarioStarted "s3"; TimerSet 50;
                 RunnerCalled "log out" "s3" 2;
                 ScenarioFailed "s3"
                   "Test failed after 2 attempts: __dirname is not defined"]))
    by reflexivity.
  split; [exact H|].
  exact (proj1 (C8_completed_run_accounts resolve_test_path CONFIG
                  (config 2 true) [s1; s2; s3] None None first_is_slow
                  _ _ H)).
Defined.

(** C4 at work: the scenario [missing] in any world. *)
Lemma C4_unknown_key_fails_scenario_witness :
  (exists key,
     has_key CONFIG key = false /\
     interpolateConfigPlaceholders CONFIG (prompt missing) =
     Throws (ThrownError (OrchestrationError
       ("Unknown configuration key: " ++ key)%string
       (Some "Available keys: ENV, BASE_URL, USERNAME, PASSWORD, OPENAI_API_KEY")))) /\
  (forall aborted w,
     passes (runScenario resolve_test_path CONFIG (config 1 true) aborted
               missing w) = false /\
     runner_tags
       (at_call (runScenario resolve_test_path CONFIG (config 1 true)
                   aborted missing w)) = [] /\
     at_settle (runScenario resolve_test_path CONFIG (config 1 true)
                  aborted missing w) = []).
Proof.
  destruct (C4_unknown_key_fails_scenario resolve_test_path CONFIG
              (config 1 true) missing "open " "MISSING" " now")
    as (Hthrow & Hrun & _).
  - reflexivity.
  - discriminate.
  - reflexivity.
  - reflexivity.
  - split; [exact Hthrow | exact Hrun].
Defined.

(** C4 as the specification words it fails: a run whose only scenario
    names an unknown key is completed, with the scenario among the failed
    ones; with [continueOnFailure] off it is aborted with an error whose
    details name the scenario.  In neither case does an error that lists
    the valid keys leave [main]. *)
Lemma C4_run_does_not_raise_key_error :
  main resolve_test_path CONFIG (config 1 true) [missing] None None
    (fun _ => generating 10) =
    Some (Completed (mk_stats 1 0 ["missing"]),
          [ScenarioStarted "missing";
           ScenarioFailed "missing" "Unknown configuration key: MISSING"]) /\
  main resolve_test_path CONFIG (config 1 false) [missing] None None
    (fun _ => generating 10) =
    Some (Aborted
            (OrchestrationError "Test run aborted due to failure"
               (Some "Failed scenario: missing")),
          [ScenarioStarted "missing";
           ScenarioFailed "missing" "Unknown configuration key: MISSING"]).
Proof.
  split; reflexivity.
Qed.

(** C9 at work: the scenario [blank] in any world. *)
Lemma C9_empty_prompt_fails_scenario_witness :
  trim (prompt blank) = "" /\
  forall aborted w,
    runScenario resolve_test_path CONFIG (config 1 true) aborted blank w =
    mk_run false
      [ScenarioStarted "blank";
       ScenarioFailed "blank"
         (if aborted then "Scenario aborted by user" else "Empty prompt")]
      [].
Proof.
  split; [reflexivity|].
  exact (proj1 (proj2
           (C9_empty_prompt_fails_scenario resolve_test_path CONFIG
              (config 1 true) blank eq_refl))).
Defined.

(** C9 as the specification words it fails: in a run of a blank scenario
    followed by a sound one, the blank one is reported as failed, the
    retry runner is then called for the second, and the run is
    completed; the error "Empty prompt" has no details. *)
Lemma C9_sibling_still_runs :
  main resolve_test_path CONFIG (config 1 true) [blank; s1] None None
    (fun _ => generating 10) =
    Some (Completed (mk_stats 2 0 ["blank"; "s1"]),
          [ScenarioStarted "blank"; ScenarioFailed "blank" "Empty prompt";
           ScenarioStarted "s1"; TimerSet 50;
           RunnerCalled "open the home page" "s1" 2;
           ScenarioFailed "s1"
             "Test failed after 2 attempts: __dirname is not defined"]) /\
  enter_scenario CONFIG false blank =
    Throws (ThrownError (mk_error "OrchestrationError" "Empty prompt" None)).
Proof.
  split; reflexivity.
Qed.

(** *** Further checks on the sample inputs *)

Example resolve_known_key :
  interpolateConfigPlaceholders CONFIG "go to ${CONFIG.BASE_URL}" =
  Normal "go to https://x".
Proof. reflexivity. Qed.

Example resolve_unknown_key :
  interpolateConfigPlaceholders CONFIG "go to ${CONFIG.MISSING}" =
  Throws (ThrownError (OrchestrationError
    "Unknown configuration key: MISSING"
    (Some "Available keys: ENV, BASE_URL, USERNAME, PASSWORD, OPENAI_API_KEY"))).
Proof. reflexivity. Qed.

Example nested_opener_is_resolved :
  interpolateConfigPlaceholders CONFIG "${CONFIG.x${CONFIG.ENV}" =
  Normal "${CONFIG.xqa".
Proof. reflexivity. Qed.

Example success_on_second_attempt :
  SafeActions.withRetry
    (fun k => if k =? 2 then Normal tt else detached k)
    click_options "Click" (Some "#submit") =
  (Normal (SafeActions.mk_result true (Some tt) None 2),
   [SafeActions.CallAction 1;
    SafeActions.LogFailed "Click" 1 "element is detached" false;
    SafeActions.Sleep 100;
    SafeActions.CallAction 2;
    SafeActions.LogSucceeded "Click" 2]).
Proof. reflexivity. Qed.

Example no_attempt_reaches_the_final_throw :
  fst (SafeActions.withRetry detached
         (SafeActions.mk_options 0 1000 100 false true false None)
         "Click" (Some "#submit")) =
  Throws (ThrownError (Error "Unexpected retry loop exit")).
Proof. reflexivity. Qed.

Example timer_wins :
  runScenario resolve_test_path CONFIG (config 1 true) false s1 hanging =
  mk_run false
    [ScenarioStarted "s1"; TimerSet 50;
     RunnerCalled "open the home page" "s1" 2]
    [ScenarioFailed "s1" "Scenario timed out after 50ms"].
Proof. reflexivity. Qed.

Example zero_concurrency_never_ends :
  main resolve_test_path CONFIG (config 0 true) [s1; s2; s3] None None
    (fun _ => generating 10) = None.
Proof. reflexivity. Qed.

End Samples.

(** ** More on the scenario retry runner *)

Section RetryRunnerOutcomes.

Import Js RerunHandler.

Variable resolve_test_path : string -> string -> string.
Variables (prompt tag : string) (attempts : nat) (options : RunOptions).
Variable generate : nat -> option thrown.
Variable exec : nat -> option thrown.

Local Abbreviation run :=
  (runWithRetries resolve_test_path prompt tag attempts options generate
     exec).

(** With one attempt or more the runner rejects, whatever generator and
    executor answer. *)
Lemma runWithRetries_fails :
  1 <= attempts ->
  exists evs,
    run =
      (Throws (ThrownError (Error
         ("Test failed after " ++ num_to_string attempts ++ " attempts: " ++
          message_of (attempt_failure (generate attempts)))%string)), evs) /\
    filter is_generate evs = repeat (Generate prompt tag) attempts /\
    filter is_execute evs = [] /\
    filter is_passed evs = [] /\
    (forall k, 1 <= k <= attempts ->
       In (LogAttemptFailed k tag
             (str_take 300 (message_of (attempt_failure (generate k))))
             attempts) evs).
Proof.
  intros Hn.
  apply (attempt_loop_exhausts resolve_test_path prompt attempts options
           generate exec tag attempts 1); lia.
Qed.

(** [runWithRetries] never gets as far as [execSync] and never logs a
    passed test: after a generation that resolves, the evaluation of
    [__dirname] ends the attempt, which is logged as failed with the
    message of the [ReferenceError]. *)
Theorem runWithRetries_never_executes :
  filter is_execute (snd run) = [] /\
  filter is_passed (snd run) = [] /\
  (forall i, 1 <= i <= attempts -> generate i = None ->
     In (LogAttemptFailed i tag "__dirname is not defined" attempts)
        (snd run)).
Proof.
  destruct (Nat.eq_dec attempts 0) as [H0|Hpos].
  - unfold runWithRetries. rewrite H0. cbn.
    split; [reflexivity|]. split; [reflexivity|]. intros i Hi. lia.
  - destruct runWithRetries_fails as (evs & Hrun & _ & Hexe & Hpas & Hlog);
      [lia|].
    rewrite Hrun. cbn [snd]. split; [exact Hexe|]. split; [exact Hpas|].
    intros i Hi Hg. specialize (Hlog i Hi). rewrite Hg in Hlog.
    exact Hlog.
Qed.

(** The runner resolves exactly when no attempt is allowed: with
    [attempts = 0] it resolves without generating anything; with one
    attempt or more it calls the generator [attempts] times and rejects
    with the message of the last failure, which is that of the generator
    or that of the [ReferenceError]. *)
Theorem runWithRetries_resolves_iff :
  (fst run = Normal tt <-> attempts = 0) /\
  (attempts = 0 -> run = (Normal tt, [])) /\
  (1 <= attempts ->
   exists evs,
     run =
       (Throws (ThrownError (Error
          ("Test failed after " ++ num_to_string attempts ++
           " attempts: " ++
           message_of (attempt_failure (generate attempts)))%string)),
        evs) /\
     filter is_generate evs = repeat (Generate prompt tag) attempts).
Proof.
  split; [|split].
  - destruct (Nat.eq_dec attempts 0) as [H0|Hpos].
    + unfold runWithRetries. rewrite H0. cbn. split; auto.
    + destruct runWithRetries_fails as (evs & Hrun & _); [lia|].
      rewrite Hrun. cbn [fst]. split; [discriminate | lia].
  - intros H0. unfold runWithRetries. rewrite H0. reflexivity.
  - intros Hn.
    destruct (runWithRetries_fails Hn) as (evs & Hrun & Hgen & _).
    exists evs. auto.
Qed.

End RetryRunnerOutcomes.

(** ** More on the action retrier *)

Section ActionRetrierSuccess.

Import Js SafeActions.

Context {T : Type}.
Variable action : nat -> completion T.
Variable options : SafeActionOptions.
Variable actionName : string.
Variable target : option string.

(** The loop entered at index [i] when attempt [k > i] is the first that
    succeeds. *)
Lemma retry_loop_first_success (k : nat) (v : T) :
  action k = Normal v ->
  callback_returns options ->
  forall n i,
    i < k -> k <= i + n -> i + n = retries options ->
    (forall j, i < j < k -> exists err, action j = Throws err) ->
    exists evs,
      retry_loop action options actionName target n i i =
        (Normal (mk_result true (Some v) None k), evs) /\
      time_line evs =
        flat_map (fun j => [CallAction j; Sleep (delay options * 2 ^ (j - 1))])
          (seq (S i) (k - S i)) ++ [CallAction k].
Proof.
  intros Hk Hquiet n.
  induction n as [|n IH]; intros i Hik Hkn Hi Hbefore; [lia|].
  cbn [retry_loop]. replace (i + 1) with (S i) by lia.
  assert (Hstart : forall tail,
    time_line
      (((if verbose options
         then [LogAttempt actionName (S i) (retries options)] else []) ++
        [CallAction (S i)]) ++ tail) = CallAction (S i) :: time_line tail).
  { intros tail. unfold time_line. rewrite !filter_app.
    destruct (verbose options); reflexivity. }
  destruct (Nat.eq_dec (S i) k) as [Heq|Hne].
  - subst k. rewrite Hk. eexists. split; [reflexivity|].
    rewrite Hstart, Nat.sub_diag. reflexivity.
  - destruct (Hbefore (S i)) as [err Herr]; [lia|].
    rewrite Herr.
    destruct (Nat.eqb_spec i (retries options - 1)) as [Hlast|_]; [lia|].
    destruct (IH (S i)) as (evs & Hloop & Htl);
      [lia | lia | lia | intros j Hj; apply Hbefore; lia |].
    rewrite Hloop.
    assert (Hseq : seq (S i) (k - S i) = S i :: seq (S (S i)) (k - S (S i))).
    { replace (k - S i) with (S (k - S (S i))) by lia. reflexivity. }
    rewrite Hseq. cbn [flat_map]. replace (S i - 1) with i by lia.
    destruct (onError options) as [callback|] eqn:Hcb.
    + rewrite (Hquiet callback _ _ Hcb).
      eexists. split; [reflexivity|].
      unfold time_line in *. rewrite !filter_app.
      destruct (verbose options); cbn [filter on_time_line app];
        rewrite Htl; reflexivity.
    + eexists. split; [reflexivity|].
      unfold time_line in *. rewrite !filter_app.
      destruct (verbose options); cbn [filter on_time_line app];
        rewrite Htl; reflexivity.
Qed.

(** When attempt [k] is the first that succeeds, [withRetry] returns at
    once with [success = true], [attempts = k] and the value of that call:
    the action was called [k] times, with a sleep of [delay * 2 ^ (j - 1)]
    after each failed attempt [j], and no attempt follows. *)
Theorem withRetry_stops_at_first_success (k : nat) (v : T) :
  1 <= k <= retries options ->
  action k = Normal v ->
  (forall j, 1 <= j < k -> exists err, action j = Throws err) ->
  callback_returns options ->
  exists evs,
    withRetry action options actionName target =
      (Normal (mk_result true (Some v) None k), evs) /\
    time_line evs =
      flat_map (fun j => [CallAction j; Sleep (delay options * 2 ^ (j - 1))])
        (seq 1 (k - 1)) ++ [CallAction k].
Proof.
  intros Hk Hv Hbefore Hquiet.
  apply (retry_loop_first_success k v Hv Hquiet (retries options) 0);
    try lia.
  intros j Hj. apply Hbefore. lia.
Qed.

End ActionRetrierSuccess.

(** ** More on placeholder resolution *)

Section PlaceholderResolution.

Import Js Orchestrator.

Variable C : Config.

Lemma strip_prefix_inv (p s r : string) :
  strip_prefix p s = Some r -> s = (p ++ r)%string.
Proof.
  revert s. induction p as [|a p IH]; intros [|b s]; cbn [strip_prefix];
    intros H; try discriminate; try (injection H as <-; reflexivity).
  destruct (Ascii.eqb_spec a b) as [->|]; [|discriminate].
  cbn [append]. rewrite <- (IH _ H). reflexivity.
Qed.

Lemma span_key_inv (a : string) :
  a = (fst (span_key a) ++ snd (span_key a))%string /\
  all_key_chars (fst (span_key a)) = true.
Proof.
  induction a as [|c a [IH1 IH2]]; cbn [span_key]; [split; reflexivity|].
  destruct (is_key_char c) eqn:Hc; [|split; reflexivity].
  destruct (span_key a) as [k r]. cbn [fst snd append all_key_chars] in *.
  rewrite Hc, IH2, <- IH1. split; reflexivity.
Qed.

(** What a match tells about the text. *)
Lemma match_placeholder_inv (s key rest : string) :
  match_placeholder s = Some (key, rest) ->
  s = (opener ++ key ++ String "}" rest)%string /\
  key <> "" /\ all_key_chars key = true.
Proof.
  unfold match_placeholder.
  destruct (strip_prefix opener s) as [after|] eqn:Hp; [|discriminate].
  apply strip_prefix_inv in Hp.
  destruct (span_key_inv after) as [Ha Hk].
  destruct (span_key after) as [[|k ks] [|c r]]; try discriminate.
  destruct c as [[] [] [] [] [] [] [] []]; try discriminate.
  intros H. injection H as <- <-. cbn [fst snd] in *.
  rewrite Hp, Ha. repeat split; [discriminate | exact Hk].
Qed.

Lemma has_key_lookup (key : string) :
  has_key C key = true <-> exists v, lookup key (config_entries C) = Some v.
Proof.
  unfold has_key, config_keys, config_entries.
  cbn [map fst existsb lookup].
  rewrite !(String.eqb_sym key).
  destruct ("ENV" =? key)%string; [split; eauto|].
  destruct ("BASE_URL" =? key)%string; [split; eauto|].
  destruct ("USERNAME" =? key)%string; [split; eauto|].
  destruct ("PASSWORD" =? key)%string; [split; eauto|].
  destruct ("OPENAI_API_KEY" =? key)%string; [split; eauto|].
  cbn. split; [discriminate | intros [v Hv]; discriminate].
Qed.

(** The scan at a placeholder with a key of the configuration. *)
Lemma replace_all_known_key (pre KEY post v : string) :
  KEY <> "" -> all_key_chars KEY = true ->
  lookup KEY (config_entries C) = Some v ->
  replace_all C (pre ++ "${CONFIG." ++ KEY ++ "}" ++ post) =
  bind (replace_all C pre) (fun a =>
  bind (replace_all C post) (fun b =>
  Normal (a ++ v ++ b)%string)).
Proof.
  intros Hne Hk Hv.
  change ("${CONFIG." ++ KEY ++ "}" ++ post)%string
    with (String "$" ("{CONFIG." ++ KEY ++ String "}" post)).
  rewrite replace_all_app_dollar.
  pose proof (match_placeholder_key KEY post Hne Hk) as Hm.
  change (opener ++ KEY ++ String "}" post)%string
    with (String "$" ("{CONFIG." ++ KEY ++ String "}" post)) in Hm.
  rewrite (replace_all_match C _ _ _ _ Hm).
  unfold replacer.
  assert (Hhas : has_key C KEY = true) by (apply has_key_lookup; eauto).
  rewrite Hhas, Hv. cbn [negb bind].
  replace (if str_falsy v then "" else v) with v by (destruct v; reflexivity).
  destruct (replace_all C pre) as [a|e]; [|reflexivity].
  destruct (replace_all C post) as [b|e]; reflexivity.
Qed.

(** A placeholder with a key of the configuration is replaced by the
    value of that key, as it stands: the value is not scanned again, and
    the texts before and after the placeholder are resolved on their
    own. *)
Theorem interpolate_known_key (pre KEY post v : string) :
  KEY <> "" -> all_key_chars KEY = true ->
  lookup KEY (config_entries C) = Some v ->
  interpolateConfigPlaceholders C
    (pre ++ "${CONFIG." ++ KEY ++ "}" ++ post) =
  bind (interpolateConfigPlaceholders C pre) (fun a =>
  bind (interpolateConfigPlaceholders C post) (fun b =>
  Normal (a ++ v ++ b)%string)).
Proof.
  intros Hne Hk Hv. unfold interpolateConfigPlaceholders.
  rewrite (replace_all_known_key pre KEY post v Hne Hk Hv).
  destruct (replace_all C pre) as [a|e]; [|reflexivity].
  destruct (replace_all C post) as [b|e]; reflexivity.
Qed.

Lemma occurs_tail (p : string) (c : ascii) (s : string) :
  occurs p (String c s) = false ->
  strip_prefix p (String c s) = None /\ occurs p s = false.
Proof.
  cbn [occurs].
  destruct (strip_prefix p (String c s)); [discriminate | auto].
Qed.

(** A template that does not hold the text [${CONFIG.] is returned as it
    is. *)
Theorem interpolate_without_opener (template : string) :
  occurs "${CONFIG." template = false ->
  interpolateConfigPlaceholders C template = Normal template.
Proof.
  unfold interpolateConfigPlaceholders.
  induction template as [|c s IH]; intros Ho.
  - apply replace_all_equation_1.
  - apply occurs_tail in Ho as [Hp Ho].
    assert (Hm : match_placeholder (String c s) = None).
    { unfold match_placeholder. fold opener in Hp. rewrite Hp. reflexivity. }
    rewrite (replace_all_copy C _ _ Hm), (IH Ho). reflexivity.
Qed.

(** Where the exception of the scan comes from. *)
Lemma replace_all_throws_at (s : string) (t : thrown) :
  replace_all C s = Throws t ->
  exists pre KEY post,
    s = (pre ++ "${CONFIG." ++ KEY ++ "}" ++ post)%string /\
    KEY <> "" /\ all_key_chars KEY = true /\ has_key C KEY = false /\
    t = ThrownError (unknown_key_error C KEY).
Proof.
  assert (H : forall n u, String.length u < n ->
    replace_all C u = Throws t ->
    exists pre KEY post,
      u = (pre ++ "${CONFIG." ++ KEY ++ "}" ++ post)%string /\
      KEY <> "" /\ all_key_chars KEY = true /\ has_key C KEY = false /\
      t = ThrownError (unknown_key_error C KEY)).
  { induction n as [|n IH]; intros u Hlen; [lia|].
    destruct u as [|c r].
    - rewrite replace_all_equation_1. discriminate.
    - destruct (match_placeholder (String c r)) as [[key rest]|] eqn:Hm.
      + pose proof (match_placeholder_shorter _ _ _ Hm) as Hshort.
        destruct (match_placeholder_inv _ _ _ Hm) as (Hs & Hne & Hk).
        rewrite (replace_all_match C _ _ _ _ Hm).
        unfold replacer.
        destruct (has_key C key) eqn:Hhas; cbn [negb bind].
        * assert (Hrest : replace_all C rest = Throws t ->
            exists pre KEY post,
              String c r = (pre ++ "${CONFIG." ++ KEY ++ "}" ++ post)%string /\
              KEY <> "" /\ all_key_chars KEY = true /\
              has_key C KEY = false /\
              t = ThrownError (unknown_key_error C KEY)).
          { intros Hr.
            destruct (IH rest ltac:(lia) Hr)
              as (pre & KEY & post & Hu & H1 & H2 & H3 & H4).
            exists (opener ++ key ++ String "}" pre)%string, KEY, post.
            split; [|auto].
            rewrite Hs, Hu, !append_assoc. reflexivity. }
          destruct (lookup key (config_entries C)); cbn [bind];
            (destruct (replace_all C rest) as [a|e]; cbn [bind];
             [discriminate|]);
            intros E; apply Hrest; congruence.
        * intros E. exists "", key, rest.
          split; [exact Hs|]. repeat split; try assumption.
          unfold unknown_key_error. congruence.
      + rewrite (replace_all_copy C _ _ Hm).
        destruct (replace_all C r) as [a|e] eqn:Hr; cbn [bind];
          [discriminate|].
        intros E.
        destruct (IH r ltac:(simpl in Hlen; lia) ltac:(congruence))
          as (pre & KEY & post & Hu & H1 & H2 & H3 & H4).
        exists (String c pre), KEY, post. split; [|auto].
        rewrite Hu. reflexivity. }
  apply (H (S (String.length s))). lia.
Qed.

(** The resolution fails exactly on the templates that hold a placeholder
    whose key, made of [[A-Z0-9_]], is not in the configuration, and its
    only error is the [OrchestrationError] that names such a key of the
    template and lists the five valid keys; every other template is
    resolved. *)
Theorem interpolate_fails_iff (template : string) :
  ((exists t, interpolateConfigPlaceholders C template = Throws t) <->
   exists pre KEY post,
     template = (pre ++ "${CONFIG." ++ KEY ++ "}" ++ post)%string /\
     KEY <> "" /\ all_key_chars KEY = true /\ has_key C KEY = false) /\
  (forall t,
     interpolateConfigPlaceholders C template = Throws t ->
     exists pre KEY post,
       template = (pre ++ "${CONFIG." ++ KEY ++ "}" ++ post)%string /\
       has_key C KEY = false /\
       t = ThrownError (OrchestrationError
             ("Unknown configuration key: " ++ KEY)%string
             (Some ("Available keys: " ++
                    "ENV, BASE_URL, USERNAME, PASSWORD, OPENAI_API_KEY")
                   %string))).
Proof.
  unfold interpolateConfigPlaceholders. split; [split|].
  - intros [t Ht].
    destruct (replace_all_throws_at template t Ht)
      as (pre & KEY & post & H1 & H2 & H3 & H4 & _).
    exists pre, KEY, post. auto.
  - intros (pre & KEY & post & -> & Hne & Hk & Hmiss).
    destruct (interpolate_unknown_key C pre KEY post Hne Hk Hmiss)
      as (key & _ & Hthrow).
    eexists. exact Hthrow.
  - intros t Ht.
    destruct (replace_all_throws_at template t Ht)
      as (pre & KEY & post & H1 & _ & _ & H4 & H5).
    exists pre, KEY, post. repeat split; assumption.
Qed.

End PlaceholderResolution.

(** ** More on the orchestrator *)

Section ChunkCount.

Import Js Orchestrator.

Context {A : Type}.

Lemma well_chunked_count (c : nat) (chunks : list (list A)) :
  1 <= c -> well_chunked c chunks ->
  length chunks = (length (concat chunks) + c - 1) / c.
Proof.
  intros Hc.
  induction chunks as [|ch rest IH]; intros Hw.
  - cbn. symmetry. apply Nat.div_small. lia.
  - destruct rest as [|ch' rest'].
    + cbn [well_chunked concat length] in *. rewrite app_nil_r.
      apply (Nat.div_unique _ _ 1 (length ch - 1)); lia.
    + destruct Hw as [Hl Hw]. specialize (IH Hw).
      cbn [concat length] in *. rewrite length_app, Hl.
      replace (c + length (ch' ++ concat rest') + c - 1)
        with (1 * c + (length (ch' ++ concat rest') + c - 1)) by lia.
      rewrite Nat.div_add_l by lia. lia.
Qed.

(** The number of chunks is the number of scenarios divided by the
    concurrency, rounded up. *)
Theorem make_chunks_count (c : nat) (l : list A) :
  1 <= c ->
  exists chunks,
    make_chunks c l = Some chunks /\
    length chunks = (length l + c - 1) / c.
Proof.
  intros Hc.
  destruct (make_chunks_spec c l Hc) as (chunks & Heq & Hcat & Hw).
  exists chunks. split; [exact Heq|].
  rewrite <- Hcat. apply well_chunked_count; assumption.
Qed.

End ChunkCount.

Section OrchestratorRuns.

Import Js Orchestrator.

Variable resolve_test_path : string -> string -> string.
Variable C : Config.
Variable config : OrchestratorConfig.

Local Abbreviation runScenario :=
  (Orchestrator.runScenario resolve_test_path C config).
Local Abbreviation main := (Orchestrator.main resolve_test_path C config).
Local Abbreviation results_from :=
  (Orchestrator.results_from resolve_test_path C config).
Local Abbreviation signal_seen := (Orchestrator.signal_seen config).

(** With [continueOnFailure] on and a concurrency of at least 1, the run
    is always completed: every selected scenario is started once, in the
    order of the selection, and its result counted; the process exits
    with code 1 exactly when some scenario failed. *)
Theorem main_continue_on_failure (prompts : list TestPrompt)
    (tagToRun : option string) (signal : option nat)
    (world : nat -> ScenarioWorld) :
  1 <= concurrency config ->
  continueOnFailure config = true ->
  select prompts tagToRun <> [] ->
  exists stats evs,
    main prompts tagToRun signal world = Some (Completed stats, evs) /\
    started_tags evs = map tag (select prompts tagToRun) /\
    total stats = length (select prompts tagToRun) /\
    passed stats =
      count_passed (results_from signal world 0 (select prompts tagToRun)) /\
    failed stats =
      failed_tags (results_from signal world 0 (select prompts tagToRun)) /\
    (process_exit (Completed stats) = Some 1 <-> failed stats <> []) /\
    (process_exit (Completed stats) = None <-> failed stats = []).
Proof.
  intros Hc Hcf Hne.
  destruct (main_completes resolve_test_path C config prompts tagToRun
              signal world Hc Hcf Hne) as (evs & Hmain & Hstarted).
  eexists. exists evs. split; [exact Hmain|]. split; [exact Hstarted|].
  cbn [total passed failed process_exit].
  do 3 (split; [reflexivity|]).
  destruct (failed_tags _); cbn; split; split;
    congruence || discriminate || reflexivity.
Qed.

(** A scenario whose retry runner is allowed an attempt never passes. *)
Lemma runScenario_fails (aborted : bool) (p : TestPrompt)
    (w : ScenarioWorld) :
  1 <= retryAttempts config ->
  passes (runScenario aborted p w) = false.
Proof.
  intros Hn. unfold Orchestrator.runScenario.
  destruct (enter_scenario C aborted p) as [expanded|t]; [|reflexivity].
  unfold race. destruct (winner w); [|reflexivity].
  destruct (runWithRetries_fails resolve_test_path expanded (tag p)
              (retryAttempts config) RerunHandler.default_options
              (generate w) (exec w) Hn) as (evs & -> & _).
  reflexivity.
Qed.

Lemma results_all_failed (signal : option nat)
    (world : nat -> ScenarioWorld) (l : list TestPrompt) :
  1 <= retryAttempts config ->
  forall base,
    count_passed (results_from signal world base l) = 0 /\
    failed_tags (results_from signal world base l) = map tag l.
Proof.
  intros Hn. unfold count_passed, failed_tags.
  induction l as [|p l IH]; intros base; [split; reflexivity|].
  cbn [Orchestrator.results_from filter snd].
  rewrite (runScenario_fails _ p (world base) Hn).
  cbn [negb map fst]. destruct (IH (S base)) as [H1 H2].
  now rewrite H1, H2.
Qed.

(** With a retry runner that is allowed one attempt or more, as the
    default configuration allows it two, no scenario passes.
    With [continueOnFailure] on the run is completed with no scenario
    passed and every tag in the failed list; with [continueOnFailure]
    off it is aborted by the first scenario, after the first chunk.  The
    process exits with code 1. *)
Theorem main_never_passes (prompts : list TestPrompt)
    (tagToRun : option string) (signal : option nat)
    (world : nat -> ScenarioWorld) :
  1 <= concurrency config ->
  1 <= retryAttempts config ->
  select prompts tagToRun <> [] ->
  (forall aborted p w, passes (runScenario aborted p w) = false) /\
  (continueOnFailure config = true ->
   exists evs,
     main prompts tagToRun signal world =
       Some (Completed
               (mk_stats (length (select prompts tagToRun)) 0
                  (map tag (select prompts tagToRun))), evs) /\
     started_tags evs = map tag (select prompts tagToRun)) /\
  (continueOnFailure config = false ->
   exists p rest evs,
     select prompts tagToRun = p :: rest /\
     main prompts tagToRun signal world =
       Some (Aborted (abort_error p), evs) /\
     started_tags evs =
       map tag (firstn (concurrency config) (select prompts tagToRun))) /\
  (exists r evs,
     main prompts tagToRun signal world = Some (r, evs) /\
     process_exit r = Some 1).
Proof.
  intros Hc Hn Hne.
  assert (Hfail : forall aborted p w,
            passes (runScenario aborted p w) = false)
    by (intros; now apply runScenario_fails).
  assert (Hon : continueOnFailure config = true ->
    exists evs,
      main prompts tagToRun signal world =
        Some (Completed
                (mk_stats (length (select prompts tagToRun)) 0
                   (map tag (select prompts tagToRun))), evs) /\
      started_tags evs = map tag (select prompts tagToRun)).
  { intros Hcf.
    destruct (main_completes resolve_test_path C config prompts tagToRun
                signal world Hc Hcf Hne) as (evs & Hmain & Hstarted).
    destruct (results_all_failed signal world (select prompts tagToRun)
                Hn 0) as [H1 H2].
    rewrite H1, H2 in Hmain. exists evs. auto. }
  assert (Hoff : continueOnFailure config = false ->
    exists p rest evs,
      select prompts tagToRun = p :: rest /\
      main prompts tagToRun signal world =
        Some (Aborted (abort_error p), evs) /\
      started_tags evs =
        map tag (firstn (concurrency config) (select prompts tagToRun))).
  { intros Hcf.
    destruct (select prompts tagToRun) as [|p rest] eqn:Hsel; [congruence|].
    destruct (main_aborts resolve_test_path C config prompts tagToRun
                signal world [] p rest Hc Hcf Hsel)
      as (evs & Hmain & Hstarted).
    - intros [|j] q H; discriminate.
    - apply Hfail.
    - exists p, rest, evs. split; [reflexivity|]. split; [exact Hmain|].
      rewrite Hstarted. cbn [length app].
      rewrite Nat.Div0.div_0_l, Nat.add_0_l, Nat.mul_1_r. reflexivity. }
  split; [exact Hfail|]. split; [exact Hon|]. split; [exact Hoff|].
  destruct (continueOnFailure config) eqn:Hcf.
  - destruct (Hon eq_refl) as (evs & Hmain & _).
    eexists. exists evs. split; [exact Hmain|].
    cbn [process_exit failed].
    destruct (select prompts tagToRun); [congruence | reflexivity].
  - destruct (Hoff eq_refl) as (p & rest & evs & _ & Hmain & _).
    eexists. exists evs. split; [exact Hmain | reflexivity].
Qed.

(** No scenario carries the tag given on the command line: [main]
    returns before the loop, and the process is left to end by itself. *)
Theorem main_no_matching_tag (prompts : list TestPrompt) (t : string)
    (signal : option nat) (world : nat -> ScenarioWorld) :
  t <> "" ->
  (forall p, In p prompts -> tag p <> t) ->
  main prompts (Some t) signal world = Some (NoScenarios, []) /\
  process_exit NoScenarios = None.
Proof.
  intros Ht Hno. split; [|reflexivity].
  unfold Orchestrator.main.
  assert (Hsel : select prompts (Some t) = []).
  { unfold select. destruct t as [|c t]; [congruence|]. cbn [str_falsy].
    induction prompts as [|p l IH]; [reflexivity|]. cbn [filter].
    destruct (String.eqb_spec (tag p) (String c t)) as [Heq|_].
    - exfalso. apply (Hno p); [left; reflexivity | exact Heq].
    - apply IH. intros q Hq. apply Hno. right. exact Hq. }
  rewrite Hsel. reflexivity.
Qed.

Lemma runWithRetries_resolves_zero (expanded t : string)
    (w : ScenarioWorld) :
  fst (RerunHandler.runWithRetries resolve_test_path expanded t
         (retryAttempts config) RerunHandler.default_options
         (generate w) (exec w)) = Normal tt <->
  retryAttempts config = 0.
Proof.
  destruct (Nat.eq_dec (retryAttempts config) 0) as [H0|Hpos].
  - unfold RerunHandler.runWithRetries. rewrite H0. cbn. split; auto.
  - destruct (runWithRetries_fails resolve_test_path expanded t
                (retryAttempts config) RerunHandler.default_options
                (generate w) (exec w)) as (evs & Hrun & _); [lia|].
    rewrite Hrun. cbn [fst]. split; [discriminate | lia].
Qed.

(** A scenario passes exactly when the abort signal is not raised, its
    prompt is not blank, every placeholder is resolved, the retry runner
    settles before the timer, and the retry runner is allowed no attempt
    at all. *)
Theorem runScenario_passes_iff (aborted : bool) (p : TestPrompt)
    (w : ScenarioWorld) :
  passes (runScenario aborted p w) = true <->
  aborted = false /\
  trim (prompt p) <> "" /\
  (exists expanded,
     interpolateConfigPlaceholders C (prompt p) = Normal expanded) /\
  winner w = RunnerSettlesFirst /\
  retryAttempts config = 0.
Proof.
  unfold Orchestrator.runScenario, enter_scenario, race.
  destruct aborted.
  { cbn. split; [discriminate | intros [H _]; discriminate]. }
  destruct (trim (prompt p)) as [|c r] eqn:Htrim; cbn [str_falsy].
  { cbn. split; [discriminate | intros (_ & H & _); congruence]. }
  destruct (interpolateConfigPlaceholders C (prompt p)) as [expanded|t].
  2:{ cbn. split; [discriminate|].
      intros (_ & _ & [e He] & _). discriminate. }
  destruct (winner w).
  2:{ cbn. split; [discriminate|]. intros (_ & _ & _ & H & _).
      discriminate. }
  pose proof (runWithRetries_resolves_zero expanded (tag p) w) as Hiff.
  destruct (fst (RerunHandler.runWithRetries _ _ _ _ _ _ _)) as [[]|t];
    cbn [passes].
  - split; [|reflexivity]. intros _.
    repeat split; [discriminate | eauto | apply Hiff; reflexivity].
  - split; [discriminate|].
    intros (_ & _ & _ & _ & H). apply Hiff in H. discriminate.
Qed.

(** Once the signal is raised, every scenario of the chunks that are
    started afterwards fails in the turn of its call, with
    "Scenario aborted by user" and without its retry runner being called;
    with [continueOnFailure] on the run still starts every selected
    scenario and is completed, with the tags of those scenarios in the
    failed list. *)
Theorem main_after_abort (prompts : list TestPrompt)
    (tagToRun : option string) (first : nat)
    (world : nat -> ScenarioWorld) :
  1 <= concurrency config ->
  continueOnFailure config = true ->
  select prompts tagToRun <> [] ->
  exists stats evs,
    main prompts tagToRun (Some first) world = Some (Completed stats, evs) /\
    started_tags evs = map tag (select prompts tagToRun) /\
    forall j p,
      nth_error (select prompts tagToRun) j = Some p ->
      first <= j / concurrency config ->
      runScenario (signal_seen (Some first) j) p (world j) =
        mk_run false
          [ScenarioStarted (tag p);
           ScenarioFailed (tag p) "Scenario aborted by user"] [] /\
      In (tag p) (failed stats).
Proof.
  intros Hc Hcf Hne.
  destruct (main_completes resolve_test_path C config prompts tagToRun
              (Some first) world Hc Hcf Hne) as (evs & Hmain & Hstarted).
  eexists. exists evs. split; [exact Hmain|]. split; [exact Hstarted|].
  intros j p Hj Hfirst.
  assert (Hseen : signal_seen (Some first) j = true).
  { unfold Orchestrator.signal_seen, aborted_at.
    now apply Nat.leb_le. }
  assert (Hrun : runScenario (signal_seen (Some first) j) p (world j) =
                 mk_run false
                   [ScenarioStarted (tag p);
                    ScenarioFailed (tag p) "Scenario aborted by user"] []).
  { rewrite Hseen. reflexivity. }
  split; [exact Hrun|].
  cbn [failed].
  apply (results_from_failed resolve_test_path C config (Some first) world
           _ 0 j p Hj).
  cbn [Nat.add]. now rewrite Hrun.
Qed.

End OrchestratorRuns.

(** ** The configuration and the command line *)

Section ConfigLoading.

Import Js Orchestrator ConfigTs.

Variable penv : process_env.

Lemma getEnvVariable_normal (name environment v : string) :
  getEnvVariable penv name environment = Normal v <->
  penv (name ++ "_" ++ toUpperCase environment)%string = Some v /\ v <> "".
Proof.
  unfold getEnvVariable.
  destruct (penv (name ++ "_" ++ toUpperCase environment)%string)
    as [value|].
  - destruct value as [|c r]; cbn [str_falsy].
    + split; [discriminate | intros [H Hne]; injection H as <-; congruence].
    + split.
      * intros H. injection H as <-. split; [reflexivity | discriminate].
      * intros [H _]. congruence.
  - split; [discriminate | intros [H _]; discriminate].
Qed.

Lemma includes_string_In (l : list string) (s : string) :
  includes_string l s = true <-> In s l.
Proof.
  unfold includes_string. rewrite existsb_exists. split.
  - intros (x & Hx & Heq). apply String.eqb_eq in Heq. subst. exact Hx.
  - intros H. exists s. split; [exact H | apply String.eqb_refl].
Qed.

(** What a configuration that was loaded holds. *)
Lemma load_normal_inv (C : Config) :
  load penv = Normal C ->
  In (ENV C) ["qa"; "uat"; "prod"] /\
  OPENAI_API_KEY C <> "" /\ BASE_URL C <> "" /\
  USERNAME C <> "" /\ PASSWORD C <> "".
Proof.
  unfold load.
  set (env := toLowerCase (or_default (penv "ENV") "qa")).
  destruct (includes_string validEnvironments env) eqn:Hvalid; cbn [negb];
    [|discriminate].
  apply includes_string_In in Hvalid.
  destruct (penv "OPENAI_API_KEY") as [[|kc kr]|]; cbn [str_falsy];
    try discriminate.
  destruct (getEnvVariable penv "BASE_URL" env) as [b|t] eqn:Hb; cbn [bind];
    [|discriminate].
  destruct (getEnvVariable penv "USERNAME" env) as [u|t] eqn:Hu; cbn [bind];
    [|discriminate].
  destruct (getEnvVariable penv "PASSWORD" env) as [pw|t] eqn:Hp; cbn [bind];
    [|discriminate].
  apply getEnvVariable_normal in Hb as [_ Hbne].
  apply getEnvVariable_normal in Hu as [_ Hune].
  apply getEnvVariable_normal in Hp as [_ Hpne].
  intros H. injection H as <-.
  cbn [ENV BASE_URL USERNAME PASSWORD OPENAI_API_KEY].
  repeat split; try assumption; discriminate.
Qed.

(** The module exports a configuration exactly when the environment name
    ([ENV], [qa] when unset, taken in lower case) is one of the three valid
    names and the API key and the three variables suffixed with the
    upper-case environment name are set to non-empty values; the exported
    object holds the lower-case environment name and these very values. *)
Theorem load_succeeds_iff (C : Config) :
  load penv = Normal C <->
  In (ENV C) ["qa"; "uat"; "prod"] /\
  ENV C = toLowerCase (or_default (penv "ENV") "qa") /\
  penv "OPENAI_API_KEY" = Some (OPENAI_API_KEY C) /\
  OPENAI_API_KEY C <> "" /\
  penv ("BASE_URL_" ++ toUpperCase (ENV C))%string = Some (BASE_URL C) /\
  BASE_URL C <> "" /\
  penv ("USERNAME_" ++ toUpperCase (ENV C))%string = Some (USERNAME C) /\
  USERNAME C <> "" /\
  penv ("PASSWORD_" ++ toUpperCase (ENV C))%string = Some (PASSWORD C) /\
  PASSWORD C <> "".
Proof.
  unfold load.
  set (env := toLowerCase (or_default (penv "ENV") "qa")).
  destruct (includes_string validEnvironments env) eqn:Hvalid; cbn [negb].
  2:{ split; [discriminate|]. intros (Hin & Henv & _).
      rewrite Henv in Hin. apply includes_string_In in Hin.
      unfold validEnvironments in Hvalid. congruence. }
  apply includes_string_In in Hvalid.
  destruct (penv "OPENAI_API_KEY") as [key|] eqn:Hkey.
  2:{ split; [discriminate|]. intros (_ & _ & H & _). discriminate. }
  destruct key as [|kc kr]; cbn [str_falsy].
  { split; [discriminate|]. intros (_ & _ & H & Hne & _).
    injection H as H. congruence. }
  destruct (getEnvVariable penv "BASE_URL" env) as [b|t] eqn:Hb; cbn [bind].
  2:{ split; [discriminate|].
      intros (_ & Henv & _ & _ & H & Hne & _). rewrite Henv in H.
      assert (Hn : getEnvVariable penv "BASE_URL" env = Normal (BASE_URL C))
        by (apply getEnvVariable_normal; auto).
      congruence. }
  destruct (getEnvVariable penv "USERNAME" env) as [u|t] eqn:Hu; cbn [bind].
  2:{ split; [discriminate|].
      intros (_ & Henv & _ & _ & _ & _ & H & Hne & _). rewrite Henv in H.
      assert (Hn : getEnvVariable penv "USERNAME" env = Normal (USERNAME C))
        by (apply getEnvVariable_normal; auto).
      congruence. }
  destruct (getEnvVariable penv "PASSWORD" env) as [pw|t] eqn:Hp; cbn [bind].
  2:{ split; [discriminate|].
      intros (_ & Henv & _ & _ & _ & _ & _ & _ & H & Hne). rewrite Henv in H.
      assert (Hn : getEnvVariable penv "PASSWORD" env = Normal (PASSWORD C))
        by (apply getEnvVariable_normal; auto).
      congruence. }
  apply getEnvVariable_normal in Hb as [Hb Hbne].
  apply getEnvVariable_normal in Hu as [Hu Hune].
  apply getEnvVariable_normal in Hp as [Hp Hpne].
  split.
  - intros H. injection H as <-. cbn [ENV BASE_URL USERNAME PASSWORD
                                       OPENAI_API_KEY].
    repeat split; try assumption; discriminate.
  - intros (Hin & Henv & Hk & _ & Hb' & _ & Hu' & _ & Hp' & _).
    destruct C as [e b' u' pw' k']. cbn [ENV BASE_URL USERNAME PASSWORD
                                         OPENAI_API_KEY] in *.
    subst e. cbn [append] in Hb, Hu, Hp, Hb', Hu', Hp'. congruence.
Qed.

(** In a configuration that was loaded, every key has a non-empty value,
    so a placeholder with a valid key is always replaced by a non-empty
    text: the fallback to the empty string is never taken. *)
Theorem loaded_key_resolves (C : Config) (KEY : string) :
  load penv = Normal C ->
  has_key C KEY = true ->
  exists v,
    v <> "" /\
    lookup KEY (config_entries C) = Some v /\
    forall pre post,
      interpolateConfigPlaceholders C
        (pre ++ "${CONFIG." ++ KEY ++ "}" ++ post) =
      bind (interpolateConfigPlaceholders C pre) (fun a =>
      bind (interpolateConfigPlaceholders C post) (fun b =>
      Normal (a ++ v ++ b)%string)).
Proof.
  intros Hload Hhas.
  apply load_normal_inv in Hload as (Hin & Hk & Hb & Hu & Hp).
  assert (Hcases :
    exists v, v <> "" /\ lookup KEY (config_entries C) = Some v /\
              KEY <> "" /\ all_key_chars KEY = true).
  { unfold has_key, config_keys, config_entries in Hhas.
    cbn [map fst existsb] in Hhas.
    unfold config_entries. cbn [lookup].
    rewrite !(String.eqb_sym KEY) in Hhas.
    destruct (String.eqb_spec "ENV" KEY) as [<-|_].
    { exists (ENV C). repeat split; try discriminate.
      intros He. rewrite He in Hin. cbn in Hin.
      intuition discriminate. }
    destruct (String.eqb_spec "BASE_URL" KEY) as [<-|_].
    { exists (BASE_URL C). repeat split; try discriminate; assumption. }
    destruct (String.eqb_spec "USERNAME" KEY) as [<-|_].
    { exists (USERNAME C). repeat split; try discriminate; assumption. }
    destruct (String.eqb_spec "PASSWORD" KEY) as [<-|_].
    { exists (PASSWORD C). repeat split; try discriminate; assumption. }
    destruct (String.eqb_spec "OPENAI_API_KEY" KEY) as [<-|_].
    { exists (OPENAI_API_KEY C).
      repeat split; try discriminate; assumption. }
    discriminate. }
  destruct Hcases as (v & Hne & Hv & Hkne & Hkc).
  exists v. split; [exact Hne|]. split; [exact Hv|].
  intros pre post. unfold interpolateConfigPlaceholders.
  apply replace_all_known_key; assumption.
Qed.

End ConfigLoading.

Section CommandLine.

Import Js Orchestrator ConfigTs Cli.

Variable penv : process_env.

Lemma set_env_same (name value : string) (e : process_env) :
  set_env name value e name = Some value.
Proof. unfold set_env. rewrite String.eqb_refl. reflexivity. Qed.

Lemma parseArgs_accepts (argv2 : option string) (a : string) :
  In (toLowerCase a) ["qa"; "uat"; "prod"] ->
  parseArgs penv argv2 (Some a) =
  (Normal (argv2, toLowerCase a), set_env "ENV" (toLowerCase a) penv).
Proof.
  intros Hin. unfold parseArgs. cbn [option_map].
  pose proof Hin as Hin'. apply includes_string_In in Hin'.
  rewrite Hin'. rewrite andb_false_r.
  assert (Hne : str_falsy (toLowerCase a) = false).
  { cbn in Hin. destruct Hin as [<-|[<-|[<-|[]]]]; reflexivity. }
  rewrite Hne, set_env_same. unfold or_default. rewrite Hne.
  reflexivity.
Qed.

Lemma parseArgs_rejects (argv2 : option string) (a : string) :
  a <> "" -> ~ In (toLowerCase a) ["qa"; "uat"; "prod"] ->
  parseArgs penv argv2 (Some a) =
  (Throws (ThrownError (OrchestrationError
     ("Invalid environment: " ++ toLowerCase a)%string
     (Some "Must be one of: qa, uat, prod"))), penv).
Proof.
  intros Hne Hnot. unfold parseArgs. cbn [option_map].
  assert (Hf : str_falsy (toLowerCase a) = false).
  { destruct a; [congruence | reflexivity]. }
  assert (Hi : includes_string ["qa"; "uat"; "prod"] (toLowerCase a)
               = false).
  { destruct (includes_string _ _) eqn:H; [|reflexivity].
    apply includes_string_In in H. contradiction. }
  rewrite Hf, Hi. reflexivity.
Qed.

(** [parseArgs] compares the environment argument in lower case: an
    argument whose lower-case form is [qa], [uat] or [prod] is accepted,
    whatever its case, and [process.env.ENV] becomes that lower-case form;
    any other non-empty argument is rejected with an [OrchestrationError]
    that names its lower-case form, and the environment is left as it was;
    an absent or empty argument is accepted and the environment name is
    [ENV], or [qa] when [ENV] is unset. *)
Theorem parseArgs_environment (argv2 argv3 : option string) :
  (forall a,
     argv3 = Some a -> In (toLowerCase a) ["qa"; "uat"; "prod"] ->
     parseArgs penv argv2 argv3 =
     (Normal (argv2, toLowerCase a), set_env "ENV" (toLowerCase a) penv)) /\
  (forall a,
     argv3 = Some a -> a <> "" -> ~ In (toLowerCase a) ["qa"; "uat"; "prod"] ->
     parseArgs penv argv2 argv3 =
     (Throws (ThrownError (OrchestrationError
        ("Invalid environment: " ++ toLowerCase a)%string
        (Some "Must be one of: qa, uat, prod"))), penv)) /\
  (argv3 = None \/ argv3 = Some "" ->
   parseArgs penv argv2 argv3 =
   (Normal (argv2, or_default (penv "ENV") "qa"), penv)).
Proof.
  split; [|split].
  - intros a -> Hin. now apply parseArgs_accepts.
  - intros a -> Hne Hnot. now apply parseArgs_rejects.
  - unfold parseArgs. intros [->| ->]; reflexivity.
Qed.

(** The environment argument plays no part in the run: the configuration
    was built when config.ts was imported, from the environment of the
    process start, and an accepted argument only changes
    [process.env.ENV] afterwards.  The outcome is the run for the tag with
    that first configuration. *)
Theorem environment_argument_ignored
    (resolve_test_path : string -> string -> string)
    (config : OrchestratorConfig) (prompts : list TestPrompt)
    (argv2 argv3 : option string) (signal : option nat)
    (world : nat -> ScenarioWorld) :
  (argv3 = None \/ argv3 = Some "" \/
   exists a, argv3 = Some a /\ In (toLowerCase a) ["qa"; "uat"; "prod"]) ->
  fst (orchestrator_process resolve_test_path config prompts penv
         argv2 argv3 signal world) =
  match load penv with
  | Throws t => ConfigFailed t
  | Normal C =>
      Ran (main resolve_test_path C config prompts argv2 signal world)
  end.
Proof.
  intros Hacc. unfold orchestrator_process.
  destruct (load penv) as [C|t]; [|reflexivity].
  destruct Hacc as [->|[->|(a & -> & Hin)]].
  - reflexivity.
  - reflexivity.
  - rewrite (parseArgs_accepts argv2 a Hin). reflexivity.
Qed.

(** A rejected environment argument ends the process before any scenario
    is selected, and the environment keeps its value. *)
Theorem rejected_argument_runs_nothing
    (resolve_test_path : string -> string -> string)
    (config : OrchestratorConfig) (prompts : list TestPrompt)
    (argv2 : option string) (a : string) (signal : option nat)
    (world : nat -> ScenarioWorld) (C : Config) :
  load penv = Normal C ->
  a <> "" -> ~ In (toLowerCase a) ["qa"; "uat"; "prod"] ->
  orchestrator_process resolve_test_path config prompts penv
    argv2 (Some a) signal world =
  (ArgumentsRejected (ThrownError (OrchestrationError
     ("Invalid environment: " ++ toLowerCase a)%string
     (Some "Must be one of: qa, uat, prod"))), penv).
Proof.
  intros Hload Hne Hnot. unfold orchestrator_process. rewrite Hload.
  rewrite (parseArgs_rejects argv2 a Hne Hnot). reflexivity.
Qed.

End CommandLine.

(** ** The exported safe actions *)

Section SafeActionWrappers.

Import Js SafeActions SafeWrappers.

Lemma unit_normal (m : completion unit) (u : unit) :
  m = Normal u -> m = Normal tt.
Proof. destruct u. auto. Qed.

(** What a successful approach tells. *)
Lemma approach_ok (opts : SafeActionOptions) (selector : string)
    (w : PageWorld) (u : unit) (calls : list page_call) :
  approach opts selector w = (Normal u, calls) ->
  force opts = true \/ (visible w = Normal tt /\ enabled w = Normal tt).
Proof.
  unfold approach, and_then, call, done.
  destruct (force opts); [auto|]. cbn [negb].
  destruct (visible w) as [[]|t]; [|discriminate].
  destruct (enabled w) as [[]|t]; [|destruct (scroll opts); discriminate].
  auto.
Qed.

Lemma approach_forced (opts : SafeActionOptions) (selector : string)
    (w : PageWorld) :
  force opts = true ->
  filter is_check (snd (approach opts selector w)) = [].
Proof.
  intros Hf. unfold approach, and_then, call, done. rewrite Hf. cbn [negb].
  destruct (scroll opts); [destruct (scrolled w)|]; reflexivity.
Qed.

(** Without [force], the element is clicked or filled at an attempt only
    after it was found visible and enabled at that attempt; with [force],
    neither check is ever made, and the click itself is forced. *)
Theorem checks_before_click_and_fill (opts : SafeActionOptions)
    (selector text : string) (w : PageWorld) :
  (forall s t f,
     In (Click s t f) (snd (click_action opts selector w)) ->
     f = force opts /\
     (force opts = true \/
      (visible w = Normal tt /\ enabled w = Normal tt))) /\
  (forall s x t,
     In (Fill s x t) (snd (fill_action opts selector text w)) ->
     force opts = true \/
     (visible w = Normal tt /\ enabled w = Normal tt)) /\
  (force opts = true ->
   filter is_check (snd (click_action opts selector w)) = [] /\
   filter is_check (snd (fill_action opts selector text w)) = []).
Proof.
  split; [|split].
  - intros s t f Hin. unfold click_action, and_then in Hin.
    destruct (approach opts selector w) as [[u|e] calls] eqn:Ha.
    + pose proof (approach_ok _ _ _ _ _ Ha) as Hok.
      cbn [call snd] in Hin. apply in_app_or in Hin as [Hin|Hin].
      * exfalso. revert Hin. clear -Ha.
        unfold approach, and_then, call, done in Ha.
        destruct (force opts); cbn [negb] in Ha;
          [|destruct (visible w); [destruct (enabled w)|]];
          destruct (scroll opts); try destruct (scrolled w);
          injection Ha as _ <-; cbn; intuition discriminate.
      * destruct Hin as [Hin|[]]. injection Hin as _ _ <-. auto.
    + exfalso. cbn [snd] in Hin. revert Hin. clear -Ha.
      unfold approach, and_then, call, done in Ha.
      destruct (force opts); cbn [negb] in Ha;
        [|destruct (visible w); [destruct (enabled w)|]];
        destruct (scroll opts); try destruct (scrolled w);
        injection Ha as _ <-; cbn; intuition discriminate.
  - intros s x t Hin. unfold fill_action, and_then in Hin.
    destruct (approach opts selector w) as [[u|e] calls] eqn:Ha.
    + apply (approach_ok _ _ _ _ _ Ha).
    + exfalso. cbn [snd] in Hin. revert Hin. clear -Ha.
      unfold approach, and_then, call, done in Ha.
      destruct (force opts); cbn [negb] in Ha;
        [|destruct (visible w); [destruct (enabled w)|]];
        destruct (scroll opts); try destruct (scrolled w);
        injection Ha as _ <-; cbn; intuition discriminate.
  - intros Hf.
    pose proof (approach_forced opts selector w Hf) as Hc.
    unfold click_action, fill_action, and_then, call, done, fail.
    destruct (approach opts selector w) as [[u|e] calls]; cbn [snd] in *.
    + split.
      * rewrite filter_app, Hc. reflexivity.
      * destruct (filled w);
          [destruct (input_value w) as [actual|e];
           [destruct (negb (actual =? text)%string)|]|];
          cbn [snd]; rewrite ?filter_app, Hc; reflexivity.
    + split; exact Hc.
Qed.

(** What a successful fill tells. *)
Lemma fill_action_ok (opts : SafeActionOptions) (selector text : string)
    (w : PageWorld) (u : unit) :
  fst (fill_action opts selector text w) = Normal u ->
  filled w = Normal tt /\ input_value w = Normal text.
Proof.
  unfold fill_action, and_then, call, done, fail.
  destruct (approach opts selector w) as [[u0|e] calls]; [|discriminate].
  destruct (filled w) as [[]|e]; [|discriminate].
  destruct (input_value w) as [actual|e]; [|discriminate].
  destruct (String.eqb_spec actual text) as [->|Hne]; cbn; [auto|].
  discriminate.
Qed.

(** [fillSafe] reports a success only for an attempt at which the field
    was filled and the value read back from it is the text that was
    written. *)
Theorem fillSafe_success_is_verified (world : nat -> PageWorld)
    (selector text : string) (options : PartialOptions)
    (r : ActionResult unit) (evs : list event) :
  fillSafe world selector text options = (Normal r, evs) ->
  success r = true ->
  1 <= attempts r <= retries (merge options) /\
  filled (world (attempts r)) = Normal tt /\
  input_value (world (attempts r)) = Normal text.
Proof.
  unfold fillSafe, withRetry. intros Hrun Hs.
  destruct (Nat.eq_dec (retries (merge options)) 0) as [H0|Hpos].
  { rewrite H0 in Hrun. discriminate. }
  pose proof (retry_loop_ends _ _ _ _ (retries (merge options)) 0 _ _
                ltac:(lia) eq_refl Hrun) as Hends.
  cbn beta iota in Hends.
  destruct Hends as [(_ & Ha & _ & v & Hv & _)|(Hf & _)]; [|congruence].
  split; [lia|]. apply (fill_action_ok _ _ _ _ _ Hv).
Qed.

(** When the value read back differs from the text at every attempt,
    [fillSafe] gives up after [retries] attempts with a failure whose
    error names the selector, the number of attempts, the text expected
    and the value found at the last attempt. *)
Theorem fillSafe_mismatch_fails (world : nat -> PageWorld)
    (selector text : string) (options : PartialOptions)
    (actual : nat -> string) :
  1 <= retries (merge options) ->
  opt_onError options = None ->
  (forall k, world k = mk_page (Normal tt) (Normal tt) (Normal tt)
                         (Normal tt) (Normal tt) (Normal (actual k))) ->
  (forall k, actual k <> text) ->
  exists evs,
    fillSafe world selector text options =
    (Normal (mk_result false None
       (Some (mk_safe_error
          ("Fill failed after " ++
           num_to_string (retries (merge options)) ++
           " attempts: Text verification failed. Expected: " ++
           dquote ++ text ++ dquote ++ ", Got: " ++
           dquote ++ actual (retries (merge options)) ++ dquote)%string
          (Some selector) (Some (retries (merge options)))
          (Some (mk_error "SafeActionError"
             ("Text verification failed. Expected: " ++
              dquote ++ text ++ dquote ++ ", Got: " ++
              dquote ++ actual (retries (merge options)) ++ dquote)%string
             None))))
       (retries (merge options))), evs).
Proof.
  intros HR Hcb Hworld Hdiff.
  assert (Hact : forall k,
    fst (fill_action (merge options) selector text (world k)) =
    Throws (verification_error text (actual k))).
  { intros k. rewrite Hworld.
    unfold fill_action, approach, and_then, call, done, fail.
    cbn [visible enabled scrolled filled input_value].
    assert (Hneq : (actual k =? text)%string = false)
      by (apply String.eqb_neq; apply Hdiff).
    destruct (force (merge options)); destruct (scroll (merge options));
      cbn; rewrite Hneq; reflexivity. }
  unfold fillSafe, withRetry.
  destruct (retry_loop _ _ _ _ (retries (merge options)) 0 0)
    as [res evs] eqn:Hrun.
  pose proof (retry_loop_ends _ _ _ _ (retries (merge options)) 0 _ _
                HR eq_refl Hrun) as Hends.
  destruct res as [r|t].
  - destruct Hends as [(_ & _ & _ & v & Hv & _)
                      |(Hs & Ha & Hval & err & Herr & He)].
    + cbn beta in Hv. rewrite Hact in Hv. discriminate.
    + cbn beta in Herr. rewrite Hact in Herr. injection Herr as <-.
      exists evs. do 2 f_equal.
      destruct r as [s v e a]. cbn [success value error_of attempts] in *.
      subst. reflexivity.
  - destruct Hends as (cb & _ & _ & Habs & _).
    unfold merge in Habs. cbn [onError] in Habs.
    rewrite Hcb in Habs. discriminate.
Qed.

(** Called without options, an exported action makes at most three
    attempts and, having no callback, always returns an outcome; when
    every attempt fails it sleeps 500 ms and then 1000 ms between
    them. *)
Theorem default_options_three_attempts {T : Type}
    (action : nat -> completion T) :
  exists r evs,
    executeSafe action no_options = (Normal r, evs) /\
    1 <= attempts r <= 3 /\
    ((forall k, exists err, action k = Throws err) ->
     success r = false /\ attempts r = 3 /\
     time_line evs =
       [CallAction 1; Sleep 500; CallAction 2; Sleep 1000; CallAction 3]).
Proof.
  unfold executeSafe, withRetry.
  change (retries (merge no_options)) with 3.
  destruct (retry_loop action (merge no_options) "CustomAction" None 3 0 0)
    as [res evs] eqn:Hrun.
  pose proof (retry_loop_ends action (merge no_options) "CustomAction" None
                3 0 res evs ltac:(lia) eq_refl Hrun) as Hends.
  destruct res as [r|t].
  - exists r, evs. split; [reflexivity|].
    change (retries (merge no_options)) with 3 in Hends.
    split.
    + destruct Hends as [(_ & Ha & _)|(_ & Ha & _)]; lia.
    + intros Hfail.
      destruct (retry_loop_all_fail action (merge no_options) "CustomAction"
                  None Hfail 3 0 _ _ ltac:(lia) eq_refl Hrun) as [_ Hret].
      destruct (Hret r eq_refl) as (Hs & Ha & Htl).
      repeat split; [exact Hs | exact Ha | exact Htl].
  - destruct Hends as (cb & _ & _ & Habs & _). discriminate.
Qed.

End SafeActionWrappers.

(** ** The AI client *)

Section AiClientAsk.

Import Js AiClient.

Variable config : AIClientConfig.
Variable api : nat -> api_outcome.
Variable prompt : string.

Local Abbreviation ask_loop := (AiClient.ask_loop config api prompt).
Local Abbreviation ask := (AiClient.ask config api prompt).

Local Abbreviation started :=
  [Create (model config) (systemPrompt config) prompt;
   TimerSet (timeout config)].

Lemma ask_loop_success (n attempt rc : nat) (text : string)
    (tokens : option nat) :
  api attempt = ApiResolves (Some text) tokens ->
  str_falsy (trim text) = false ->
  ask_loop (S n) attempt rc =
    (Responds (mk_response text tokens (model config) rc), started).
Proof.
  intros Ha Ht. cbn [AiClient.ask_loop]. rewrite Ha, Ht. reflexivity.
Qed.

Lemma ask_loop_failure (n attempt rc : nat) :
  attempt_fails (api attempt) = true ->
  exists message,
    ask_loop (S n) attempt rc =
      (fst (ask_loop n (attempt + 1) (rc + 1)),
       started ++ [Warn attempt message (rc + 1)] ++
       (if attempt <? maxRetries config
        then [Sleep (retryDelay config * 2 ^ (attempt - 1))] else []) ++
       snd (ask_loop n (attempt + 1) (rc + 1))).
Proof.
  intros Hf. cbn [AiClient.ask_loop].
  destruct (ask_loop n (attempt + 1) (rc + 1)) as [r rest] eqn:E.
  unfold attempt_fails in Hf.
  destruct (api attempt) as [[text|] tokens|t|].
  - rewrite Hf. eexists.
    destruct (attempt <? maxRetries config); cbn [fst snd app]; reflexivity.
  - eexists.
    destruct (attempt <? maxRetries config); cbn [fst snd app]; reflexivity.
  - eexists.
    destruct (attempt <? maxRetries config); cbn [fst snd app]; reflexivity.
  - eexists.
    destruct (attempt <? maxRetries config); cbn [fst snd app]; reflexivity.
Qed.

Lemma attempt_succeeds (o : api_outcome) :
  attempt_fails o = false ->
  exists text tokens,
    o = ApiResolves (Some text) tokens /\ str_falsy (trim text) = false.
Proof.
  destruct o as [[text|] tokens|t|]; cbn; try discriminate.
  intros H. eauto.
Qed.

Lemma sleeps_app (l1 l2 : list event) :
  sleeps (l1 ++ l2) = sleeps l1 ++ sleeps l2.
Proof. unfold sleeps. apply flat_map_app. Qed.

Lemma backoff_from (a k : nat) :
  map (fun attempt => retryDelay config * 2 ^ (attempt - 1)) (seq a (S k)) =
  retryDelay config * 2 ^ (a - 1) ::
  map (fun attempt => retryDelay config * 2 ^ (attempt - 1)) (seq (a + 1) k).
Proof. cbn [seq map]. now rewrite Nat.add_1_r. Qed.

(** The loop when the attempts [attempt .. attempt + k - 1] fail and the
    next one succeeds, with iterations to spare and the invariant
    [attempt + n = maxRetries + 1]. *)
Lemma ask_loop_first_success (k : nat) :
  forall n attempt rc text tokens,
    attempt + n = maxRetries config + 1 ->
    k < n ->
    (forall j, attempt <= j < attempt + k -> attempt_fails (api j) = true) ->
    api (attempt + k) = ApiResolves (Some text) tokens ->
    str_falsy (trim text) = false ->
    exists evs,
      ask_loop n attempt rc =
        (Responds (mk_response text tokens (model config) (rc + k)), evs) /\
      length (filter is_create evs) = S k /\
      sleeps evs =
        map (fun a => retryDelay config * 2 ^ (a - 1)) (seq attempt k).
Proof.
  induction k as [|k IH]; intros n attempt rc text tokens Hinv Hk Hf Ha Ht.
  - destruct n as [|n]; [lia|].
    rewrite Nat.add_0_r in Ha.
    rewrite (ask_loop_success n attempt rc text tokens Ha Ht).
    eexists. split; [now rewrite Nat.add_0_r|]. split; reflexivity.
  - destruct n as [|n]; [lia|].
    destruct (ask_loop_failure n attempt rc) as [message E];
      [apply Hf; lia|].
    destruct (IH n (attempt + 1) (rc + 1) text tokens) as (evs & E' & Hc & Hs);
      [lia | lia | intros j Hj; apply Hf; lia
      | now replace (attempt + 1 + k) with (attempt + S k) by lia
      | assumption |].
    rewrite E, E'. cbn [fst snd].
    assert (Hlt : (attempt <? maxRetries config) = true)
      by (apply Nat.ltb_lt; lia).
    rewrite Hlt. replace (rc + 1 + k) with (rc + S k) by lia.
    eexists. split; [reflexivity|]. split.
    + cbn [app filter is_create length]. now rewrite Hc.
    + rewrite backoff_from. cbn [app sleeps flat_map].
      fold (sleeps evs). now rewrite Hs.
Qed.

(** The loop when every attempt that is left fails. *)
Lemma ask_loop_all_fail :
  forall n attempt rc,
    attempt + n = maxRetries config + 1 ->
    (forall j, attempt <= j <= maxRetries config ->
       attempt_fails (api j) = true) ->
    exists evs,
      ask_loop n attempt rc =
        (Fails ("Failed after " ++ num_to_string (maxRetries config) ++
                " attempts")%string (rc + n), evs) /\
      length (filter is_create evs) = n /\
      sleeps evs =
        map (fun a => retryDelay config * 2 ^ (a - 1)) (seq attempt (n - 1)).
Proof.
  induction n as [|n IH]; intros attempt rc Hinv Hf.
  - eexists. cbn [AiClient.ask_loop]. split; [now rewrite Nat.add_0_r|].
    split; reflexivity.
  - destruct (ask_loop_failure n attempt rc) as [message E];
      [apply Hf; lia|].
    destruct (IH (attempt + 1) (rc + 1)) as (evs & E' & Hc & Hs);
      [lia | intros j Hj; apply Hf; lia |].
    rewrite E, E'. cbn [fst snd].
    replace (rc + 1 + n) with (rc + S n) by lia.
    eexists. split; [reflexivity|]. split.
    + destruct (attempt <? maxRetries config);
        cbn [app filter is_create length]; now rewrite Hc.
    + destruct n as [|n].
      * assert (Hlt : (attempt <? maxRetries config) = false)
          by (apply Nat.ltb_ge; lia).
        rewrite Hlt. cbn [app sleeps flat_map]. fold (sleeps evs).
        rewrite Hs. reflexivity.
      * assert (Hlt : (attempt <? maxRetries config) = true)
          by (apply Nat.ltb_lt; lia).
        rewrite Hlt. replace (S (S n) - 1) with (S n) by lia.
        rewrite backoff_from. cbn [app sleeps flat_map]. fold (sleeps evs).
        rewrite Hs. now replace (S n - 1) with n by lia.
Qed.

(** The sum of the delays [d, 2d, 4d, ..] of [k] sleeps. *)
Lemma backoff_total (k : nat) :
  list_sum (backoff config k) = retryDelay config * (2 ^ k - 1).
Proof.
  unfold backoff.
  induction k as [|k IH]; [cbn; lia|].
  rewrite seq_S, map_app, list_sum_app, IH.
  cbn [map list_sum Nat.add]. replace (S k - 1) with k by lia.
  rewrite Nat.pow_succ_r'.
  assert (0 < 2 ^ k) by (apply Nat.neq_0_lt_0, Nat.pow_nonzero; lia).
  set (p := 2 ^ k) in *. set (d := retryDelay config).
  replace (2 * p - 1) with ((p - 1) + p) by lia.
  rewrite Nat.mul_add_distr_l. unfold list_sum. cbn [fold_right]. lia.
Qed.

(** [ask] returns the first usable answer: when the attempts before the
    [k]-th fail and the [k]-th resolves with a text that is not blank, the
    response holds that text unchanged and [k - 1] retries, [k] requests
    were sent, and the sleeps before them were the delay doubled each
    time. *)
Theorem ask_stops_at_first_success (k : nat) (text : string)
    (tokens : option nat) :
  str_falsy (trim prompt) = false ->
  1 <= k <= maxRetries config ->
  (forall j, 1 <= j < k -> attempt_fails (api j) = true) ->
  api k = ApiResolves (Some text) tokens ->
  str_falsy (trim text) = false ->
  exists evs,
    ask = (Responds (mk_response text tokens (model config) (k - 1)), evs) /\
    length (filter is_create evs) = k /\
    sleeps evs = backoff config (k - 1).
Proof.
  intros Hp Hk Hf Ha Ht. unfold AiClient.ask. rewrite Hp.
  destruct (ask_loop_first_success (k - 1) (maxRetries config) 1 0
              text tokens) as (evs & E & Hc & Hs);
    [lia | lia | intros j Hj; apply Hf; lia
    | now replace (1 + (k - 1)) with k by lia | assumption |].
  exists evs. split; [exact E|]. split; [rewrite Hc; lia | exact Hs].
Qed.

(** When every attempt fails, [ask] sends exactly [maxRetries] requests,
    sleeps between them (not after the last one) for
    [retryDelay * (2 ^ (maxRetries - 1) - 1)] milliseconds in all, and
    rejects with a message that holds the number of attempts and nothing
    of the last error. *)
Theorem ask_exhausts :
  str_falsy (trim prompt) = false ->
  (forall j, 1 <= j <= maxRetries config -> attempt_fails (api j) = true) ->
  exists evs,
    ask = (Fails ("Failed after " ++ num_to_string (maxRetries config) ++
                  " attempts")%string (maxRetries config), evs) /\
    length (filter is_create evs) = maxRetries config /\
    sleeps evs = backoff config (maxRetries config - 1) /\
    list_sum (sleeps evs) =
      retryDelay config * (2 ^ (maxRetries config - 1) - 1).
Proof.
  intros Hp Hf. unfold AiClient.ask. rewrite Hp.
  destruct (ask_loop_all_fail (maxRetries config) 1 0)
    as (evs & E & Hc & Hs); [lia | exact Hf |].
  exists evs. split; [exact E|]. split; [exact Hc|]. split; [exact Hs|].
  rewrite Hs. apply backoff_total.
Qed.

Lemma ask_loop_responds (n : nat) :
  forall attempt rc r evs,
    attempt + n = maxRetries config + 1 ->
    ask_loop n attempt rc = (Responds r, evs) ->
    exists k,
      attempt <= k <= maxRetries config /\
      api k = ApiResolves (Some (content r)) (totalTokens r) /\
      str_falsy (trim (content r)) = false /\
      retries r = rc + (k - attempt) /\
      length (filter is_create evs) = S (k - attempt).
Proof.
  induction n as [|n IH]; intros attempt rc r evs Hinv E.
  - cbn [AiClient.ask_loop] in E. discriminate.
  - destruct (attempt_fails (api attempt)) eqn:Hf.
    + destruct (ask_loop_failure n attempt rc Hf) as [message E'].
      rewrite E' in E.
      destruct (ask_loop n (attempt + 1) (rc + 1)) as [r' rest] eqn:E2.
      cbn [fst snd] in E. injection E as -> <-.
      destruct (IH (attempt + 1) (rc + 1) r rest) as (k & Hk & Ha & Ht & Hr & Hc);
        [lia | exact E2 |].
      exists k. split; [lia|]. split; [exact Ha|]. split; [exact Ht|].
      split; [lia|].
      destruct (attempt <? maxRetries config);
        cbn [app filter is_create length]; rewrite Hc; lia.
    + destruct (attempt_succeeds _ Hf) as (text & tokens & Ha & Ht).
      rewrite (ask_loop_success n attempt rc text tokens Ha Ht) in E.
      injection E as <- <-. cbn [content totalTokens retries].
      exists attempt. split; [lia|]. split; [exact Ha|]. split; [exact Ht|].
      split; [lia|]. rewrite Nat.sub_diag. reflexivity.
Qed.

(** [ask] resolves exactly when the prompt is not blank and one of the
    attempts [1 .. maxRetries] gets a usable answer; in particular a
    client with [maxRetries = 0] rejects every prompt. *)
Theorem ask_responds_iff :
  (exists r evs, ask = (Responds r, evs)) <->
  str_falsy (trim prompt) = false /\
  exists k, 1 <= k <= maxRetries config /\ attempt_fails (api k) = false.
Proof.
  split.
  - intros (r & evs & E). unfold AiClient.ask in E.
    destruct (str_falsy (trim prompt)); [discriminate|].
    split; [reflexivity|].
    destruct (ask_loop_responds (maxRetries config) 1 0 r evs ltac:(lia) E)
      as (k & Hk & Ha & Ht & _).
    exists k. split; [exact Hk|]. unfold attempt_fails. now rewrite Ha.
  - intros (Hp & k & Hk & Hk').
    (* the first attempt that succeeds *)
    assert (Hfirst : exists k0, 1 <= k0 <= maxRetries config /\
              attempt_fails (api k0) = false /\
              forall j, 1 <= j < k0 -> attempt_fails (api j) = true).
    { clear Hp. revert Hk Hk'.
      induction k as [k IHk] using lt_wf_ind. intros Hk Hk'.
      destruct (existsb (fun j => negb (attempt_fails (api j)))
                  (seq 1 (k - 1))) eqn:Ex.
      - apply existsb_exists in Ex. destruct Ex as (j & Hj & Hj').
        apply in_seq in Hj. apply negb_true_iff in Hj'.
        apply (IHk j); [lia | lia | exact Hj'].
      - exists k. split; [exact Hk|]. split; [exact Hk'|].
        intros j Hj.
        destruct (attempt_fails (api j)) eqn:Ej; [reflexivity|].
        assert (existsb (fun j => negb (attempt_fails (api j)))
                  (seq 1 (k - 1)) = true).
        { apply existsb_exists. exists j. split;
            [apply in_seq; lia | now rewrite Ej]. }
        congruence. }
    destruct Hfirst as (k0 & Hk0 & Hs & Hbefore).
    destruct (attempt_succeeds _ Hs) as (text & tokens & Ha & Ht).
    destruct (ask_loop_first_success (k0 - 1) (maxRetries config) 1 0
                text tokens) as (evs & E & _);
      [lia | lia | intros j Hj; apply Hbefore; lia
      | now replace (1 + (k0 - 1)) with k0 by lia | assumption |].
    unfold AiClient.ask. rewrite Hp, E. eauto.
Qed.

(** A response of [ask] never holds a blank text, counts fewer retries
    than [maxRetries], and cost one request more than it counts
    retries. *)
Lemma ask_response_is_usable (r : AIResponse) (evs : list event) :
  ask = (Responds r, evs) ->
  str_falsy (trim (content r)) = false /\
  retries r < maxRetries config /\
  length (filter is_create evs) = retries r + 1.
Proof.
  intros E. unfold AiClient.ask in E.
  destruct (str_falsy (trim prompt)); [discriminate|].
  destruct (ask_loop_responds (maxRetries config) 1 0 r evs ltac:(lia) E)
    as (k & Hk & _ & Ht & Hr & Hc).
  split; [exact Ht|]. split; [lia|]. rewrite Hc, Hr. lia.
Qed.

Lemma ask_loop_requests (n : nat) :
  forall attempt rc,
    length (filter is_create (snd (ask_loop n attempt rc))) <= n.
Proof.
  induction n as [|n IH]; intros attempt rc; [cbn; lia|].
  destruct (attempt_fails (api attempt)) eqn:Hf.
  - destruct (ask_loop_failure n attempt rc Hf) as [message E].
    rewrite E. cbn [snd]. specialize (IH (attempt + 1) (rc + 1)).
    destruct (attempt <? maxRetries config);
      cbn [app filter is_create length]; lia.
  - destruct (attempt_succeeds _ Hf) as (text & tokens & Ha & Ht).
    rewrite (ask_loop_success n attempt rc text tokens Ha Ht).
    cbn. lia.
Qed.

End AiClientAsk.

Section AiClientAskAI.

Import Js AiClient.

Lemma askAI_content (apiKey prompt text : string)
    (api : nat -> api_outcome) (evs : list event) :
  askAI apiKey api prompt = (Content text, evs) ->
  str_falsy (trim text) = false /\ length (filter is_create evs) <= 3.
Proof.
  unfold askAI. destruct (str_falsy (trim apiKey)); [discriminate|].
  destruct (ask default_config api prompt) as [[r|message k] evs'] eqn:E;
    [|discriminate].
  intros [= <- <-]. unfold ask in E.
  destruct (str_falsy (trim prompt)); [discriminate|].
  destruct (ask_loop_responds default_config api prompt 3 1 0 r evs'
              eq_refl E) as (k & Hb & _ & Ht & _ & Hc).
  cbn [maxRetries default_config] in Hb.
  split; [exact Ht | rewrite Hc; lia].
Qed.

(** [askAI] sends at most three requests whatever the API answers, none
    when the key of the configuration or the prompt is blank, and a text
    it resolves with is never blank. *)
Theorem askAI_bounded (apiKey prompt : string) (api : nat -> api_outcome) :
  let (r, evs) := askAI apiKey api prompt in
  length (filter is_create evs) <= 3 /\
  ((str_falsy (trim apiKey) || str_falsy (trim prompt)) = true ->
   evs = []) /\
  (forall text, r = Content text -> str_falsy (trim text) = false).
Proof.
  unfold askAI.
  destruct (str_falsy (trim apiKey)) eqn:Hk.
  - split; [cbn; lia|]. split; [reflexivity | discriminate].
  - destruct (ask default_config api prompt) as [[r|message k] evs] eqn:E.
    + assert (Hp : str_falsy (trim prompt) = false).
      { unfold ask in E. destruct (str_falsy (trim prompt));
          [discriminate | reflexivity]. }
      unfold ask in E. rewrite Hp in E.
      destruct (ask_loop_responds default_config api prompt 3 1 0 r evs
                  eq_refl E) as (k & Hb & _ & Ht & _ & Hc).
      cbn [maxRetries default_config] in Hb.
      split; [rewrite Hc; lia|].
      split.
      * cbn [orb]. intros Hp'. congruence.
      * intros text [= <-]. exact Ht.
    + split.
      * unfold ask in E. destruct (str_falsy (trim prompt)).
        -- injection E as _ _ <-. cbn; lia.
        -- pose proof (ask_loop_requests default_config api prompt 3 1 0) as H.
           cbn [maxRetries default_config] in E. rewrite E in H. exact H.
      * split; [|discriminate].
        cbn [orb]. intros Hp. unfold ask in E. rewrite Hp in E.
        now injection E as _ _ <-.
Qed.

End AiClientAskAI.

(** ** The test generator *)

Section GeneratorInputs.

Import Js TestGenerator.

Lemma name_char_not_white (c : ascii) :
  is_name_char c = true -> is_white_space c = false.
Proof.
  destruct c as [[] [] [] [] [] [] [] []]; vm_compute; congruence.
Qed.

Lemma nl_is_white (c : ascii) : is_nl c = true -> is_white_space c = true.
Proof.
  unfold is_nl, is_white_space. intros H. apply Nat.eqb_eq in H.
  rewrite H. reflexivity.
Qed.

Lemma all_white_trim_start (s : string) :
  all_white (trim_start s) = all_white s.
Proof.
  induction s as [|c r IH]; [reflexivity|].
  cbn [trim_start]. destruct (is_white_space c) eqn:Hc.
  - rewrite IH. cbn [all_white]. now rewrite Hc.
  - reflexivity.
Qed.

Lemma falsy_trim_end (s : string) : str_falsy (trim_end s) = all_white s.
Proof.
  induction s as [|c r IH]; [reflexivity|].
  cbn [trim_end all_white].
  destruct (trim_end r) as [|c' r'].
  - cbn [str_falsy] in IH. rewrite <- IH.
    destruct (is_white_space c); reflexivity.
  - cbn [str_falsy] in IH |- *. rewrite <- IH.
    now rewrite andb_false_r.
Qed.

(** [!s.trim()] holds exactly for the texts made of white space. *)
Lemma falsy_trim (s : string) : str_falsy (trim s) = all_white s.
Proof.
  unfold trim. now rewrite falsy_trim_end, all_white_trim_start.
Qed.

Lemma name_chars_not_white (s : string) :
  name_matches s = true -> all_white s = false.
Proof.
  unfold name_matches. destruct s as [|c r]; [discriminate|].
  cbn [str_falsy negb andb all_name_chars all_white].
  intros H. apply andb_true_iff in H. destruct H as [Hc _].
  now rewrite (name_char_not_white c Hc).
Qed.

(** [validateInputs] accepts exactly the prompts that are not blank with
    a name made of one or more letters, digits, underscores and hyphens:
    the check for a blank name changes the message of a rejection and
    never its outcome. *)
Theorem validateInputs_accepts_iff (prompt testName : string) :
  validateInputs prompt testName = Normal tt <->
  str_falsy (trim prompt) = false /\ name_matches testName = true.
Proof.
  unfold validateInputs. split.
  - destruct (str_falsy (trim prompt)); [discriminate|].
    destruct (str_falsy (trim testName)); [discriminate|].
    destruct (name_matches testName); [auto | discriminate].
  - intros [Hp Hn]. rewrite Hp.
    rewrite (falsy_trim testName), (name_chars_not_white testName Hn), Hn.
    reflexivity.
Qed.

End GeneratorInputs.

Section GeneratorFormat.

Import Js TestGenerator.

Lemma short_runs_mono (s : string) :
  forall j k, j <= k -> short_runs k s = true -> short_runs j s = true.
Proof.
  induction s as [|c r IH]; intros j k Hjk; [reflexivity|].
  cbn [short_runs]. destruct (is_nl c); [|auto].
  intros H. apply andb_true_iff in H. destruct H as [Hk Hr].
  apply Nat.ltb_lt in Hk. apply andb_true_iff. split.
  - apply Nat.ltb_lt. lia.
  - apply (IH (S j) (S k)); [lia | exact Hr].
Qed.

Lemma collapse_short_runs (s : string) :
  forall k, short_runs k (collapse_from k s) = true.
Proof.
  induction s as [|c r IH]; intros k; [reflexivity|].
  cbn [collapse_from]. destruct (is_nl c) eqn:Hc.
  - destruct (k <? 2) eqn:Hk; [|apply IH].
    cbn [short_runs]. now rewrite Hc, Hk, IH.
  - cbn [short_runs]. now rewrite Hc, IH.
Qed.

Lemma short_runs_tail (c : ascii) (r : string) (k : nat) :
  short_runs k (String c r) = true -> short_runs 0 r = true.
Proof.
  cbn [short_runs]. destruct (is_nl c); [|auto].
  intros H. apply andb_true_iff in H. destruct H as [_ Hr].
  apply (short_runs_mono r 0 (S k)); [lia | exact Hr].
Qed.

Lemma trim_start_short_runs (s : string) :
  forall k, short_runs k s = true -> short_runs 0 (trim_start s) = true.
Proof.
  induction s as [|c r IH]; intros k H; [reflexivity|].
  cbn [trim_start]. destruct (is_white_space c).
  - apply (IH 0). exact (short_runs_tail c r k H).
  - apply (short_runs_mono _ 0 k); [lia | exact H].
Qed.

Lemma trim_start_head (s : string) (c : ascii) (r : string) :
  trim_start s = String c r -> is_white_space c = false.
Proof.
  induction s as [|c' r' IH]; [discriminate|].
  cbn [trim_start]. destruct (is_white_space c') eqn:Hc; [exact IH|].
  intros [= <- _]. exact Hc.
Qed.

Lemma trim_end_head (c : ascii) (r : string) (c' : ascii) (r' : string) :
  trim_end (String c r) = String c' r' -> c' = c.
Proof.
  cbn [trim_end]. destruct (trim_end r); [destruct (is_white_space c)|];
    congruence.
Qed.

(** A line feed after a text trimmed at its end makes no long run. *)
Lemma trim_end_short_runs (s : string) :
  forall k,
    short_runs k s = true -> trim_end s <> "" ->
    short_runs k (trim_end s ++ AiClient.nl) = true.
Proof.
  induction s as [|c r IH]; intros k H Hne; [now cbn in Hne|].
  cbn [trim_end] in Hne |- *.
  destruct (trim_end r) as [|c' r'] eqn:E.
  - destruct (is_white_space c) eqn:Hc; [congruence|].
    cbn [append short_runs].
    destruct (is_nl c) eqn:Hn; [|reflexivity].
    rewrite (nl_is_white c Hn) in Hc. discriminate.
  - cbn [append short_runs] in H |- *.
    destruct (is_nl c).
    + apply andb_true_iff in H. destruct H as [Hk Hr]. rewrite Hk.
      apply (IH (S k) Hr). discriminate.
    + apply (IH 0 H). discriminate.
Qed.

Lemma three_line_feeds (a b : string) :
  forall k,
    short_runs k
      (a ++ AiClient.nl ++ AiClient.nl ++ AiClient.nl ++ b) = false.
Proof.
  induction a as [|c r IH]; intros k.
  - cbn. destruct k as [|[|k]]; reflexivity.
  - cbn [append short_runs]. destruct (is_nl c); [|apply IH].
    rewrite IH. apply andb_false_r.
Qed.

Lemma header_short_runs (s : string) :
  short_runs 0 (header ++ s) = short_runs 2 s.
Proof. reflexivity. Qed.

Lemma all_white_trim_end (s : string) :
  all_white (trim_end s) = all_white s.
Proof.
  induction s as [|c r IH]; [reflexivity|].
  cbn [trim_end all_white].
  destruct (trim_end r) as [|c' r'].
  - cbn [all_white] in IH. rewrite <- IH.
    destruct (is_white_space c) eqn:Hc; cbn [all_white]; now rewrite ?Hc.
  - cbn [all_white] in IH |- *. now rewrite IH.
Qed.

Lemma all_white_app (a b : string) :
  all_white (a ++ b) = all_white a && all_white b.
Proof.
  induction a as [|c r IH]; [reflexivity|].
  cbn [append all_white]. now rewrite IH, andb_assoc.
Qed.

Lemma all_white_join (l : list string) :
  all_white (join AiClient.nl l) = forallb all_white l.
Proof.
  unfold join. induction l as [|x [|y l] IH]; [reflexivity | |].
  - cbn. now rewrite andb_true_r.
  - change (String.concat AiClient.nl (x :: y :: l))
      with (x ++ AiClient.nl ++ String.concat AiClient.nl (y :: l))%string.
    rewrite !all_white_app, IH. reflexivity.
Qed.

Lemma all_white_split_lines (s : string) :
  forallb all_white (split_lines s) = all_white s.
Proof.
  induction s as [|c r IH]; [reflexivity|].
  cbn [split_lines all_white]. destruct (is_nl c) eqn:Hc.
  - cbn [forallb all_white andb]. now rewrite IH, (nl_is_white c Hc).
  - destruct (split_lines r) as [|l ls].
    + cbn [forallb] in IH. rewrite <- IH.
      cbn [forallb all_white]. now rewrite !andb_true_r.
    + cbn [forallb all_white] in IH |- *. rewrite <- IH.
      now rewrite andb_assoc.
Qed.

Lemma all_white_map_trim_end (l : list string) :
  forallb all_white (map trim_end l) = forallb all_white l.
Proof.
  induction l as [|x l IH]; [reflexivity|].
  cbn [map forallb]. now rewrite all_white_trim_end, IH.
Qed.

Lemma all_white_collapse (s : string) :
  forall k, all_white (collapse_from k s) = all_white s.
Proof.
  induction s as [|c r IH]; intros k; [reflexivity|].
  cbn [collapse_from all_white]. destruct (is_nl c) eqn:Hc.
  - rewrite (nl_is_white c Hc). destruct (k <? 2).
    + cbn [all_white]. now rewrite (nl_is_white c Hc), IH.
    + now rewrite IH.
  - cbn [all_white]. now rewrite IH.
Qed.

Lemma trim_end_idempotent (s : string) : trim_end (trim_end s) = trim_end s.
Proof.
  induction s as [|c r IH]; [reflexivity|].
  cbn [trim_end]. destruct (trim_end r) as [|c' r'] eqn:E.
  - destruct (is_white_space c) eqn:Hc; [reflexivity|].
    cbn [trim_end]. now rewrite Hc.
  - cbn [trim_end] in IH |- *. now rewrite IH.
Qed.

Lemma trim_idempotent (s : string) : trim (trim s) = trim s.
Proof.
  unfold trim. destruct (trim_start s) as [|c r] eqn:E; [reflexivity|].
  pose proof (trim_start_head s c r E) as Hc.
  destruct (trim_end (String c r)) as [|c' r'] eqn:E'; [reflexivity|].
  rewrite (trim_end_head c r c' r' E'). cbn [trim_start]. rewrite Hc.
  rewrite <- (trim_end_head c r c' r' E'), <- E'.
  apply trim_end_idempotent.
Qed.

(** The code that [formatTestCode] makes of a content that is not blank
    is the header, a body without white space at either end, and one
    line feed; nowhere in it do three line feeds follow each other. *)
Theorem formatTestCode_blank_lines (content : string) :
  str_falsy (trim content) = false ->
  exists body,
    formatTestCode content = (header ++ body ++ AiClient.nl)%string /\
    body <> "" /\ trim body = body /\
    forall a b,
      formatTestCode content <>
      (a ++ AiClient.nl ++ AiClient.nl ++ AiClient.nl ++ b)%string.
Proof.
  intros Hc. unfold formatTestCode.
  set (x := collapse_blank_lines
              (join AiClient.nl (map trim_end (split_lines content)))).
  assert (Hw : all_white x = false).
  { unfold x, collapse_blank_lines.
    rewrite all_white_collapse, all_white_join, all_white_map_trim_end,
      all_white_split_lines, <- falsy_trim. exact Hc. }
  assert (Hne : trim x <> "").
  { rewrite <- falsy_trim in Hw. destruct (trim x); [discriminate|].
    discriminate. }
  exists (trim x). split; [reflexivity|]. split; [exact Hne|]. split.
  - apply trim_idempotent.
  - intros a b E.
    assert (Hs : short_runs 0 (header ++ trim x ++ AiClient.nl) = true).
    { rewrite header_short_runs.
      assert (H0 : short_runs 0 (trim x ++ AiClient.nl) = true).
      { unfold trim in Hne |- *. apply trim_end_short_runs; [|exact Hne].
        apply (trim_start_short_runs x 0). apply collapse_short_runs. }
      destruct (trim x) as [|c r] eqn:Et; [congruence|].
      assert (Hh : is_white_space c = false).
      { unfold trim in Et. destruct (trim_start x) as [|c0 r0] eqn:E0;
          [discriminate|].
        rewrite (trim_end_head c0 r0 c r Et).
        exact (trim_start_head x c0 r0 E0). }
      cbn [append short_runs] in H0 |- *.
      destruct (is_nl c) eqn:Hn; [|exact H0].
      rewrite (nl_is_white c Hn) in Hh. discriminate. }
    rewrite E, three_line_feeds in Hs. discriminate.
Qed.

End GeneratorFormat.

Section GeneratorRuns.

Import Js TestGenerator.

Variable cwd : string.
Variable path_join : string -> string -> string.
Variable validateTestSyntax : string -> list string.
Variable w : World.

Local Abbreviation generateTest :=
  (TestGenerator.generateTest cwd path_join validateTestSyntax w).
Local Abbreviation try_generate :=
  (TestGenerator.try_generate cwd path_join validateTestSyntax w).

Lemma validateInputs_throws (prompt testName : string) (t : thrown) :
  validateInputs prompt testName = Throws t ->
  is_TestGenerationError t = true /\
  exists details,
    t = ThrownError (TestGenerationError (message_of t) details) /\
    In (message_of t)
      ["Prompt cannot be empty"; "Test name cannot be empty";
       "Test name contains invalid characters"].
Proof.
  unfold validateInputs.
  destruct (str_falsy (trim prompt)).
  - intros [= <-]. split; [reflexivity|]. eexists. split; [reflexivity|].
    cbn. auto.
  - destruct (str_falsy (trim testName)).
    + intros [= <-]. split; [reflexivity|]. eexists.
      split; [reflexivity|]. cbn. auto.
    + destruct (name_matches testName); [discriminate|].
      intros [= <-]. split; [reflexivity|]. eexists.
      split; [reflexivity|]. cbn. auto.
Qed.

(** Inputs that [validateInputs] rejects make [generateTest] reject with
    the same error before it touches anything. *)
Lemma generateTest_rejected_inputs (prompt testName : string)
    (opts : TestGeneratorOptions) (t : thrown) :
  validateInputs prompt testName = Throws t ->
  generateTest prompt testName opts = (Throws t, []).
Proof.
  intros H. destruct (validateInputs_throws prompt testName t H) as [Ht _].
  unfold TestGenerator.generateTest, TestGenerator.try_generate.
  rewrite H. cbn [and_then]. now rewrite Ht.
Qed.

(** Each failure of [generateTest] carries the message of the step that
    failed and the effects up to that step.  Inputs that are refused are
    rejected with the error of the validation, nothing being touched; a
    directory that cannot be made gives "Failed to create output
    directory"; an AI that gives no answer gives "Failed to generate test
    content", after the directory was made; a file that cannot be
    written, the test or its metadata, gives "Failed to write test file",
    after the requests to the AI.  The details are the message of the
    cause.  The general message of the [catch] block of [generateTest],
    "Failed to generate test", is never used. *)
Theorem generateTest_failure_names_step (prompt testName : string)
    (opts : TestGeneratorOptions) :
  let dir := path_join cwd (outputDir opts) in
  let file := path_join dir (testName ++ fileExtension opts)%string in
  let answer :=
    AiClient.askAI (apiKey w) (api w) (enhancedPrompt prompt) in
  (forall t,
     validateInputs prompt testName = Throws t ->
     generateTest prompt testName opts = (Throws t, [])) /\
  (forall cause,
     validateInputs prompt testName = Normal tt ->
     mkdir_rejects w = Some cause ->
     generateTest prompt testName opts =
     (Throws (ThrownError (TestGenerationError
        "Failed to create output directory" (Some (message_of cause)))),
      [Mkdir dir])) /\
  (forall message retries,
     validateInputs prompt testName = Normal tt ->
     mkdir_rejects w = None ->
     fst answer = AiClient.AIError message retries ->
     generateTest prompt testName opts =
     (Throws (ThrownError (TestGenerationError
        "Failed to generate test content" (Some message))),
      Mkdir dir :: map Ai (snd answer))) /\
  (forall baseContent cause,
     validateInputs prompt testName = Normal tt ->
     mkdir_rejects w = None ->
     fst answer = AiClient.Content baseContent ->
     write_test_rejects w = Some cause ->
     generateTest prompt testName opts =
     (Throws (ThrownError (TestGenerationError
        "Failed to write test file" (Some (message_of cause)))),
      Mkdir dir :: map Ai (snd answer) ++
      [WriteFile file (written_content opts baseContent)])) /\
  (forall baseContent cause,
     validateInputs prompt testName = Normal tt ->
     mkdir_rejects w = None ->
     fst answer = AiClient.Content baseContent ->
     write_test_rejects w = None ->
     write_meta_rejects w = Some cause ->
     generateTest prompt testName opts =
     (Throws (ThrownError (TestGenerationError
        "Failed to write test file" (Some (message_of cause)))),
      Mkdir dir :: map Ai (snd answer) ++
      [WriteFile file (written_content opts baseContent);
       WriteMetadata (file ++ ".meta.json")%string
         (length (split_lines (written_content opts baseContent)))
         (utf8_length (written_content opts baseContent))])) /\
  (forall t evs,
     generateTest prompt testName opts = (Throws t, evs) ->
     is_TestGenerationError t = true /\
     message_of t <> "Failed to generate test").
Proof.
  cbv zeta.
  split; [apply generateTest_rejected_inputs|].
  unfold TestGenerator.generateTest, TestGenerator.try_generate,
    ensureOutputDirectory, generateTestContent, writeTestFile, wrap,
    written_content.
  split; [|split; [|split; [|split]]].
  - intros cause Hv Hm. rewrite Hv, Hm. reflexivity.
  - intros message retries Hv Hm Ha. rewrite Hv, Hm. cbn [and_then].
    destruct (AiClient.askAI _ _ _) as [r ai]. cbn [fst snd] in *.
    subst r. reflexivity.
  - intros baseContent cause Hv Hm Ha Hw. rewrite Hv, Hm. cbn [and_then].
    destruct (AiClient.askAI _ _ _) as [r ai]. cbn [fst snd] in *.
    subst r. cbn [and_then]. rewrite Hw. cbn [and_then app].
    reflexivity.
  - intros baseContent cause Hv Hm Ha Hw Hx. rewrite Hv, Hm.
    cbn [and_then].
    destruct (AiClient.askAI _ _ _) as [r ai]. cbn [fst snd] in *.
    subst r. cbn [and_then]. rewrite Hw, Hx. cbn [and_then app].
    reflexivity.
  - intros t evs.
    destruct (validateInputs prompt testName) as [[]|t0] eqn:Hv.
    + cbn [and_then].
      destruct (mkdir_rejects w) as [tm|].
      { cbn. intros [= <- <-]. split; [reflexivity | discriminate]. }
      cbn [and_then].
      destruct (AiClient.askAI _ _ _) as [[base|message k] ai].
      * cbn [and_then].
        destruct (write_test_rejects w) as [tw|].
        { cbn. intros [= <- <-]. split; [reflexivity | discriminate]. }
        destruct (write_meta_rejects w) as [tw|].
        { cbn. intros [= <- <-]. split; [reflexivity | discriminate]. }
        cbn. discriminate.
      * cbn. intros [= <- <-]. split; [reflexivity | discriminate].
    + destruct (validateInputs_throws prompt testName t0 Hv)
        as (Ht & details & Et & Hin).
      cbn [and_then]. rewrite Ht. intros [= <- <-].
      split; [exact Ht|].
      cbn in Hin. intros E. rewrite E in Hin.
      destruct Hin as [H|[H|[H|[]]]]; discriminate.
Qed.

(** When [generateTest] resolves, the inputs were valid, the file it
    names lies in the output directory under the test name, and what it
    did is: make the directory, ask the AI with at most three requests,
    write the content it returns to that file, write the metadata beside
    it.  With code formatting and no template the content is the
    formatted form of an answer of the AI that is not blank. *)
Theorem generateTest_resolves (prompt testName : string)
    (opts : TestGeneratorOptions) (g : GeneratedTest) (evs : list event) :
  generateTest prompt testName opts = (Normal g, evs) ->
  validateInputs prompt testName = Normal tt /\
  filePath g =
    path_join (path_join cwd (outputDir opts))
      (testName ++ fileExtension opts)%string /\
  exists ai,
    evs =
      Mkdir (path_join cwd (outputDir opts)) :: map Ai ai ++
      [WriteFile (filePath g) (content g);
       WriteMetadata (filePath g ++ ".meta.json")%string
         (length (split_lines (content g))) (utf8_length (content g))] /\
    length (filter AiClient.is_create ai) <= 3 /\
    (str_falsy (template opts) = true -> formatCode opts = true ->
     exists text,
       str_falsy (trim text) = false /\ content g = formatTestCode text).
Proof.
  destruct (validateInputs prompt testName) as [[]|t0] eqn:Hv.
  2:{ rewrite (generateTest_rejected_inputs prompt testName opts t0 Hv).
      discriminate. }
  unfold TestGenerator.generateTest, TestGenerator.try_generate.
  rewrite Hv. cbn [and_then].
  unfold ensureOutputDirectory, generateTestContent, writeTestFile, wrap.
  destruct (mkdir_rejects w) as [tm|]; [cbn; discriminate|].
  cbn [and_then].
  destruct (AiClient.askAI (apiKey w) (api w) (enhancedPrompt prompt))
    as [[base|message k] ai] eqn:Ea; [|cbn; discriminate].
  destruct (askAI_content _ _ _ _ _ Ea) as [Hb Hc].
  cbn [and_then].
  destruct (write_test_rejects w) as [tw|]; [cbn; discriminate|].
  destruct (write_meta_rejects w) as [tw|]; [cbn; discriminate|].
  cbn [and_then app]. intros [= <- <-]. cbn [filePath content].
  split; [reflexivity|]. split; [reflexivity|].
  exists ai. split; [reflexivity|]. split; [exact Hc|].
  intros Ht Hf. rewrite Ht, Hf. exists base. split; [exact Hb | reflexivity].
Qed.

End GeneratorRuns.

(** ** The generator inside the retry runner *)

Section PipelineRuns.

Import Js RerunHandler.

Variable resolve_test_path : string -> string -> string.
Variable cwd : string.
Variable path_join : string -> string -> string.
Variable validateTestSyntax : string -> list string.
Variable worlds : nat -> TestGenerator.World.
Variable exec : nat -> option thrown.
Variables (prompt tag : string) (attempts : nat) (options : RunOptions).

Local Abbreviation generated :=
  (Pipeline.generated cwd path_join validateTestSyntax worlds prompt tag).
Local Abbreviation generate :=
  (Pipeline.generate cwd path_join validateTestSyntax worlds prompt tag).

(** A prompt or a tag that [validateInputs] rejects fails the same way
    at every attempt: [runWithRetries] uses up its attempts without a
    single directory, AI request, file or test execution, and throws
    "Test failed after N attempts: " followed by the message of the
    validation. *)
Theorem rejected_inputs_exhaust_attempts (t : thrown) :
  TestGenerator.validateInputs prompt tag = Throws t ->
  1 <= attempts ->
  exists evs,
    runWithRetries resolve_test_path prompt tag attempts options generate
      exec =
      (Throws (ThrownError (Error
         ("Test failed after " ++ num_to_string attempts ++ " attempts: " ++
          message_of t)%string)), evs) /\
    filter is_generate evs = repeat (Generate prompt tag) attempts /\
    filter is_execute evs = [] /\
    forall i, snd (generated i) = [].
Proof.
  intros Hv Hn.
  assert (Hg : forall i, generated i = (Throws t, [])).
  { intros i. unfold Pipeline.generated.
    now apply generateTest_rejected_inputs. }
  assert (Hp : forall i, generate i = Some t).
  { intros i. unfold Pipeline.generate. now rewrite Hg. }
  destruct (attempt_loop_exhausts resolve_test_path prompt attempts options
              generate exec tag attempts 1)
    as (evs & E & Hgen & Hexe & _); [lia | lia |].
  rewrite Hp in E. cbn [attempt_failure] in E.
  exists evs. split; [exact E|]. split; [exact Hgen|].
  split; [exact Hexe|]. intros i. now rewrite Hg.
Qed.

End PipelineRuns.

(** ** The properties at work on sample inputs *)

Section MoreSamples.

Import Js Orchestrator Sample Fixtures.

(** A click that succeeds at the third attempt. *)
Lemma withRetry_stops_at_first_success_witness :
  exists evs,
    SafeActions.withRetry found_third click_options "Click"
      (Some "#submit") =
      (Normal (SafeActions.mk_result true (Some 7) None 3), evs) /\
    SafeActions.time_line evs =
      [SafeActions.CallAction 1; SafeActions.Sleep 100;
       SafeActions.CallAction 2; SafeActions.Sleep 200;
       SafeActions.CallAction 3].
Proof.
  destruct (withRetry_stops_at_first_success found_third click_options
              "Click" (Some "#submit") 3 7) as (evs & E & Ht).
  - cbn. lia.
  - reflexivity.
  - intros j Hj. assert (j = 1 \/ j = 2) as [-> | ->] by lia;
      eexists; reflexivity.
  - intros callback e k H. discriminate.
  - exists evs. split; [exact E | exact Ht].
Defined.

(** A known key between two plain texts. *)
Lemma interpolate_known_key_witness :
  interpolateConfigPlaceholders CONFIG
    ("open " ++ "${CONFIG." ++ "BASE_URL" ++ "}" ++ "/login") =
  bind (interpolateConfigPlaceholders CONFIG "open ") (fun a =>
  bind (interpolateConfigPlaceholders CONFIG "/login") (fun b =>
  Normal (a ++ "https://x" ++ b)%string)).
Proof.
  apply (interpolate_known_key CONFIG "open " "BASE_URL" "/login"
           "https://x").
  - discriminate.
  - reflexivity.
  - reflexivity.
Defined.

(** A prompt without placeholders. *)
Lemma interpolate_without_opener_witness :
  occurs "${CONFIG." "open the home page" = false /\
  interpolateConfigPlaceholders CONFIG "open the home page" =
  Normal "open the home page".
Proof.
  split; [reflexivity|].
  apply (interpolate_without_opener CONFIG "open the home page").
  reflexivity.
Defined.

(** Five scenarios, two at a time: three chunks. *)
Lemma make_chunks_count_witness :
  exists chunks,
    make_chunks 2 ["s1"; "s2"; "s3"; "s4"; "s5"] = Some chunks /\
    length chunks = 3.
Proof.
  destruct (make_chunks_count 2 ["s1"; "s2"; "s3"; "s4"; "s5"])
    as (chunks & E & L); [lia|].
  exists chunks. split; [exact E | exact L].
Defined.

(** Three scenarios, two at a time, the run goes on after the failures. *)
Lemma main_continue_on_failure_witness :
  exists stats evs,
    main resolve_test_path CONFIG (config 2 true) [s1; s2; s3] None None
      first_is_slow = Some (Completed stats, evs) /\
    total stats = 3 /\ passed stats = 0 /\
    failed stats = ["s1"; "s2"; "s3"] /\
    process_exit (Completed stats) = Some 1.
Proof.
  destruct (main_continue_on_failure resolve_test_path CONFIG
              (config 2 true) [s1; s2; s3] None None first_is_slow)
    as (stats & evs & E & _ & Ht & Hp & Hf & Hexit & _).
  - cbn. lia.
  - reflexivity.
  - discriminate.
  - exists stats, evs. split; [exact E|].
    split; [exact Ht|].
    split; [rewrite Hp; lazy; reflexivity|].
    assert (Hf' : failed stats = ["s1"; "s2"; "s3"])
      by (rewrite Hf; lazy; reflexivity).
    split; [exact Hf'|].
    apply Hexit. rewrite Hf'. discriminate.
Defined.

(** Three scenarios, two at a time, the run stops at the first chunk. *)
Lemma main_never_passes_witness :
  exists evs,
    main resolve_test_path CONFIG (config 2 false) [s1; s2; s3] None None
      (fun _ => generating 10) = Some (Aborted (abort_error s1), evs) /\
    started_tags evs = ["s1"; "s2"].
Proof.
  destruct (main_never_passes resolve_test_path CONFIG (config 2 false)
              [s1; s2; s3] None None (fun _ => generating 10))
    as (_ & _ & H & _).
  - cbn. lia.
  - cbn. lia.
  - discriminate.
  - destruct (H eq_refl) as (p & rest & evs & Hsel & E & Hs).
    injection Hsel as <- _.
    exists evs. split; [exact E | exact Hs].
Defined.

(** A tag that no scenario carries. *)
Lemma main_no_matching_tag_witness :
  main resolve_test_path CONFIG (config 2 true) [s1; s2; s3] (Some "s9")
    None (fun _ => generating 10) = Some (NoScenarios, []) /\
  process_exit NoScenarios = None.
Proof.
  apply (main_no_matching_tag resolve_test_path CONFIG (config 2 true)
           [s1; s2; s3] "s9" None (fun _ => generating 10)).
  - discriminate.
  - intros p [<- | [<- | [<- | []]]]; discriminate.
Defined.

(** The signal is raised while the first chunk runs: the third scenario,
    alone in the second chunk, is refused. *)
Lemma main_after_abort_witness :
  exists stats evs,
    main resolve_test_path CONFIG (config 2 true) [s1; s2; s3] None
      (Some 1) (fun _ => generating 10) = Some (Completed stats, evs) /\
    started_tags evs = ["s1"; "s2"; "s3"] /\
    In "s3" (failed stats).
Proof.
  destruct (main_after_abort resolve_test_path CONFIG (config 2 true)
              [s1; s2; s3] None 1 (fun _ => generating 10))
    as (stats & evs & E & Hs & H).
  - cbn. lia.
  - reflexivity.
  - discriminate.
  - exists stats, evs. split; [exact E|]. split; [exact Hs|].
    destruct (H 2 s3) as (_ & Hin); [reflexivity | cbn; lia | exact Hin].
Defined.

(** The user name of the QA environment. *)
Lemma loaded_key_resolves_witness :
  ConfigTs.load environment = Normal CONFIG /\
  exists v,
    v <> "" /\ lookup "USERNAME" (config_entries CONFIG) = Some v.
Proof.
  split; [reflexivity|].
  destruct (loaded_key_resolves environment CONFIG "USERNAME")
    as (v & Hv & Hl & _).
  - reflexivity.
  - reflexivity.
  - exists v. split; [exact Hv | exact Hl].
Defined.

(** The environment is QA, the command line asks for UAT. *)
Lemma environment_argument_ignored_witness :
  fst (Cli.orchestrator_process resolve_test_path (config 2 true)
         [s1; s2; s3] environment None (Some "UAT") None
         (fun _ => generating 10)) =
  Cli.Ran (main resolve_test_path CONFIG (config 2 true) [s1; s2; s3] None
             None (fun _ => generating 10)).
Proof.
  apply (environment_argument_ignored environment resolve_test_path
           (config 2 true) [s1; s2; s3] None (Some "UAT") None
           (fun _ => generating 10)).
  right. right. exists "UAT". split; [reflexivity|].
  right. left. reflexivity.
Defined.

(** An environment that does not exist. *)
Lemma rejected_argument_runs_nothing_witness :
  Cli.orchestrator_process resolve_test_path (config 2 true) [s1; s2; s3]
    environment None (Some "staging") None (fun _ => generating 10) =
  (Cli.ArgumentsRejected (ThrownError (OrchestrationError
     "Invalid environment: staging"
     (Some "Must be one of: qa, uat, prod"))), environment).
Proof.
  apply (rejected_argument_runs_nothing environment resolve_test_path
           (config 2 true) [s1; s2; s3] None "staging" None
           (fun _ => generating 10) CONFIG).
  - reflexivity.
  - discriminate.
  - intros [H | [H | [H | []]]]; discriminate.
Defined.

(** The input holds what was typed. *)
Lemma fillSafe_success_is_verified_witness :
  exists r evs,
    SafeWrappers.fillSafe (fun _ => typed "tester") "#user" "tester"
      SafeWrappers.no_options = (Normal r, evs) /\
    SafeActions.success r = true /\
    SafeWrappers.input_value (typed "tester") = Normal "tester".
Proof.
  destruct (SafeWrappers.fillSafe (fun _ => typed "tester") "#user" "tester"
              SafeWrappers.no_options) as [[r|t] evs] eqn:E;
    [|vm_compute in E; discriminate].
  assert (Hs : SafeActions.success r = true)
    by (vm_compute in E; injection E as <- _; reflexivity).
  destruct (fillSafe_success_is_verified (fun _ => typed "tester") "#user"
              "tester" SafeWrappers.no_options r evs E Hs)
    as (_ & _ & Hv).
  exists r, evs. split; [reflexivity|]. split; [exact Hs | exact Hv].
Defined.

(** The input drops a letter at every attempt. *)
Lemma fillSafe_mismatch_fails_witness :
  exists r evs,
    SafeWrappers.fillSafe (fun _ => typed "tster") "#user" "tester"
      SafeWrappers.no_options = (Normal r, evs) /\
    SafeActions.success r = false /\ SafeActions.attempts r = 3.
Proof.
  destruct (fillSafe_mismatch_fails (fun _ => typed "tster") "#user"
              "tester" SafeWrappers.no_options (fun _ => "tster"))
    as (evs & E).
  - cbn. lia.
  - reflexivity.
  - intros k. reflexivity.
  - intros k. discriminate.
  - eexists. exists evs. split; [exact E|]. split; reflexivity.
Defined.

(** Two time-outs, then an answer. *)
Lemma ask_stops_at_first_success_witness :
  exists evs,
    AiClient.ask AiClient.default_config answers_third "write a test" =
      (AiClient.Responds
         (AiClient.mk_response "test('home', async () => {});" (Some 42)
            "gpt-3.5-turbo" 2), evs) /\
    length (filter AiClient.is_create evs) = 3 /\
    AiClient.sleeps evs = [1000; 2000].
Proof.
  destruct (ask_stops_at_first_success AiClient.default_config
              answers_third "write a test" 3
              "test('home', async () => {});" (Some 42))
    as (evs & E & Hc & Hs).
  - reflexivity.
  - cbn. lia.
  - intros j Hj. assert (j = 1 \/ j = 2) as [-> | ->] by lia; reflexivity.
  - reflexivity.
  - reflexivity.
  - exists evs. split; [exact E|]. split; [exact Hc | exact Hs].
Defined.

(** An API that is down. *)
Lemma ask_exhausts_witness :
  exists evs,
    AiClient.ask AiClient.default_config unreachable "write a test" =
      (AiClient.Fails "Failed after 3 attempts" 3, evs) /\
    length (filter AiClient.is_create evs) = 3 /\
    list_sum (AiClient.sleeps evs) = 3000.
Proof.
  destruct (ask_exhausts AiClient.default_config unreachable
              "write a test") as (evs & E & Hc & _ & Hs).
  - reflexivity.
  - intros j Hj. reflexivity.
  - exists evs. split; [exact E|]. split; [exact Hc | exact Hs].
Defined.

(** A draft with four blank lines in a row. *)
Lemma formatTestCode_blank_lines_witness :
  str_falsy (trim draft) = false /\
  forall a b,
    TestGenerator.formatTestCode draft <>
    (a ++ AiClient.nl ++ AiClient.nl ++ AiClient.nl ++ b)%string.
Proof.
  split; [reflexivity|].
  destruct (formatTestCode_blank_lines draft) as (body & _ & _ & _ & H).
  - reflexivity.
  - exact H.
Defined.

(** The directory of the tests cannot be made. *)
Lemma generateTest_failure_names_step_witness :
  TestGenerator.generateTest "/repo" join_path no_checks read_only
    "open the home page" "s1" TestGenerator.DEFAULT_OPTIONS =
  (Throws (ThrownError
     (TestGenerator.TestGenerationError
        "Failed to create output directory"
        (Some "EROFS: read-only file system"))),
   [TestGenerator.Mkdir "/repo/tests/generated"]).
Proof.
  destruct (generateTest_failure_names_step "/repo" join_path no_checks
              read_only "open the home page" "s1"
              TestGenerator.DEFAULT_OPTIONS) as (_ & H & _).
  apply (H (ThrownError (Error "EROFS: read-only file system")));
    reflexivity.
Defined.

Example api_down_fails_the_generation_step :
  fst (TestGenerator.generateTest "/repo" join_path no_checks offline
         "open the home page" "s1" TestGenerator.DEFAULT_OPTIONS) =
  Throws (ThrownError
     (TestGenerator.TestGenerationError "Failed to generate test content"
        (Some "Failed after 3 attempts"))).
Proof. reflexivity. Qed.

(** A test is generated at the third request. *)
Lemma generateTest_resolves_witness :
  exists g evs,
    TestGenerator.generateTest "/repo" join_path no_checks online
      "open the home page" "s1" TestGenerator.DEFAULT_OPTIONS =
      (Normal g, evs) /\
    TestGenerator.filePath g = "/repo/tests/generated/s1.spec.ts" /\
    TestGenerator.content g =
      TestGenerator.formatTestCode "test('home', async () => {});".
Proof.
  destruct (TestGenerator.generateTest "/repo" join_path no_checks online
              "open the home page" "s1" TestGenerator.DEFAULT_OPTIONS)
    as [[g|t] evs] eqn:E;
    [|apply (f_equal fst) in E; lazy in E; discriminate].
  destruct (generateTest_resolves "/repo" join_path no_checks online
              "open the home page" "s1" TestGenerator.DEFAULT_OPTIONS
              g evs E) as (_ & Hpath & _ & _ & _ & Hcontent).
  exists g, evs. split; [reflexivity|]. split; [exact Hpath|].
  destruct (Hcontent eq_refl eq_refl) as (text & _ & Ht).
  rewrite Ht. apply (f_equal fst) in E. cbv in E.
  injection E as E. rewrite <- E in Ht. cbn [TestGenerator.content] in Ht.
  exact (eq_sym Ht).
Defined.

(** A tag that starts with an at sign. *)
Lemma rejected_inputs_exhaust_attempts_witness :
  exists evs,
    RerunHandler.runWithRetries resolve_test_path "open the home page"
      "@smoke" 2 RerunHandler.default_options
      (Pipeline.generate "/repo" join_path no_checks (fun _ => online)
         "open the home page" "@smoke")
      (fun _ => None) =
      (Throws (ThrownError (Error
         "Test failed after 2 attempts: Test name contains invalid characters")),
       evs) /\
    filter RerunHandler.is_execute evs = [].
Proof.
  destruct (rejected_inputs_exhaust_attempts resolve_test_path "/repo"
              join_path no_checks (fun _ => online) (fun _ => None)
              "open the home page" "@smoke" 2 RerunHandler.default_options
              (ThrownError (TestGenerator.TestGenerationError
                 "Test name contains invalid characters"
                 (Some "Use only letters, numbers, underscores, and hyphens"))))
    as (evs & E & _ & Hx & _).
  - reflexivity.
  - lia.
  - exists evs. split; [exact E | exact Hx].
Defined.

End MoreSamples.
